(** * National History Bee: answer matching and streaming reveal

    A shallow embedding of the answer checker and of the streaming
    state machine of [src/js/game.js], with the properties of the
    specification stated against it.

    Conventions of the embedding.
    - A JavaScript string is a sequence of UTF-16 code units.  The
      embedding covers the code units 0..255 (ASCII and Latin-1), which
      is what [ascii] holds; [string] is the Standard Library's list of
      such characters.  Character classes and case mappings below are
      the ECMAScript ones restricted to that range.
    - A JavaScript number is an IEEE 754 binary64 value: the kernel's
      primitive [float], with the same rounding.  String lengths,
      indices and the cells of the edit-distance matrix are small
      non-negative integers and are kept in [nat]; they are converted
      to [float] where the source does arithmetic that can leave the
      integers.
    - Regular expressions are kept as data and run by a small
      backtracking matcher with ECMAScript's greedy, leftmost
      semantics. *)

From Stdlib Require Import Uint63 Floats.
From Stdlib Require Import Bool Arith ZArith Lia List.
From Stdlib Require Import Ascii String.
Import ListNotations.

Local Open Scope string_scope.

(** ** Characters *)

Definition code (c : ascii) : N := N_of_ascii c.

Definition inRange (lo hi : N) (c : ascii) : bool :=
  (N.leb lo (code c) && N.leb (code c) hi)%bool.

(** [\s], and the characters removed by [trim]: TAB, LF, VT, FF, CR,
    SPACE and NO-BREAK SPACE are the members below U+0100. *)
Definition isSpace (c : ascii) : bool :=
  inRange 9 13 c || N.eqb (code c) 32 || N.eqb (code c) 160.

(** [\w] is [[A-Za-z0-9_]]. *)
Definition isWord (c : ascii) : bool :=
  inRange 48 57 c || inRange 65 90 c || N.eqb (code c) 95 || inRange 97 122 c.

(** [String.prototype.toLowerCase] on one code unit below U+0100:
    A-Z and the Latin-1 capitals U+00C0..U+00DE (without the
    multiplication sign U+00D7) move up by 32. *)
Definition toLowerChar (c : ascii) : ascii :=
  if inRange 65 90 c || (inRange 192 222 c && negb (N.eqb (code c) 215))
  then ascii_of_N (code c + 32)
  else c.

(** Canonicalize of the [i] flag (non-Unicode mode): the upper-case
    mapping, kept only when it is a single code unit and does not move
    a non-ASCII character into ASCII.  U+00B5 and U+00FF have their
    capitals outside the range covered here and no other character
    below U+0100 shares them, so they stand for themselves. *)
Definition canon (c : ascii) : ascii :=
  if inRange 97 122 c || (inRange 224 254 c && negb (N.eqb (code c) 247))
  then ascii_of_N (code c - 32)
  else c.

Fixpoint toLowerCase (s : string) : string :=
  match s with
  | EmptyString => EmptyString
  | String c r => String (toLowerChar c) (toLowerCase r)
  end.

(** ** Strings *)

Fixpoint skip (n : nat) (s : string) : string :=
  match n, s with
  | S k, String _ r => skip k r
  | _, _ => s
  end.

Fixpoint trimStart (s : string) : string :=
  match s with
  | String c r => if isSpace c then trimStart r else s
  | EmptyString => EmptyString
  end.

Fixpoint trimEnd (s : string) : string :=
  match s with
  | String c r =>
      match trimEnd r with
      | EmptyString => if isSpace c then EmptyString else String c EmptyString
      | r' => String c r'
      end
  | EmptyString => EmptyString
  end.

(** [String.prototype.trim] *)
Definition trim (s : string) : string := trimEnd (trimStart s).

(** [s.includes(sub)] *)
Definition includes (s sub : string) : bool :=
  match index 0 sub s with
  | Some _ => true
  | None => false
  end.

(** ** Regular expressions *)

Module Regex.

(** The fragment of the pattern language that the source uses. *)
Inductive atom : Type :=
| Lit (c : ascii)              (* a literal character *)
| Cls (p : ascii -> bool)      (* a class: [[...]], [\s], [\w] *)
| Opt (c : ascii)              (* [c?] *)
| Star (p : ascii -> bool)     (* [[...]*], greedy *)
| Plus (p : ascii -> bool)     (* [[...]+], greedy *)
| Alt (ws : list string)       (* [(w1|w2|...)] of literal words *)
| WordB                        (* [\b] *)
| Bol.                         (* [^] *)

Definition regex : Type := list atom.

Fixpoint lits (w : string) : regex :=
  match w with
  | EmptyString => []
  | String c w' => Lit c :: lits w'
  end.

(** A continuation receives the character before the current
    position ([None] at the start of the input) and the rest of the
    input, and answers with the number of characters it consumed. *)
Definition cont : Type := option ascii -> string -> option nat.

Definition isWordOpt (o : option ascii) : bool :=
  match o with
  | Some c => isWord c
  | None => false
  end.

Definition first (s : string) : option ascii :=
  match s with
  | String c _ => Some c
  | EmptyString => None
  end.

Definition atBoundary (prev : option ascii) (s : string) : bool :=
  xorb (isWordOpt prev) (isWordOpt (first s)).

Section Matcher.

(** The [i] flag. *)
Variable ignoreCase : bool.

Definition chEq (c d : ascii) : bool :=
  if ignoreCase then Ascii.eqb (canon c) (canon d) else Ascii.eqb c d.

Definition one (p : ascii -> bool) (k : cont) : cont :=
  fun _ s =>
    match s with
    | String d r => if p d then option_map S (k (Some d) r) else None
    | EmptyString => None
    end.

(** Greedy iteration: take one more character when possible and
    give it back when the continuation then fails. *)
Fixpoint many (p : ascii -> bool) (k : cont) (prev : option ascii)
         (s : string) : option nat :=
  match s with
  | String d r =>
      if p d then
        match many p k (Some d) r with
        | Some n => Some (S n)
        | None => k prev s
        end
      else k prev s
  | EmptyString => k prev s
  end.

Fixpoint word (w : string) (k : cont) : cont :=
  match w with
  | EmptyString => k
  | String c w' => one (chEq c) (word w' k)
  end.

Fixpoint alts (ws : list string) (k : cont) : cont :=
  fun prev s =>
    match ws with
    | [] => None
    | w :: ws' =>
        match word w k prev s with
        | Some n => Some n
        | None => alts ws' k prev s
        end
    end.

(** Match the pattern at the current position; the result is the
    length of the match. *)
Fixpoint matchHere (re : regex) : cont :=
  match re with
  | [] => fun _ _ => Some 0
  | a :: re' =>
      let k := matchHere re' in
      match a with
      | Lit c => one (chEq c) k
      | Cls p => one p k
      | Opt c =>
          fun prev s =>
            match one (chEq c) k prev s with
            | Some n => Some n
            | None => k prev s
            end
      | Star p => many p k
      | Plus p => one p (many p k)
      | Alt ws => alts ws k
      | WordB => fun prev s => if atBoundary prev s then k prev s else None
      | Bol =>
          fun prev s =>
            match prev with
            | None => k prev s
            | Some _ => None
            end
      end
  end.

(** [s.match(re)] with the [g] flag: every match, left to right,
    each search starting where the previous match ended (one
    character further after an empty match).  [pending] counts the
    characters of the current match still to be stepped over. *)
Fixpoint matchAllFrom (re : regex) (pending : nat) (prev : option ascii)
         (s : string) {struct s} : list string :=
  match pending with
  | S k =>
      match s with
      | String c r => matchAllFrom re k (Some c) r
      | EmptyString => []
      end
  | O =>
      match matchHere re prev s with
      | Some n =>
          substring 0 n s ::
            match s with
            | String c r => matchAllFrom re (Nat.pred n) (Some c) r
            | EmptyString => []
            end
      | None =>
          match s with
          | String c r => matchAllFrom re 0 (Some c) r
          | EmptyString => []
          end
      end
  end.

Definition matchAll (re : regex) (s : string) : list string :=
  matchAllFrom re 0 None s.

(** [s.replace(re, rep)] with the [g] flag. *)
Fixpoint replaceAllFrom (re : regex) (rep : string) (pending : nat)
         (prev : option ascii) (s : string) {struct s} : string :=
  match pending with
  | S k =>
      match s with
      | String c r => replaceAllFrom re rep k (Some c) r
      | EmptyString => EmptyString
      end
  | O =>
      match matchHere re prev s with
      | Some (S k) =>
          rep ++
            match s with
            | String c r => replaceAllFrom re rep k (Some c) r
            | EmptyString => EmptyString
            end
      | Some O =>
          rep ++
            match s with
            | String c r => String c (replaceAllFrom re rep 0 (Some c) r)
            | EmptyString => EmptyString
            end
      | None =>
          match s with
          | String c r => String c (replaceAllFrom re rep 0 (Some c) r)
          | EmptyString => EmptyString
          end
      end
  end.

Definition replaceAll (re : regex) (rep s : string) : string :=
  replaceAllFrom re rep 0 None s.

(** [s.replace(re, rep)] without the [g] flag: the first match only. *)
Fixpoint replaceFirstFrom (re : regex) (rep : string)
         (prev : option ascii) (s : string) : string :=
  match matchHere re prev s with
  | Some n => rep ++ skip n s
  | None =>
      match s with
      | String c r => String c (replaceFirstFrom re rep (Some c) r)
      | EmptyString => EmptyString
      end
  end.

Definition replaceFirst (re : regex) (rep s : string) : string :=
  replaceFirstFrom re rep None s.

(** [s.split(re)[0]] for a pattern that matches no empty string:
    the text before the first match, the whole of [s] without one. *)
Fixpoint splitHeadFrom (re : regex) (prev : option ascii) (s : string)
  : string :=
  match matchHere re prev s with
  | Some _ => EmptyString
  | None =>
      match s with
      | String c r => String c (splitHeadFrom re (Some c) r)
      | EmptyString => EmptyString
      end
  end.

Definition splitHead (re : regex) (s : string) : string :=
  splitHeadFrom re None s.

End Matcher.

End Regex.

Import Regex.

Definition isNot (c : ascii) : ascii -> bool := fun d => negb (Ascii.eqb d c).

(** [/<[^>]*>/g] *)
Definition reTag : regex := [Lit "<"; Star (isNot ">"); Lit ">"].

(** [/\b(the|a|an|of|or|and|in|on|at|to)\b/g] *)
Definition stopWords : list string :=
  ["the"; "a"; "an"; "of"; "or"; "and"; "in"; "on"; "at"; "to"].
Definition reStop : regex := [WordB; Alt stopWords; WordB].

(** [/[^\w\s]/g] *)
Definition isPunct (c : ascii) : bool := negb (isWord c || isSpace c).
Definition rePunct : regex := [Cls isPunct].

(** [/\s+/g] *)
Definition reSpaces : regex := [Plus isSpace].

(** [/<strong>([^<]+)<\/strong>/gi] *)
Definition reStrong : regex :=
  (lits "<strong>" ++ [Plus (isNot "<")] ++ lits "</strong>")%list.

(** [/<\/?strong>/gi] *)
Definition reStrongTag : regex := ([Lit "<"; Opt "/"] ++ lits "strong>")%list.

(** [/accept\s+([^;)]+)/gi] *)
Definition isClauseChar (c : ascii) : bool :=
  negb (Ascii.eqb c ";" || Ascii.eqb c ")").
Definition reAccept : regex :=
  (lits "accept" ++ [Plus isSpace; Plus isClauseChar])%list.

(** [/^accept\s+/i] *)
Definition reAcceptHead : regex :=
  ([Bol] ++ lits "accept" ++ [Plus isSpace])%list.

(** [/\(/] *)
Definition reParen : regex := [Lit "("].

(** ** The answer matcher *)

(** [levenshteinDistance]: the matrix is filled row by row; row [i] is
    [matrix[i][0..a.length]].  [fillRow] computes the cells
    [matrix[i][j..]] of a row from [diag = matrix[i-1][j-1]],
    [left = matrix[i][j-1]] and [up = matrix[i-1][j..]]. *)
Fixpoint fillRow (bi : ascii) (a : string) (diag left : nat) (up : list nat)
  : list nat :=
  match a, up with
  | String aj a', u :: up' =>
      let cell :=
        if Ascii.eqb bi aj then diag
        else Nat.min (diag + 1) (Nat.min (left + 1) (u + 1)) in
      cell :: fillRow bi a' u cell up'
  | _, _ => []
  end.

(** Rows [i, i+1, ...] for the characters of [b] from position [i-1]
    on, starting from row [i-1]; the result is the last row. *)
Fixpoint fillRows (a b : string) (i : nat) (row : list nat) : list nat :=
  match b with
  | EmptyString => row
  | String bi b' =>
      fillRows a b' (S i) (i :: fillRow bi a (i - 1) i (tl row))
  end.

Definition levenshteinDistance (a b : string) : nat :=
  if Nat.eqb (length a) 0 then length b
  else if Nat.eqb (length b) 0 then length a
  else last (fillRows a b 1 (seq 0 (S (length a)))) 0.

(** A length or a distance as a JavaScript number (exact below 2^53). *)
Definition num (n : nat) : float := of_uint63 (Uint63.of_Z (Z.of_nat n)).

Definition calculateSimilarity (a b : string) : float :=
  if String.eqb a b then 1%float
  else if Nat.eqb (length a) 0 || Nat.eqb (length b) 0 then 0%float
  else
    let distance := levenshteinDistance a b in
    (1 - num distance / num (Nat.max (length a) (length b)))%float.

(** [[...new Set(answers)]]: the first occurrence of every element, in
    insertion order. *)
Fixpoint setOf (seen answers : list string) : list string :=
  match answers with
  | [] => []
  | x :: rest =>
      if existsb (String.eqb x) seen then setOf seen rest
      else x :: setOf (x :: seen) rest
  end.

(** [content && content.length > 1] *)
Definition longEnough (content : string) : bool :=
  Nat.ltb 1 (length content).

Definition strongCandidates (text : string) : list string :=
  filter longEnough
    (map (fun m => trim (replaceAll true reStrongTag "" m))
         (matchAll true reStrong text)).

Definition acceptCandidates (text : string) : list string :=
  filter longEnough
    (map (fun m =>
            let content := trim (replaceFirst true reAcceptHead "" m) in
            trim (replaceAll false reTag "" content))
         (matchAll true reAccept text)).

Definition primaryCandidate (text : string) : list string :=
  let primaryPart := splitHead false reParen text in
  let primaryClean := trim (replaceAll false reTag "" primaryPart) in
  if longEnough primaryClean then [primaryClean] else [].

Definition extractAcceptableAnswers (answerField : string) : list string :=
  let text := answerField in
  let answers :=
    (strongCandidates text ++ acceptCandidates text
       ++ primaryCandidate text)%list in
  setOf [] answers.

Definition normalizeAnswer (answer : string) : string :=
  let normalized := replaceAll false reTag "" answer in
  replaceAll false reSpaces " "
    (trim
       (replaceAll false rePunct ""
          (replaceAll false reStop "" (toLowerCase normalized)))).

(** [parseInt] of the stored tolerance, as a JavaScript number. *)
Definition numZ (z : Z) : float :=
  if Z.ltb z 0 then PrimFloat.opp (of_uint63 (Uint63.of_Z (Z.opp z)))
  else of_uint63 (Uint63.of_Z z).

(** One round of the loop over [acceptableAnswers]: the three tests
    made on a candidate. *)
Definition matchesCandidate (normalizedUser : string) (tolerance : float)
           (acceptable : string) : bool :=
  let normalizedAcceptable := normalizeAnswer acceptable in
  if String.eqb normalizedUser normalizedAcceptable then true
  else if includes normalizedAcceptable normalizedUser
          || includes normalizedUser normalizedAcceptable then true
  else
    let similarity := calculateSimilarity normalizedUser normalizedAcceptable in
    PrimFloat.leb tolerance similarity.

(** [for (const acceptable of acceptableAnswers) { ... break; }] *)
Fixpoint anyCandidate (normalizedUser : string) (tolerance : float)
         (acceptableAnswers : list string) : bool :=
  match acceptableAnswers with
  | [] => false
  | acceptable :: rest =>
      if matchesCandidate normalizedUser tolerance acceptable then true
      else anyCandidate normalizedUser tolerance rest
  end.

(** The judgement computed by [checkAnswer] (the variable [isCorrect]),
    from the trimmed input, the answer field of the question and the
    stored tolerance percentage. *)
Definition isCorrect (userAnswer correctAnswer : string) (answerTolerance : Z)
  : bool :=
  let tolerance := (numZ answerTolerance / 100)%float in
  let acceptableAnswers := extractAcceptableAnswers correctAnswer in
  let normalizedUser := normalizeAnswer userAnswer in
  let isCorrect := anyCandidate normalizedUser tolerance acceptableAnswers in
  if negb isCorrect then
    let normalizedCorrect := normalizeAnswer correctAnswer in
    let isCorrect :=
      if includes normalizedCorrect normalizedUser
         || includes normalizedUser normalizedCorrect
         || String.eqb normalizedUser normalizedCorrect
      then true else isCorrect in
    let similarity := calculateSimilarity normalizedUser normalizedCorrect in
    if PrimFloat.leb tolerance similarity then true else isCorrect
  else isCorrect.

(** [checkAnswer]: a blank input is refused with an alert and nothing is
    judged ([None]); otherwise the judgement is what goes to the
    history. *)
Definition checkAnswer (value correctAnswer : string) (answerTolerance : Z)
  : option bool :=
  let userAnswer := trim value in
  if String.eqb userAnswer "" then None
  else Some (isCorrect userAnswer correctAnswer answerTolerance).

(** ** The streaming reveal *)

Module Stream.

Definition quote : string := String (ascii_of_nat 34) EmptyString.

(** The transient cursor appended to the sink while revealing. *)
Definition cursor : string :=
  "<span class=" ++ quote ++ "cursor" ++ quote ++ "></span>".

(** What one call of the timer callback reads from its environment:
    [Date.now()], [parseInt] of the speed control ([None] for NaN) and
    [state.isPaused].  (The pause button also removes the timer, and
    resuming installs the closure of [resumeQuestion]; the properties
    below are about reveals that are not paused.) *)
Record env : Type := {
  now : Z;
  speed : option Z;
  isPaused : bool
}.

(** The variables [streamText] and its closure [addNextChar] work on. *)
Record reveal : Type := {
  displayText : string;
  currentCharIndex : nat;
  lastCharTime : Z;
  streamingInterval : bool;     (* the repeating timer is installed *)
  innerHTML : string;           (* last value given to the sink *)
  callbacks : nat               (* calls of the given [callback] so far *)
}.

(** [removeCursor] *)
Definition removeCursor (html : string) : string :=
  replaceAll false (lits cursor) "" html.

(** [streamText(text, targetElement, callback)] up to the installation
    of the timer. *)
Definition streamText (html : string) (start : Z) : reveal :=
  {| displayText := "";
     currentCharIndex := 0;
     lastCharTime := start;
     streamingInterval := true;
     innerHTML := removeCursor html;
     callbacks := 0 |}.

(** [now - lastCharTime < currentSpeed], false when the speed is NaN. *)
Definition tooEarly (e : env) (last : Z) : bool :=
  match speed e with
  | Some v => Z.ltb (now e - last) (110 - v)
  | None => false
  end.

(** The unit emitted at cursor [i] and the cursor after it. *)
Definition emit (text : string) (i : nat) : string * nat :=
  match get i text with
  | Some char =>
      if Ascii.eqb char "<" then
        match index i ">" text with
        | Some tagEnd => (substring i (tagEnd + 1 - i) text, tagEnd + 1)
        | None => (String char "", S i)
        end
      else (String char "", S i)
  | None => ("undefined", S i)
  end.

Definition addNextChar (text : string) (e : env) (st : reveal) : reveal :=
  if isPaused e then st
  else if tooEarly e (lastCharTime st) then st
  else if Nat.leb (length text) (currentCharIndex st) then
    {| displayText := displayText st;
       currentCharIndex := currentCharIndex st;
       lastCharTime := now e;
       streamingInterval := false;
       innerHTML := displayText st;
       callbacks := S (callbacks st) |}
  else
    let (chunk, next) := emit text (currentCharIndex st) in
    {| displayText := displayText st ++ chunk;
       currentCharIndex := next;
       lastCharTime := now e;
       streamingInterval := streamingInterval st;
       innerHTML := (displayText st ++ chunk) ++ cursor;
       callbacks := callbacks st |}.

(** One period of [setInterval(addNextChar, 10)]: the callback runs
    while the timer is installed. *)
Definition tick (text : string) (st : reveal) (e : env) : reveal :=
  if streamingInterval st then addNextChar text e st else st.

Definition run (text : string) (st : reveal) (es : list env) : reveal :=
  fold_left (tick text) es st.

(** The increments appended to [displayText] along a run. *)
Fixpoint increments (text : string) (st : reveal) (es : list env)
  : list string :=
  match es with
  | [] => []
  | e :: es' =>
      let st' := tick text st e in
      if Nat.eqb (length (displayText st')) (length (displayText st))
      then increments text st' es'
      else skip (length (displayText st)) (displayText st')
             :: increments text st' es'
  end.

(** Does the callback get past its two guards at [e]? *)
Definition fires (e : env) (last : Z) : bool :=
  negb (isPaused e) && negb (tooEarly e last).

(** The number of calls in a schedule that get past the guards. *)
Fixpoint firings (last : Z) (es : list env) : nat :=
  match es with
  | [] => 0
  | e :: es' =>
      if fires e last then S (firings (now e) es') else firings last es'
  end.

(** Position [p] is strictly inside a tag: some ['<'] before it is
    closed by its first ['>'] at [p] or later. *)
Definition insideTag (text : string) (p : nat) : Prop :=
  exists q e,
    get q text = Some "<"%char /\ index q ">" text = Some e /\ q < p <= e.

End Stream.

(** ** Notions of the specification *)

(** [x] occurs in [y] as a contiguous run. *)
Definition isSubstring (x y : string) : Prop :=
  exists pre post, y = pre ++ x ++ post.

(** The three tests of the contract on a normalized candidate: (a)
    equality, (b) one string a substring of the other, (c) similarity at
    least the tolerance. *)
Definition specMatch (normUser candidate : string) (tolerance : float) : Prop :=
  normUser = candidate
  \/ (isSubstring normUser candidate \/ isSubstring candidate normUser)
  \/ PrimFloat.leb tolerance (calculateSimilarity normUser candidate) = true.

(** Nothing is left of [s] once its markup tags are removed. *)
Definition entirelyMarkup (s : string) : Prop :=
  replaceAll false reTag "" s = "".

(** The order the data model of the specification gives for the
    candidates: primary first, then the strong spans, then the accept
    clauses, without repeats. *)
Definition claimedOrder (answerField : string) : list string :=
  setOf [] (primaryCandidate answerField ++ strongCandidates answerField
              ++ acceptCandidates answerField)%list.

(** The candidates in the order the code collects them, repeats
    included. *)
Definition collected (answerField : string) : list string :=
  (strongCandidates answerField ++ acceptCandidates answerField
     ++ primaryCandidate answerField)%list.

(** Position of the first occurrence of [x] in [l] ([length l] without
    one). *)
Fixpoint firstIndex (x : string) (l : list string) : nat :=
  match l with
  | [] => 0
  | y :: r => if String.eqb x y then 0 else S (firstIndex x r)
  end.

Import Stream.

(** The state of a reveal of [text] is coherent: what was displayed and
    what is left make up the text; the callback has run once the timer
    is gone, and only then. *)
Definition coherent (text : string) (st : reveal) : Prop :=
  text = displayText st ++ skip (currentCharIndex st) text
  /\ currentCharIndex st <= length text
  /\ (streamingInterval st = true /\ callbacks st = 0
      \/ streamingInterval st = false /\ callbacks st = 1
         /\ innerHTML st = text /\ displayText st = text).

(** A schedule of [n] calls, 10 ms apart, at the fastest speed setting
    (a delay of 10 ms per character). *)
Definition steady (n : nat) : list env :=
  map (fun k => {| now := 10 * Z.of_nat k; speed := Some 100%Z;
                   isPaused := false |})
      (seq 1 n).

(** ** Direct descriptions of the normalization steps

    Plain recursive functions that the pattern-based steps of
    [normalizeAnswer] are proved equal to. *)

(** Every character of [s] satisfies [p]. *)
Fixpoint every (p : ascii -> bool) (s : string) : bool :=
  match s with
  | EmptyString => true
  | String c r => p c && every p r
  end.

(** The characters of [s] that satisfy [p]. *)
Fixpoint keep (p : ascii -> bool) (s : string) : string :=
  match s with
  | EmptyString => EmptyString
  | String c r => if p c then String c (keep p r) else keep p r
  end.

(** Number of white-space characters [s] starts with. *)
Fixpoint leading (s : string) : nat :=
  match s with
  | String c r => if isSpace c then S (leading r) else 0
  | EmptyString => 0
  end.

(** Every run of white space becomes one space; [inRun] tells that the
    run in progress has already been replaced. *)
Fixpoint squeeze (inRun : bool) (s : string) : string :=
  match s with
  | EmptyString => EmptyString
  | String c r =>
      if isSpace c then
        if inRun then squeeze true r else String " " (squeeze true r)
      else String c (squeeze false r)
  end.

(** [s] continues a string whose last character was white space or not
    ([afterSpace]) so that the whole has single spaces only, all of them
    between two other characters. *)
Fixpoint tidyFrom (afterSpace : bool) (s : string) : bool :=
  match s with
  | EmptyString => negb afterSpace
  | String c r =>
      if isSpace c then negb afterSpace && Ascii.eqb c " " && tidyFrom true r
      else tidyFrom false r
  end.

Definition tidy (s : string) : bool :=
  match s with
  | EmptyString => true
  | _ => tidyFrom true s
  end.

(** The last character of [s], when there is one, is not white space. *)
Fixpoint endsNonSpace (s : string) : bool :=
  match s with
  | EmptyString => true
  | String c EmptyString => negb (isSpace c)
  | String _ r => endsNonSpace r
  end.

(** Lower-case letters, digits and the underscore stay as they are
    under [toLowerCase]; so does white space. *)
Definition isLower (c : ascii) : bool := Ascii.eqb (toLowerChar c) c.

(** A continuation consumes no more than what is left of the input. *)
Definition withinInput (k : cont) : Prop :=
  forall prev s m, k prev s = Some m -> m <= length s.

(** ** Edit distance

    The Levenshtein distance with unit costs, by its recurrence: to
    turn [c :: x] into [d :: y], delete [c], insert [d], or substitute
    [d] for [c] (at no cost when they are equal).  The lists hold the
    characters of two prefixes, last character first, as the matrix of
    [levenshteinDistance] grows them. *)
Fixpoint dist (x : list ascii) : list ascii -> nat :=
  match x with
  | [] => fun y => List.length y
  | c :: x' =>
      fix inner (y : list ascii) : nat :=
        match y with
        | [] => S (List.length x')
        | d :: y' =>
            Nat.min (dist x' (d :: y') + 1)
              (Nat.min (inner y' + 1)
                 (dist x' y' + (if Ascii.eqb c d then 0 else 1)))
        end
  end.

(** The characters of [s], last first, on top of [acc]. *)
Fixpoint revChars (s : string) (acc : list ascii) : list ascii :=
  match s with
  | EmptyString => acc
  | String c r => revChars r (c :: acc)
  end.

(** The distances from [x] to [y] extended by the successive characters
    of [a]: one row of the matrix, to the right of the column of [y]. *)
Fixpoint cells (x y : list ascii) (a : string) : list nat :=
  match a with
  | EmptyString => []
  | String d a' => dist x (d :: y) :: cells x (d :: y) a'
  end.

(** ** Floating-point values

    The value of the primitive float 1, and the floats of value at most
    one that are not negative: zero, or a positive mantissa [m] and an
    exponent [e] with [m * 2^e <= 1]. *)
Definition oneSF : spec_float := S754_finite false 4503599627370496 (-52).

Definition le1 (x : spec_float) : Prop :=
  match x with
  | S754_zero _ => True
  | S754_finite false m e => (e <= 0 /\ Zpos m <= 2 ^ (- e))%Z
  | _ => False
  end.

(** * The rest of the application

    The functions around the answer checker and the reveal: the
    experience levels of [src/js/xpSystem.js] with the tables of
    [state.js], the points of the leaderboard and profile modules, the
    question filters, the history and its export, the statistics of the
    dashboard, and the handlers of [src/js/game.js] that drive a
    practice session. *)

(** [s.charAt(0)] *)
Definition charAt0 (s : string) : string :=
  match s with
  | String c _ => String c ""
  | EmptyString => ""
  end.

(** [obj[key]] for an object literal given by its own properties. *)
Fixpoint property {A : Type} (key : string) (obj : list (string * A))
  : option A :=
  match obj with
  | [] => None
  | (k, v) :: rest => if String.eqb key k then Some v else property key rest
  end.

(** ** Experience levels ([xpSystem.js]) *)

Module XpSystem.

Local Open Scope Z_scope.

Record Tier : Type := {
  name : string;
  minLevel : Z;
  maxLevel : Z;
  color : string;
  colorLight : string
}.

(** [RANK_CONFIG.tiers] *)
Definition bronze : Tier :=
  {| name := "Bronze"; minLevel := 1; maxLevel := 10;
     color := "#CD7F32"; colorLight := "#D4954A" |}.

Definition tiers : list Tier :=
  [ bronze;
    {| name := "Silver"; minLevel := 11; maxLevel := 20;
       color := "#C0C0C0"; colorLight := "#D8D8D8" |};
    {| name := "Gold"; minLevel := 21; maxLevel := 35;
       color := "#FFD700"; colorLight := "#FFE44D" |};
    {| name := "Platinum"; minLevel := 36; maxLevel := 50;
       color := "#E5E4E2"; colorLight := "#F0EFED" |};
    {| name := "Diamond"; minLevel := 51; maxLevel := 70;
       color := "#B9F2FF"; colorLight := "#D4F7FF" |};
    {| name := "Master"; minLevel := 71; maxLevel := 85;
       color := "#9966CC"; colorLight := "#B38DD9" |};
    {| name := "Grandmaster"; minLevel := 86; maxLevel := 100;
       color := "#FF4500"; colorLight := "#FF6A33" |} ].

(** [RANK_CONFIG.titles], keyed by level. *)
Definition titles : list (Z * string) :=
  [
    (1, "Bronze I"); (2, "Bronze II"); (3, "Bronze III");
    (4, "Bronze IV"); (5, "Bronze V"); (6, "Bronze VI");
    (7, "Bronze VII"); (8, "Bronze VIII"); (9, "Bronze IX");
    (10, "Bronze X"); (11, "Silver I"); (12, "Silver II");
    (13, "Silver III"); (14, "Silver IV"); (15, "Silver V");
    (16, "Silver VI"); (17, "Silver VII"); (18, "Silver VIII");
    (19, "Silver IX"); (20, "Silver X"); (21, "Gold I");
    (22, "Gold II"); (23, "Gold III"); (24, "Gold IV");
    (25, "Gold V"); (26, "Gold VI"); (27, "Gold VII");
    (28, "Gold VIII"); (29, "Gold IX"); (30, "Gold X");
    (31, "Gold XI"); (32, "Gold XII"); (33, "Gold XIII");
    (34, "Gold XIV"); (35, "Gold XV"); (36, "Platinum I");
    (37, "Platinum II"); (38, "Platinum III"); (39, "Platinum IV");
    (40, "Platinum V"); (41, "Platinum VI"); (42, "Platinum VII");
    (43, "Platinum VIII"); (44, "Platinum IX"); (45, "Platinum X");
    (46, "Platinum XI"); (47, "Platinum XII"); (48, "Platinum XIII");
    (49, "Platinum XIV"); (50, "Platinum XV"); (51, "Diamond I");
    (52, "Diamond II"); (53, "Diamond III"); (54, "Diamond IV");
    (55, "Diamond V"); (56, "Diamond VI"); (57, "Diamond VII");
    (58, "Diamond VIII"); (59, "Diamond IX"); (60, "Diamond X");
    (61, "Diamond XI"); (62, "Diamond XII"); (63, "Diamond XIII");
    (64, "Diamond XIV"); (65, "Diamond XV"); (66, "Diamond XVI");
    (67, "Diamond XVII"); (68, "Diamond XVIII"); (69, "Diamond XIX");
    (70, "Diamond XX"); (71, "Master I"); (72, "Master II");
    (73, "Master III"); (74, "Master IV"); (75, "Master V");
    (76, "Master VI"); (77, "Master VII"); (78, "Master VIII");
    (79, "Master IX"); (80, "Master X"); (81, "Master XI");
    (82, "Master XII"); (83, "Master XIII"); (84, "Master XIV");
    (85, "Master XV"); (86, "Grandmaster I"); (87, "Grandmaster II");
    (88, "Grandmaster III"); (89, "Grandmaster IV"); (90, "Grandmaster V");
    (91, "Grandmaster VI"); (92, "Grandmaster VII"); (93, "Grandmaster VIII");
    (94, "Grandmaster IX"); (95, "Grandmaster X"); (96, "Grandmaster XI");
    (97, "Grandmaster XII"); (98, "Grandmaster XIII"); (99, "Grandmaster XIV");
    (100, "Grandmaster XV")
  ].

(** XP threshold for each level (cumulative).  Levels and XP totals are
    integers: the totals are sums of the point values. *)
Definition getXPForLevel (level : Z) : Z :=
  if level <=? 0 then 0
  else if level <=? 10 then level * 100
  else if level <=? 20 then 1000 + (level - 10) * 200
  else if level <=? 30 then 3000 + (level - 20) * 400
  else if level <=? 40 then 7000 + (level - 30) * 600
  else if level <=? 50 then 13000 + (level - 40) * 800
  else if level <=? 60 then 21000 + (level - 50) * 1000
  else if level <=? 70 then 31000 + (level - 60) * 1500
  else if level <=? 80 then 46000 + (level - 70) * 2000
  else if level <=? 90 then 66000 + (level - 80) * 3000
  else 96000 + (level - 90) * 5000.

(** [for (let level = ...; level <= 100; level++)] of [getLevelFromXP],
    with [rounds] iterations left. *)
Fixpoint levelLoop (xp level : Z) (rounds : nat) : Z :=
  match rounds with
  | O => 100
  | S rounds' =>
      if xp <? getXPForLevel level then Z.max 1 (level - 1)
      else levelLoop xp (level + 1) rounds'
  end.

Definition getLevelFromXP (xp : Z) : Z :=
  if xp <? 0 then 1 else levelLoop xp 1 100.

Definition getTierForLevel (level : Z) : Tier :=
  match
    find (fun tier => (minLevel tier <=? level) && (level <=? maxLevel tier))
         tiers
  with
  | Some tier => tier
  | None => nth 0 tiers bronze
  end.

Fixpoint titleAt (level : Z) (table : list (Z * string)) : option string :=
  match table with
  | [] => None
  | (k, v) :: rest => if k =? level then Some v else titleAt level rest
  end.

(** [RANK_CONFIG.titles[level] || RANK_CONFIG.titles[100]] *)
Definition getRankTitle (level : Z) : string :=
  match titleAt level titles with
  | Some title => title
  | None =>
      match titleAt 100 titles with
      | Some title => title
      | None => "undefined"
      end
  end.

(** [Math.min] on two numbers. *)
Definition mathMin (a b : float) : float :=
  if PrimFloat.is_nan a || PrimFloat.is_nan b then nan
  else if PrimFloat.ltb b a then b
  else if PrimFloat.ltb a b then a
  else if PrimFloat.get_sign a then a
  else b.

Record LevelProgress : Type := {
  level : Z;
  xp : Z;
  progress : Z;
  needed : Z;
  percentage : float;
  tier : Tier;
  title : string
}.

Definition calculateLevelProgress (xp : Z) : LevelProgress :=
  let level := getLevelFromXP xp in
  let currentLevelXP := if level =? 1 then 0 else getXPForLevel level in
  let nextLevelXP := getXPForLevel (level + 1) in
  let progress := Z.max 0 (xp - currentLevelXP) in
  let needed := nextLevelXP - currentLevelXP in
  {| level := level;
     xp := xp;
     progress := progress;
     needed := needed;
     percentage := mathMin 100 (numZ progress / numZ needed * 100)%float;
     tier := getTierForLevel level;
     title := getRankTitle level |}.

End XpSystem.

(** ** The history of a session ([history.js]) *)

Module History.

Record entry : Type := {
  id : string;
  question : string;
  answer : string;
  status : string;
  timestamp : Z;
  questionSet : string
}.

End History.

(** ** Points ([leaderboard.js], [profile.js]) *)

Module Leaderboard.

Local Open Scope Z_scope.

(** [POINTS_VALUES] of [state.js]; the keys are the first letters of
    the question ids. *)
Definition POINTS_VALUES : list (string * Z) :=
  [("P", 10); ("Q", 20); ("S", 30); ("F", 50)].

(** [POINTS_VALUES[difficulty] || 0], for the one-character keys
    ([id.charAt(0)]) it is called with. *)
Definition calculatePoints (difficulty : string) : Z :=
  match property difficulty POINTS_VALUES with
  | Some points => points
  | None => 0
  end.

(** The totals [calculateRetroactivePoints] computes from the history
    (and then stores in the profile and the leaderboards). *)
Definition calculateRetroactivePoints (questionHistory : list History.entry)
  : Z * Z :=
  fold_left
    (fun (acc : Z * Z) (entry : History.entry) =>
       let (totalPoints, correctAnswers) := acc in
       if String.eqb (History.status entry) "correct" then
         let points := calculatePoints (charAt0 (History.id entry)) in
         (totalPoints + points, correctAnswers + 1)
       else (totalPoints, correctAnswers))
    questionHistory (0, 0).

End Leaderboard.

Module Profile.

Local Open Scope Z_scope.

(** The fields of [state.userProfile] the points are kept in; a field
    the stored document does not have is [None]. *)
Record profile : Type := {
  username : option string;
  totalPoints : option Z;
  questionsAnswered : option Z;
  currentStreak : option Z;
  bestStreak : option Z
}.

(** [field || 0] *)
Definition orZero (field : option Z) : Z :=
  match field with
  | Some v => v
  | None => 0
  end.

(** The profile [loadUserProfile] creates for a user without one. *)
Definition emptyProfile : profile :=
  {| username := None;
     totalPoints := Some 0;
     questionsAnswered := Some 0;
     currentStreak := Some 0;
     bestStreak := Some 0 |}.

(** The document sent to each of the four leaderboards. *)
Record ranking : Type := {
  rankUsername : string;
  points : Z;
  rankQuestionsAnswered : Z;
  rankLevel : Z;
  rankTier : string
}.

Record outcome : Type := {
  userProfile : option profile;    (* [state.userProfile] afterwards *)
  levelUp : option Z;              (* [showLevelUpNotification(newLevel)] *)
  rankings : option ranking
}.

(** [updatePointsAndLeaderboard(difficulty, isCorrect)].  [verified]
    is [state.currentUser && state.currentUser.emailVerified],
    [answerTolerance] the stored tolerance as [parseInt] reads it, and
    [stored] tells whether the write of the new total to the profile
    document succeeded (a failure is caught and leaves the total in
    memory as it was). *)
Definition updatePointsAndLeaderboard (verified : bool)
           (userProfile : option profile) (answerTolerance : Z)
           (stored : bool) (difficulty : string) (isCorrect : bool)
  : outcome :=
  match userProfile with
  | None => {| userProfile := None; levelUp := None; rankings := None |}
  | Some p =>
      if negb verified then
        {| userProfile := Some p; levelUp := None; rankings := None |}
      else
        let previousLevel :=
          XpSystem.getLevelFromXP (orZero (totalPoints p)) in
        let p1 :=
          if isCorrect then
            let streak := orZero (currentStreak p) + 1 in
            {| username := username p;
               totalPoints := totalPoints p;
               questionsAnswered := questionsAnswered p;
               currentStreak := Some streak;
               bestStreak := Some (Z.max (orZero (bestStreak p)) streak) |}
          else
            {| username := username p;
               totalPoints := totalPoints p;
               questionsAnswered := questionsAnswered p;
               currentStreak := Some 0;
               bestStreak := bestStreak p |} in
        if negb isCorrect then
          {| userProfile := Some p1; levelUp := None; rankings := None |}
        else if answerTolerance <? 80 then
          {| userProfile := Some p1; levelUp := None; rankings := None |}
        else
          let xpEarned := Leaderboard.calculatePoints difficulty in
          if xpEarned =? 0 then
            {| userProfile := Some p1; levelUp := None; rankings := None |}
          else if negb stored then
            {| userProfile := Some p1; levelUp := None; rankings := None |}
          else
            let p2 :=
              {| username := username p1;
                 totalPoints := Some (orZero (totalPoints p1) + xpEarned);
                 questionsAnswered :=
                   Some (orZero (questionsAnswered p1) + 1);
                 currentStreak := currentStreak p1;
                 bestStreak := bestStreak p1 |} in
            let newLevel :=
              XpSystem.getLevelFromXP (orZero (totalPoints p2)) in
            {| userProfile := Some p2;
               levelUp :=
                 if previousLevel <? newLevel then Some newLevel else None;
               rankings :=
                 match username p2 with
                 | Some (String c r) =>
                     let levelInfo :=
                       XpSystem.calculateLevelProgress
                         (orZero (totalPoints p2)) in
                     Some {| rankUsername := String c r;
                             points := orZero (totalPoints p2);
                             rankQuestionsAnswered :=
                               orZero (questionsAnswered p2);
                             rankLevel := XpSystem.level levelInfo;
                             rankTier :=
                               XpSystem.name (XpSystem.tier levelInfo) |}
                 | _ => None
                 end |}
  end.

(** What [addToHistory(question, status)] passes on for a verified
    user: the first letter of the id and whether the status is
    ['correct']. *)
Definition afterAnswer (answerTolerance : Z) (stored : bool)
           (p : option profile) (entry : History.entry) : option profile :=
  userProfile
    (updatePointsAndLeaderboard true p answerTolerance stored
       (charAt0 (History.id entry))
       (String.eqb (History.status entry) "correct")).

End Profile.

(** ** Notions used to state the properties of these modules *)

(** Roman numerals, as the rank titles write the position of a level
    within its tier. *)
Definition romanSymbols : list (nat * string) :=
  [(10, "X"); (9, "IX"); (5, "V"); (4, "IV"); (1, "I")].

Fixpoint romanFrom (fuel n : nat) (symbols : list (nat * string)) : string :=
  match fuel with
  | O => ""
  | S fuel' =>
      match symbols with
      | [] => ""
      | (v, sym) :: rest =>
          if Nat.leb v n then sym ++ romanFrom fuel' (n - v) symbols
          else romanFrom fuel' n rest
      end
  end.

Definition roman (n : nat) : string := romanFrom (n + 5) n romanSymbols.

(** The answers of a session, oldest first: [true] for a correct one.
    [endsCorrect l k]: the last [k] answers of [l] are correct. *)
Definition endsCorrect (l : list bool) (k : nat) : Prop :=
  exists before, l = (before ++ repeat true k)%list.

(** [hasStreak l k]: [k] successive answers of [l] are correct. *)
Definition hasStreak (l : list bool) (k : nat) : Prop :=
  exists before after, l = (before ++ repeat true k ++ after)%list.

(** The streak fields of the profile [p] count what the answers [l]
    show: the correct answers [l] ends with, and the longest row of
    correct answers in [l]. *)
Definition streaksOf (l : list bool) (p : Profile.profile) : Prop :=
  exists cur best,
    Profile.currentStreak p = Some (Z.of_nat cur)
    /\ Profile.bestStreak p = Some (Z.of_nat best)
    /\ endsCorrect l cur /\ ~ endsCorrect l (S cur)
    /\ hasStreak l best /\ (forall k, hasStreak l k -> k <= best).

(** Was the answer recorded by a history entry correct? *)
Definition wasCorrect (entry : History.entry) : bool :=
  String.eqb (History.status entry) "correct".

(** The characters a normalized answer is made of: lower-case ASCII
    letters, digits, the underscore and the space. *)
Definition isAnswerChar (c : ascii) : bool :=
  inRange 97 122 c || inRange 48 57 c || N.eqb (code c) 95
  || Ascii.eqb c " ".

(** ** Export of the history ([history.js], [historyPage.js]) *)

Module Csv.

(** The pattern of one double quote, with the [g] flag, and its
    replacement, two double quotes. *)
Definition reQuote : regex := lits quote.

Definition twoQuotes : string := quote ++ quote.

(** The question and answer columns of [exportHistory]: tags removed,
    quotes doubled, the whole between quotes. *)
Definition cell (text : string) : string :=
  quote
    ++ replaceAll false reQuote twoQuotes (replaceAll false reTag "" text)
    ++ quote.

(** The same columns in [exportHistoryPage], where the quotes are
    doubled before the tags are removed. *)
Definition pageCell (text : string) : string :=
  quote
    ++ replaceAll false reTag "" (replaceAll false reQuote twoQuotes text)
    ++ quote.

End Csv.

(** Every quote of [s] written twice. *)
Fixpoint doubleQuotes (s : string) : string :=
  match s with
  | EmptyString => EmptyString
  | String c r =>
      if Ascii.eqb c (ascii_of_nat 34)
      then String c (String c (doubleQuotes r))
      else String c (doubleQuotes r)
  end.

(** A reader of quoted CSV fields: after the opening quote, two quotes
    stand for one and a single quote ends the field.  The result is
    the content of the field and the input left after it. *)
Fixpoint readField (s : string) : option (string * string) :=
  match s with
  | EmptyString => None
  | String c r =>
      if Ascii.eqb c (ascii_of_nat 34) then
        match r with
        | String d r' =>
            if Ascii.eqb d (ascii_of_nat 34) then
              match readField r' with
              | Some (content, rest) => Some (String c content, rest)
              | None => None
              end
            else Some (EmptyString, r)
        | EmptyString => Some (EmptyString, EmptyString)
        end
      else
        match readField r with
        | Some (content, rest) => Some (String c content, rest)
        | None => None
        end
  end.

Definition readQuoted (s : string) : option (string * string) :=
  match s with
  | String c r => if Ascii.eqb c (ascii_of_nat 34) then readField r else None
  | EmptyString => None
  end.

(** No proper, non-empty suffix of [w] is a prefix of [w]. *)
Definition borderFree (w : string) : bool :=
  forallb (fun k => negb (prefix (skip k w) w)) (seq 1 (length w - 1)).

(** ** Questions and filters ([filters.js]) *)

Module Questions.

Record Question : Type := {
  id : string;
  question : string;
  answer : string
}.

(** An entry of [state.questionMetadata]. *)
Record Meta : Type := {
  regions : list string;
  time_periods : list string;
  answer_type : string
}.

End Questions.

Module Filters.

Import Questions.

(** [state.activeFilters] *)
Record ActiveFilters : Type := {
  region : string;
  timePeriod : string;
  answerTypes : list string
}.

(** The filters of [state.js], which [clearAllFilters] and a change of
    the question set put back. *)
Definition clearAllFilters : ActiveFilters :=
  {| region := "all"; timePeriod := "all"; answerTypes := [] |}.

(** [array.includes(x)] on strings *)
Definition arrayIncludes (l : list string) (x : string) : bool :=
  existsb (String.eqb x) l.

(** [getFilteredQuestions(category)]; [questions] is [state.questions]
    and [questionMetadata] is [state.questionMetadata], both as lookups
    by key. *)
Definition getFilteredQuestions
           (questions : string -> option (list Question))
           (questionMetadata : string -> option Meta)
           (activeFilters : ActiveFilters) (category : string)
  : list Question :=
  match questions category with
  | None => []
  | Some categoryQuestions =>
      filter
        (fun q =>
           match questionMetadata (id q) with
           | None => true
           | Some meta =>
               if negb (String.eqb (region activeFilters) "all")
                  && negb (arrayIncludes (regions meta) (region activeFilters))
               then false
               else if negb (String.eqb (timePeriod activeFilters) "all")
                       && negb (arrayIncludes (time_periods meta)
                                              (timePeriod activeFilters))
               then false
               else if Nat.ltb 0 (List.length (answerTypes activeFilters))
                       && negb (arrayIncludes (answerTypes activeFilters)
                                              (answer_type meta))
               then false
               else true
           end)
        categoryQuestions
  end.

(** [hasFilters] of [updateFilterDisplay] *)
Definition hasFilters (activeFilters : ActiveFilters) : bool :=
  Nat.ltb 0 (List.length (answerTypes activeFilters))
  || negb (String.eqb (region activeFilters) "all")
  || negb (String.eqb (timePeriod activeFilters) "all").

(** The handlers that change [state.activeFilters]; [value] is the
    value of the control the handler reads. *)
Definition onRegionFilterChange (value : string) (f : ActiveFilters)
  : ActiveFilters :=
  {| region := value; timePeriod := timePeriod f;
     answerTypes := answerTypes f |}.

Definition onTimePeriodFilterChange (value : string) (f : ActiveFilters)
  : ActiveFilters :=
  {| region := region f; timePeriod := value;
     answerTypes := answerTypes f |}.

Definition onAnswerTypeFilterChange (value : string) (f : ActiveFilters)
  : ActiveFilters :=
  if String.eqb value "all" then
    {| region := region f; timePeriod := timePeriod f; answerTypes := [] |}
  else if negb (arrayIncludes (answerTypes f) value) then
    {| region := region f; timePeriod := timePeriod f;
       answerTypes := (answerTypes f ++ [value])%list |}
  else f.

Definition clearRegionFilter (f : ActiveFilters) : ActiveFilters :=
  {| region := "all"; timePeriod := timePeriod f;
     answerTypes := answerTypes f |}.

Definition clearTimePeriodFilter (f : ActiveFilters) : ActiveFilters :=
  {| region := region f; timePeriod := "all";
     answerTypes := answerTypes f |}.

Definition removeQuestionType (type : string) (f : ActiveFilters)
  : ActiveFilters :=
  {| region := region f; timePeriod := timePeriod f;
     answerTypes :=
       filter (fun t => negb (String.eqb t type)) (answerTypes f) |}.

Definition removeFilter (type : string) (f : ActiveFilters) : ActiveFilters :=
  if String.eqb type "region" then clearRegionFilter f
  else if String.eqb type "timePeriod" then clearTimePeriodFilter f
  else f.

(** [updateRegionFilterState]: the region filter is switched off for
    the question sets of US history. *)
Definition updateRegionFilterState (questionSet : string) (f : ActiveFilters)
  : ActiveFilters :=
  if prefix "us_" questionSet then clearRegionFilter f else f.

(** What the user can do to the filters. *)
Inductive Change : Type :=
| RegionChange (value : string)
| TimePeriodChange (value : string)
| AnswerTypeChange (value : string)
| ClearRegion
| ClearTimePeriod
| RemoveType (type : string)
| RemoveFilter (type : string)
| ClearAll
| QuestionSetChange (questionSet : string).

Definition apply (f : ActiveFilters) (c : Change) : ActiveFilters :=
  match c with
  | RegionChange value => onRegionFilterChange value f
  | TimePeriodChange value => onTimePeriodFilterChange value f
  | AnswerTypeChange value => onAnswerTypeFilterChange value f
  | ClearRegion => clearRegionFilter f
  | ClearTimePeriod => clearTimePeriodFilter f
  | RemoveType type => removeQuestionType type f
  | RemoveFilter type => removeFilter type f
  | ClearAll => clearAllFilters
  | QuestionSetChange questionSet =>
      updateRegionFilterState questionSet clearAllFilters
  end.

End Filters.

(** ** Statistics of the dashboard ([dashboard.js]) *)

Module Counts.

Record t : Type := {
  total : nat;
  correct : nat;
  incorrect : nat;
  skipped : nat
}.

Definition zero : t :=
  {| total := 0; correct := 0; incorrect := 0; skipped := 0 |}.

End Counts.

Module Dashboard.

Import History.

(** [getFilteredHistoryForDashboard] *)
Definition getFilteredHistoryForDashboard (dashboardQuestionSet : string)
           (questionHistory : list entry) : list entry :=
  if String.eqb dashboardQuestionSet "all" then questionHistory
  else filter (fun entry => String.eqb (questionSet entry) dashboardQuestionSet)
              questionHistory.

Record Stats : Type := {
  total : nat;
  correct : nat;
  incorrect : nat;
  skipped : nat;
  currentStreak : nat;
  bestStreak : nat;
  byDifficulty : list (string * Counts.t)
}.

(** [stats.byDifficulty[difficultyKey].total++] followed by
    [stats.byDifficulty[difficultyKey][entry.status]++]; a status that
    names none of the four counters leaves them as they are. *)
Definition count (status : string) (c : Counts.t) : Counts.t :=
  let c :=
    {| Counts.total := S (Counts.total c);
       Counts.correct := Counts.correct c;
       Counts.incorrect := Counts.incorrect c;
       Counts.skipped := Counts.skipped c |} in
  if String.eqb status "total" then
    {| Counts.total := S (Counts.total c);
       Counts.correct := Counts.correct c;
       Counts.incorrect := Counts.incorrect c;
       Counts.skipped := Counts.skipped c |}
  else if String.eqb status "correct" then
    {| Counts.total := Counts.total c;
       Counts.correct := S (Counts.correct c);
       Counts.incorrect := Counts.incorrect c;
       Counts.skipped := Counts.skipped c |}
  else if String.eqb status "incorrect" then
    {| Counts.total := Counts.total c;
       Counts.correct := Counts.correct c;
       Counts.incorrect := S (Counts.incorrect c);
       Counts.skipped := Counts.skipped c |}
  else if String.eqb status "skipped" then
    {| Counts.total := Counts.total c;
       Counts.correct := Counts.correct c;
       Counts.incorrect := Counts.incorrect c;
       Counts.skipped := S (Counts.skipped c) |}
  else c.

Fixpoint countAt (key status : string) (table : list (string * Counts.t))
  : list (string * Counts.t) :=
  match table with
  | [] => []
  | (k, c) :: rest =>
      if String.eqb key k then (k, count status c) :: rest
      else (k, c) :: countAt key status rest
  end.

(** The body of [filteredHistory.forEach]; the two numbers carried
    beside the statistics are the local variables [currentStreak] and
    [bestStreak]. *)
Definition tally (acc : Stats * nat * nat) (entry : History.entry)
  : Stats * nat * nat :=
  let '(stats, currentStreak', bestStreak') := acc in
  let '(correct', incorrect', skipped', currentStreak', bestStreak') :=
    if String.eqb (status entry) "correct" then
      (S (correct stats), incorrect stats, skipped stats,
       S currentStreak', Nat.max bestStreak' (S currentStreak'))
    else if String.eqb (status entry) "incorrect" then
      (correct stats, S (incorrect stats), skipped stats, 0, bestStreak')
    else
      (correct stats, incorrect stats, S (skipped stats),
       currentStreak', bestStreak') in
  ({| total := total stats;
      correct := correct';
      incorrect := incorrect';
      skipped := skipped';
      currentStreak := currentStreak stats;
      bestStreak := bestStreak stats;
      byDifficulty :=
        countAt (charAt0 (id entry)) (status entry) (byDifficulty stats) |},
   currentStreak', bestStreak').

(** The loop from the end of the history that counts the correct
    answers it ends with; [fromEnd] is the history, latest entry
    first. *)
Fixpoint correctFromEnd (fromEnd : list History.entry) : nat :=
  match fromEnd with
  | entry :: earlier =>
      if String.eqb (status entry) "correct" then S (correctFromEnd earlier)
      else 0
  | [] => 0
  end.

Definition calculateStats (dashboardQuestionSet : string)
           (questionHistory : list History.entry) : Stats :=
  let filteredHistory :=
    getFilteredHistoryForDashboard dashboardQuestionSet questionHistory in
  let stats :=
    {| total := List.length filteredHistory;
       correct := 0; incorrect := 0; skipped := 0;
       currentStreak := 0; bestStreak := 0;
       byDifficulty :=
         [("P", Counts.zero); ("Q", Counts.zero);
          ("S", Counts.zero); ("F", Counts.zero)] |} in
  let '(stats, _, bestStreak') := fold_left tally filteredHistory (stats, 0, 0) in
  {| total := total stats;
     correct := correct stats;
     incorrect := incorrect stats;
     skipped := skipped stats;
     currentStreak := currentStreak stats + correctFromEnd (rev filteredHistory);
     bestStreak := bestStreak';
     byDifficulty := byDifficulty stats |}.

End Dashboard.

(** ** A practice session ([game.js])

    The handlers of [game.js] as functions on the state they share:
    the fields of [state.js], the parts of the page they write, and
    the repeating timers of the window.  Reading [innerHTML] gives the
    browser's serialization of the markup that was assigned, which
    need not be the assigned string: it is the parameter [serialized].
    The text of [#answerText] and of the statistics is not followed. *)

Module Game.

Import Questions.

(** The variables of a closure [addNextChar]: the one [streamText]
    makes, or the one [resumeQuestion] makes ([resumed]), which has no
    callback and hides the pause button at the end. *)
Record Closure : Type := {
  text : string;
  displayText : string;
  lastCharTime : Z;
  resumed : bool
}.

Record State : Type := {
  currentQuestion : option Question;
  streamingInterval : option nat;    (* the handle [setInterval] returned *)
  isPaused : bool;
  currentCharIndex : nat;
  currentSection : string;
  answerInputShown : bool;
  questionsPracticed : nat;
  questionHistory : list History.entry;
  sessionHistory : list History.entry;
  questionText : string;    (* markup last given to [#questionText] *)
  answerInputSections : nat;    (* elements [#answerInputSection] in the page *)
  pauseHidden : bool;    (* [#pauseButton] has the class [hidden] *)
  pauseLabel : string;    (* text of [#pauseButton] *)
  startHidden : bool;
  nextHidden : bool;
  buzzerShown : bool;    (* [#buzzerButton] has the class [show] *)
  hintHidden : bool;    (* [#spacebarHint] has the class [hidden] *)
  alerts : list string;    (* messages shown by [alert], latest first *)
  intervals : list (nat * Closure);    (* the repeating timers that are set *)
  nextHandle : nat    (* handles are positive and not used twice *)
}.

(** Assignments to one field. *)
Definition set_currentQuestion (v : option Question) (st : State) : State :=
  {| currentQuestion := v; streamingInterval := streamingInterval st;
     isPaused := isPaused st; currentCharIndex := currentCharIndex st;
     currentSection := currentSection st;
     answerInputShown := answerInputShown st;
     questionsPracticed := questionsPracticed st;
     questionHistory := questionHistory st;
     sessionHistory := sessionHistory st; questionText := questionText st;
     answerInputSections := answerInputSections st;
     pauseHidden := pauseHidden st; pauseLabel := pauseLabel st;
     startHidden := startHidden st; nextHidden := nextHidden st;
     buzzerShown := buzzerShown st; hintHidden := hintHidden st;
     alerts := alerts st; intervals := intervals st;
     nextHandle := nextHandle st |}.

Definition set_streamingInterval (v : option nat) (st : State) : State :=
  {| currentQuestion := currentQuestion st; streamingInterval := v;
     isPaused := isPaused st; currentCharIndex := currentCharIndex st;
     currentSection := currentSection st;
     answerInputShown := answerInputShown st;
     questionsPracticed := questionsPracticed st;
     questionHistory := questionHistory st;
     sessionHistory := sessionHistory st; questionText := questionText st;
     answerInputSections := answerInputSections st;
     pauseHidden := pauseHidden st; pauseLabel := pauseLabel st;
     startHidden := startHidden st; nextHidden := nextHidden st;
     buzzerShown := buzzerShown st; hintHidden := hintHidden st;
     alerts := alerts st; intervals := intervals st;
     nextHandle := nextHandle st |}.

Definition set_isPaused (v : bool) (st : State) : State :=
  {| currentQuestion := currentQuestion st;
     streamingInterval := streamingInterval st; isPaused := v;
     currentCharIndex := currentCharIndex st;
     currentSection := currentSection st;
     answerInputShown := answerInputShown st;
     questionsPracticed := questionsPracticed st;
     questionHistory := questionHistory st;
     sessionHistory := sessionHistory st; questionText := questionText st;
     answerInputSections := answerInputSections st;
     pauseHidden := pauseHidden st; pauseLabel := pauseLabel st;
     startHidden := startHidden st; nextHidden := nextHidden st;
     buzzerShown := buzzerShown st; hintHidden := hintHidden st;
     alerts := alerts st; intervals := intervals st;
     nextHandle := nextHandle st |}.

Definition set_currentCharIndex (v : nat) (st : State) : State :=
  {| currentQuestion := currentQuestion st;
     streamingInterval := streamingInterval st; isPaused := isPaused st;
     currentCharIndex := v; currentSection := currentSection st;
     answerInputShown := answerInputShown st;
     questionsPracticed := questionsPracticed st;
     questionHistory := questionHistory st;
     sessionHistory := sessionHistory st; questionText := questionText st;
     answerInputSections := answerInputSections st;
     pauseHidden := pauseHidden st; pauseLabel := pauseLabel st;
     startHidden := startHidden st; nextHidden := nextHidden st;
     buzzerShown := buzzerShown st; hintHidden := hintHidden st;
     alerts := alerts st; intervals := intervals st;
     nextHandle := nextHandle st |}.

Definition set_currentSection (v : string) (st : State) : State :=
  {| currentQuestion := currentQuestion st;
     streamingInterval := streamingInterval st; isPaused := isPaused st;
     currentCharIndex := currentCharIndex st; currentSection := v;
     answerInputShown := answerInputShown st;
     questionsPracticed := questionsPracticed st;
     questionHistory := questionHistory st;
     sessionHistory := sessionHistory st; questionText := questionText st;
     answerInputSections := answerInputSections st;
     pauseHidden := pauseHidden st; pauseLabel := pauseLabel st;
     startHidden := startHidden st; nextHidden := nextHidden st;
     buzzerShown := buzzerShown st; hintHidden := hintHidden st;
     alerts := alerts st; intervals := intervals st;
     nextHandle := nextHandle st |}.

Definition set_answerInputShown (v : bool) (st : State) : State :=
  {| currentQuestion := currentQuestion st;
     streamingInterval := streamingInterval st; isPaused := isPaused st;
     currentCharIndex := currentCharIndex st;
     currentSection := currentSection st; answerInputShown := v;
     questionsPracticed := questionsPracticed st;
     questionHistory := questionHistory st;
     sessionHistory := sessionHistory st; questionText := questionText st;
     answerInputSections := answerInputSections st;
     pauseHidden := pauseHidden st; pauseLabel := pauseLabel st;
     startHidden := startHidden st; nextHidden := nextHidden st;
     buzzerShown := buzzerShown st; hintHidden := hintHidden st;
     alerts := alerts st; intervals := intervals st;
     nextHandle := nextHandle st |}.

Definition set_questionsPracticed (v : nat) (st : State) : State :=
  {| currentQuestion := currentQuestion st;
     streamingInterval := streamingInterval st; isPaused := isPaused st;
     currentCharIndex := currentCharIndex st;
     currentSection := currentSection st;
     answerInputShown := answerInputShown st; questionsPracticed := v;
     questionHistory := questionHistory st;
     sessionHistory := sessionHistory st; questionText := questionText st;
     answerInputSections := answerInputSections st;
     pauseHidden := pauseHidden st; pauseLabel := pauseLabel st;
     startHidden := startHidden st; nextHidden := nextHidden st;
     buzzerShown := buzzerShown st; hintHidden := hintHidden st;
     alerts := alerts st; intervals := intervals st;
     nextHandle := nextHandle st |}.

Definition set_questionHistory (v : list History.entry) (st : State) : State :=
  {| currentQuestion := currentQuestion st;
     streamingInterval := streamingInterval st; isPaused := isPaused st;
     currentCharIndex := currentCharIndex st;
     currentSection := currentSection st;
     answerInputShown := answerInputShown st;
     questionsPracticed := questionsPracticed st; questionHistory := v;
     sessionHistory := sessionHistory st; questionText := questionText st;
     answerInputSections := answerInputSections st;
     pauseHidden := pauseHidden st; pauseLabel := pauseLabel st;
     startHidden := startHidden st; nextHidden := nextHidden st;
     buzzerShown := buzzerShown st; hintHidden := hintHidden st;
     alerts := alerts st; intervals := intervals st;
     nextHandle := nextHandle st |}.

Definition set_sessionHistory (v : list History.entry) (st : State) : State :=
  {| currentQuestion := currentQuestion st;
     streamingInterval := streamingInterval st; isPaused := isPaused st;
     currentCharIndex := currentCharIndex st;
     currentSection := currentSection st;
     answerInputShown := answerInputShown st;
     questionsPracticed := questionsPracticed st;
     questionHistory := questionHistory st; sessionHistory := v;
     questionText := questionText st;
     answerInputSections := answerInputSections st;
     pauseHidden := pauseHidden st; pauseLabel := pauseLabel st;
     startHidden := startHidden st; nextHidden := nextHidden st;
     buzzerShown := buzzerShown st; hintHidden := hintHidden st;
     alerts := alerts st; intervals := intervals st;
     nextHandle := nextHandle st |}.

Definition set_questionText (v : string) (st : State) : State :=
  {| currentQuestion := currentQuestion st;
     streamingInterval := streamingInterval st; isPaused := isPaused st;
     currentCharIndex := currentCharIndex st;
     currentSection := currentSection st;
     answerInputShown := answerInputShown st;
     questionsPracticed := questionsPracticed st;
     questionHistory := questionHistory st;
     sessionHistory := sessionHistory st; questionText := v;
     answerInputSections := answerInputSections st;
     pauseHidden := pauseHidden st; pauseLabel := pauseLabel st;
     startHidden := startHidden st; nextHidden := nextHidden st;
     buzzerShown := buzzerShown st; hintHidden := hintHidden st;
     alerts := alerts st; intervals := intervals st;
     nextHandle := nextHandle st |}.

Definition set_answerInputSections (v : nat) (st : State) : State :=
  {| currentQuestion := currentQuestion st;
     streamingInterval := streamingInterval st; isPaused := isPaused st;
     currentCharIndex := currentCharIndex st;
     currentSection := currentSection st;
     answerInputShown := answerInputShown st;
     questionsPracticed := questionsPracticed st;
     questionHistory := questionHistory st;
     sessionHistory := sessionHistory st; questionText := questionText st;
     answerInputSections := v; pauseHidden := pauseHidden st;
     pauseLabel := pauseLabel st; startHidden := startHidden st;
     nextHidden := nextHidden st; buzzerShown := buzzerShown st;
     hintHidden := hintHidden st; alerts := alerts st;
     intervals := intervals st; nextHandle := nextHandle st |}.

Definition set_pauseHidden (v : bool) (st : State) : State :=
  {| currentQuestion := currentQuestion st;
     streamingInterval := streamingInterval st; isPaused := isPaused st;
     currentCharIndex := currentCharIndex st;
     currentSection := currentSection st;
     answerInputShown := answerInputShown st;
     questionsPracticed := questionsPracticed st;
     questionHistory := questionHistory st;
     sessionHistory := sessionHistory st; questionText := questionText st;
     answerInputSections := answerInputSections st; pauseHidden := v;
     pauseLabel := pauseLabel st; startHidden := startHidden st;
     nextHidden := nextHidden st; buzzerShown := buzzerShown st;
     hintHidden := hintHidden st; alerts := alerts st;
     intervals := intervals st; nextHandle := nextHandle st |}.

Definition set_pauseLabel (v : string) (st : State) : State :=
  {| currentQuestion := currentQuestion st;
     streamingInterval := streamingInterval st; isPaused := isPaused st;
     currentCharIndex := currentCharIndex st;
     currentSection := currentSection st;
     answerInputShown := answerInputShown st;
     questionsPracticed := questionsPracticed st;
     questionHistory := questionHistory st;
     sessionHistory := sessionHistory st; questionText := questionText st;
     answerInputSections := answerInputSections st;
     pauseHidden := pauseHidden st; pauseLabel := v;
     startHidden := startHidden st; nextHidden := nextHidden st;
     buzzerShown := buzzerShown st; hintHidden := hintHidden st;
     alerts := alerts st; intervals := intervals st;
     nextHandle := nextHandle st |}.

Definition set_startHidden (v : bool) (st : State) : State :=
  {| currentQuestion := currentQuestion st;
     streamingInterval := streamingInterval st; isPaused := isPaused st;
     currentCharIndex := currentCharIndex st;
     currentSection := currentSection st;
     answerInputShown := answerInputShown st;
     questionsPracticed := questionsPracticed st;
     questionHistory := questionHistory st;
     sessionHistory := sessionHistory st; questionText := questionText st;
     answerInputSections := answerInputSections st;
     pauseHidden := pauseHidden st; pauseLabel := pauseLabel st;
     startHidden := v; nextHidden := nextHidden st;
     buzzerShown := buzzerShown st; hintHidden := hintHidden st;
     alerts := alerts st; intervals := intervals st;
     nextHandle := nextHandle st |}.

Definition set_nextHidden (v : bool) (st : State) : State :=
  {| currentQuestion := currentQuestion st;
     streamingInterval := streamingInterval st; isPaused := isPaused st;
     currentCharIndex := currentCharIndex st;
     currentSection := currentSection st;
     answerInputShown := answerInputShown st;
     questionsPracticed := questionsPracticed st;
     questionHistory := questionHistory st;
     sessionHistory := sessionHistory st; questionText := questionText st;
     answerInputSections := answerInputSections st;
     pauseHidden := pauseHidden st; pauseLabel := pauseLabel st;
     startHidden := startHidden st; nextHidden := v;
     buzzerShown := buzzerShown st; hintHidden := hintHidden st;
     alerts := alerts st; intervals := intervals st;
     nextHandle := nextHandle st |}.

Definition set_buzzerShown (v : bool) (st : State) : State :=
  {| currentQuestion := currentQuestion st;
     streamingInterval := streamingInterval st; isPaused := isPaused st;
     currentCharIndex := currentCharIndex st;
     currentSection := currentSection st;
     answerInputShown := answerInputShown st;
     questionsPracticed := questionsPracticed st;
     questionHistory := questionHistory st;
     sessionHistory := sessionHistory st; questionText := questionText st;
     answerInputSections := answerInputSections st;
     pauseHidden := pauseHidden st; pauseLabel := pauseLabel st;
     startHidden := startHidden st; nextHidden := nextHidden st;
     buzzerShown := v; hintHidden := hintHidden st; alerts := alerts st;
     intervals := intervals st; nextHandle := nextHandle st |}.

Definition set_hintHidden (v : bool) (st : State) : State :=
  {| currentQuestion := currentQuestion st;
     streamingInterval := streamingInterval st; isPaused := isPaused st;
     currentCharIndex := currentCharIndex st;
     currentSection := currentSection st;
     answerInputShown := answerInputShown st;
     questionsPracticed := questionsPracticed st;
     questionHistory := questionHistory st;
     sessionHistory := sessionHistory st; questionText := questionText st;
     answerInputSections := answerInputSections st;
     pauseHidden := pauseHidden st; pauseLabel := pauseLabel st;
     startHidden := startHidden st; nextHidden := nextHidden st;
     buzzerShown := buzzerShown st; hintHidden := v; alerts := alerts st;
     intervals := intervals st; nextHandle := nextHandle st |}.

Definition set_alerts (v : list string) (st : State) : State :=
  {| currentQuestion := currentQuestion st;
     streamingInterval := streamingInterval st; isPaused := isPaused st;
     currentCharIndex := currentCharIndex st;
     currentSection := currentSection st;
     answerInputShown := answerInputShown st;
     questionsPracticed := questionsPracticed st;
     questionHistory := questionHistory st;
     sessionHistory := sessionHistory st; questionText := questionText st;
     answerInputSections := answerInputSections st;
     pauseHidden := pauseHidden st; pauseLabel := pauseLabel st;
     startHidden := startHidden st; nextHidden := nextHidden st;
     buzzerShown := buzzerShown st; hintHidden := hintHidden st; alerts := v;
     intervals := intervals st; nextHandle := nextHandle st |}.

Definition set_intervals (v : list (nat * Closure)) (st : State) : State :=
  {| currentQuestion := currentQuestion st;
     streamingInterval := streamingInterval st; isPaused := isPaused st;
     currentCharIndex := currentCharIndex st;
     currentSection := currentSection st;
     answerInputShown := answerInputShown st;
     questionsPracticed := questionsPracticed st;
     questionHistory := questionHistory st;
     sessionHistory := sessionHistory st; questionText := questionText st;
     answerInputSections := answerInputSections st;
     pauseHidden := pauseHidden st; pauseLabel := pauseLabel st;
     startHidden := startHidden st; nextHidden := nextHidden st;
     buzzerShown := buzzerShown st; hintHidden := hintHidden st;
     alerts := alerts st; intervals := v; nextHandle := nextHandle st |}.

Definition set_nextHandle (v : nat) (st : State) : State :=
  {| currentQuestion := currentQuestion st;
     streamingInterval := streamingInterval st; isPaused := isPaused st;
     currentCharIndex := currentCharIndex st;
     currentSection := currentSection st;
     answerInputShown := answerInputShown st;
     questionsPracticed := questionsPracticed st;
     questionHistory := questionHistory st;
     sessionHistory := sessionHistory st; questionText := questionText st;
     answerInputSections := answerInputSections st;
     pauseHidden := pauseHidden st; pauseLabel := pauseLabel st;
     startHidden := startHidden st; nextHidden := nextHidden st;
     buzzerShown := buzzerShown st; hintHidden := hintHidden st;
     alerts := alerts st; intervals := intervals st; nextHandle := v |}.

(** What [getRandomQuestion] reads: the questions, their metadata and
    the filters, the chosen category, and the index drawn by
    [Math.floor(Math.random() * categoryQuestions.length)]. *)
Record Draw : Type := {
  questions : string -> option (list Question);
  questionMetadata : string -> option Meta;
  activeFilters : Filters.ActiveFilters;
  category : string;
  randomIndex : nat
}.

Definition getRandomQuestion (d : Draw) : option Question :=
  let categoryQuestions :=
    Filters.getFilteredQuestions (questions d) (questionMetadata d)
      (activeFilters d) (category d) in
  if Nat.eqb (List.length categoryQuestions) 0 then None
  else nth_error categoryQuestions (randomIndex d).

Definition buzzMarker : string :=
  "<span class=" ++ quote ++ "buzz-marker" ++ quote ++ ">(#)</span>".

(** [clearInterval(handle)]; nothing happens for [null] or for a handle
    whose timer is gone. *)
Definition clearInterval (handle : option nat) (st : State) : State :=
  match handle with
  | Some h =>
      set_intervals
        (filter (fun timer => negb (Nat.eqb (fst timer) h)) (intervals st))
        st
  | None => st
  end.

(** [state.streamingInterval = setInterval(addNextChar, 10)] *)
Definition setInterval (c : Closure) (st : State) : State :=
  let handle := nextHandle st in
  let st := set_intervals (intervals st ++ [(handle, c)])%list st in
  let st := set_nextHandle (S handle) st in
  set_streamingInterval (Some handle) st.

(** An assignment to a variable of the closure of the timer [handle]. *)
Definition store (handle : nat) (c : Closure) (st : State) : State :=
  set_intervals
    (map (fun timer =>
            if Nat.eqb (fst timer) handle then (handle, c) else timer)
         (intervals st))
    st.

Fixpoint closureOf (handle : nat) (timers : list (nat * Closure))
  : option Closure :=
  match timers with
  | [] => None
  | (h, c) :: rest =>
      if Nat.eqb h handle then Some c else closureOf handle rest
  end.

(** [document.getElementById('answerInputSection')] and, when it is
    found, [remove()]. *)
Definition removeInputSection (st : State) : State :=
  set_answerInputSections (Nat.pred (answerInputSections st)) st.

(** [deps.addToHistory(question, status)], up to its first [await]. *)
Definition addToHistory (q : Question) (status : string) (now : Z)
           (questionSet : string) (st : State) : State :=
  let historyEntry :=
    {| History.id := id q;
       History.question := question q;
       History.answer := answer q;
       History.status := status;
       History.timestamp := now;
       History.questionSet := questionSet |} in
  let st := set_questionHistory (questionHistory st ++ [historyEntry])%list st in
  set_sessionHistory (sessionHistory st ++ [historyEntry])%list st.

Section Page.

(** What reading [innerHTML] returns after the given markup was
    assigned. *)
Variable serialized : string -> string.

(** [detectDeviceType() === 'mobile'] *)
Variable isMobile : bool.

(** [removeCursor(questionText)] *)
Definition removeCursor (st : State) : State :=
  let html := serialized (questionText st) in
  set_questionText (Stream.removeCursor html) st.

Definition updateBuzzerVisibility (st : State) : State :=
  let isStreaming :=
    match currentQuestion st with Some _ => true | None => false end
    && negb (answerInputShown st)
    && String.eqb (currentSection st) "question" in
  if isMobile && isStreaming then
    set_hintHidden true (set_buzzerShown true st)
  else if negb isMobile && isStreaming then
    set_hintHidden false (set_buzzerShown false st)
  else
    set_hintHidden true (set_buzzerShown false st).

Definition showAnswerInput (st : State) : State :=
  if answerInputShown st then st
  else
    let st := set_answerInputShown true st in
    let st := set_isPaused true st in
    let st := clearInterval (streamingInterval st) st in
    let st := removeCursor st in
    let st :=
      match currentQuestion st with
      | Some q =>
          if Nat.ltb (currentCharIndex st) (length (question q)) then
            set_questionText (serialized (questionText st) ++ buzzMarker) st
          else st
      | None => st
      end in
    let st := updateBuzzerVisibility st in
    set_answerInputSections (S (answerInputSections st)) st.

(** [now - lastCharTime < currentSpeed], false when the speed is not
    a number. *)
Definition tooEarly (now : Z) (speed : option Z) (last : Z) : bool :=
  match speed with
  | Some v => Z.ltb (now - last) (110 - v)
  | None => false
  end.

(** One call of the closure [c] of the timer [handle]. *)
Definition addNextChar (handle : nat) (c : Closure) (now : Z)
           (speed : option Z) (st : State) : State :=
  if isPaused st then st
  else if tooEarly now speed (lastCharTime c) then st
  else
    let c :=
      {| text := text c; displayText := displayText c;
         lastCharTime := now; resumed := resumed c |} in
    let st := store handle c st in
    if Nat.leb (length (text c)) (currentCharIndex st) then
      let st := clearInterval (streamingInterval st) st in
      let st := set_questionText (displayText c) st in
      if resumed c then
        let st := set_pauseHidden true st in
        updateBuzzerVisibility st
      else
        let st := updateBuzzerVisibility st in
        if answerInputShown st then st else showAnswerInput st
    else
      let (chunk, next) := Stream.emit (text c) (currentCharIndex st) in
      let c :=
        {| text := text c; displayText := displayText c ++ chunk;
           lastCharTime := lastCharTime c; resumed := resumed c |} in
      let st := store handle c st in
      let st := set_currentCharIndex next st in
      set_questionText (displayText c ++ cursor) st.

(** [streamText(text, questionText, callback)] with the callback that
    [displayQuestion] passes. *)
Definition streamText (text : string) (now : Z) (st : State) : State :=
  let st :=
    match streamingInterval st with
    | Some handle =>
        set_streamingInterval None (clearInterval (Some handle) st)
    | None => st
    end in
  let st := removeCursor st in
  let st := set_currentCharIndex 0 st in
  setInterval
    {| text := text; displayText := ""; lastCharTime := now;
       resumed := false |}
    st.

Definition displayQuestion (d : Draw) (now : Z) (st : State) : State :=
  let st := clearInterval (streamingInterval st) st in
  let st := set_streamingInterval None st in
  let st := removeInputSection st in
  let st := set_currentQuestion (getRandomQuestion d) st in
  match currentQuestion st with
  | None =>
      set_alerts ("No questions available in this category!" :: alerts st) st
  | Some q =>
      let st := set_questionsPracticed (S (questionsPracticed st)) st in
      let st := removeCursor st in
      let st := set_questionText "" st in
      let st := set_pauseHidden false st in
      let st := set_pauseLabel "Pause" st in
      let st := set_currentSection "question" st in
      let st := set_isPaused false st in
      let st := set_answerInputShown false st in
      let st := set_currentCharIndex 0 st in
      let st := updateBuzzerVisibility st in
      streamText (question q) now st
  end.

(** [checkAnswer]; [value] is the content of the input [#userAnswer],
    which exists inside the answer input section only. *)
Definition checkAnswer (value : string) (answerTolerance : Z) (now : Z)
           (questionSet : string) (st : State) : State :=
  if Nat.eqb (answerInputSections st) 0 then st
  else if String.eqb (trim value) "" then
    set_alerts ("Please enter an answer!" :: alerts st) st
  else
    match currentQuestion st with
    | None => st
    | Some q =>
        let isCorrect := isCorrect (trim value) (answer q) answerTolerance in
        let st :=
          addToHistory q (if isCorrect then "correct" else "incorrect")
            now questionSet st in
        let st := removeInputSection st in
        let st := clearInterval (streamingInterval st) st in
        let st := removeCursor st in
        let st := set_questionText (question q) st in
        let st := set_pauseHidden true st in
        let st := set_currentSection "answer" st in
        let st := set_answerInputShown false st in
        updateBuzzerVisibility st
    end.

Definition resumeQuestion (now : Z) (st : State) : State :=
  let st := removeInputSection st in
  let st := set_answerInputShown false st in
  let st := set_isPaused false st in
  let st := updateBuzzerVisibility st in
  let st :=
    match streamingInterval st with
    | Some handle =>
        set_streamingInterval None (clearInterval (Some handle) st)
    | None => st
    end in
  match currentQuestion st with
  | None => st
  | Some q =>
      let st := removeCursor st in
      setInterval
        {| text := question q; displayText := serialized (questionText st);
           lastCharTime := now; resumed := true |}
        st
  end.

Definition showAnswer (now : Z) (questionSet : string) (st : State)
  : State :=
  let st :=
    match currentQuestion st with
    | Some q => addToHistory q "skipped" now questionSet st
    | None => st
    end in
  let st := set_pauseHidden true st in
  let st := set_currentSection "answer" st in
  let st := set_isPaused false st in
  match currentQuestion st with
  | None => st
  | Some _ => updateBuzzerVisibility st
  end.

Definition revealAnswer (now : Z) (questionSet : string) (st : State)
  : State :=
  let st := removeInputSection st in
  let st := clearInterval (streamingInterval st) st in
  let st := removeCursor st in
  match currentQuestion st with
  | None => st
  | Some q =>
      let st := set_questionText (question q) st in
      showAnswer now questionSet st
  end.

Definition handleStart (d : Draw) (now : Z) (st : State) : State :=
  let st := set_startHidden true st in
  let st := set_nextHidden false st in
  let st := set_pauseHidden false st in
  displayQuestion d now st.

Definition handleNext (d : Draw) (now : Z) (st : State) : State :=
  displayQuestion d now st.

Definition handlePauseResume (now : Z) (st : State) : State :=
  match currentQuestion st with
  | None => st
  | Some _ =>
      let st := set_isPaused (negb (isPaused st)) st in
      if isPaused st then
        let st := set_pauseLabel "Resume" st in
        clearInterval (streamingInterval st) st
      else
        let st := set_pauseLabel "Pause" st in
        resumeQuestion now st
  end.

(** The three [keydown] listeners of [initGameEventListeners], in the
    order they were added. *)
Definition inField (tagName : string) : bool :=
  String.eqb tagName "INPUT" || String.eqb tagName "TEXTAREA".

Definition hasQuestion (st : State) : bool :=
  match currentQuestion st with Some _ => true | None => false end.

Definition onSpace (code tagName : string) (st : State) : State :=
  if String.eqb code "Space" && hasQuestion st
     && negb (answerInputShown st) && negb (inField tagName)
  then showAnswerInput st
  else st.

Definition onStartKey (key tagName : string) (d : Draw) (now : Z)
           (st : State) : State :=
  if inField tagName then st
  else if String.eqb (toLowerCase key) "s" then
    if hasQuestion st then handleNext d now st else handleStart d now st
  else st.

Definition onPauseNextKey (key tagName : string) (d : Draw) (now : Z)
           (st : State) : State :=
  if inField tagName then st
  else if negb (hasQuestion st) || answerInputShown st then st
  else if String.eqb (toLowerCase key) "p" then handlePauseResume now st
  else if String.eqb (toLowerCase key) "n" then handleNext d now st
  else st.

Definition keydown (code key tagName : string) (d : Draw) (now : Z)
           (st : State) : State :=
  let st := onSpace code tagName st in
  let st := onStartKey key tagName d now st in
  onPauseNextKey key tagName d now st.

(** What can happen during a session. *)
Inductive Event : Type :=
| ClickStart (d : Draw) (now : Z)
| ClickNext (d : Draw) (now : Z)
| ClickPause (now : Z)
| ClickBuzzer
| Submit (value : string) (answerTolerance : Z) (now : Z)
         (questionSet : string)
| ClickReveal (now : Z) (questionSet : string)
| KeyDown (code key tagName : string) (d : Draw) (now : Z)
| Tick (handle : nat) (now : Z) (speed : option Z)
| Resize.

Definition step (st : State) (e : Event) : State :=
  match e with
  | ClickStart d now => handleStart d now st
  | ClickNext d now => handleNext d now st
  | ClickPause now => handlePauseResume now st
  | ClickBuzzer => showAnswerInput st
  | Submit value answerTolerance now questionSet =>
      checkAnswer value answerTolerance now questionSet st
  | ClickReveal now questionSet => revealAnswer now questionSet st
  | KeyDown code key tagName d now => keydown code key tagName d now st
  | Tick handle now speed =>
      match closureOf handle (intervals st) with
      | Some c => addNextChar handle c now speed st
      | None => st
      end
  | Resize => updateBuzzerVisibility st
  end.

Definition session (st : State) (events : list Event) : State :=
  fold_left step events st.

End Page.

(** The state of [state.js] in a page that was just loaded: no
    question yet, no timer, no answer input. *)
Definition loaded (st : State) : Prop :=
  currentQuestion st = None
  /\ streamingInterval st = None
  /\ isPaused st = false
  /\ currentCharIndex st = 0
  /\ currentSection st = "question"
  /\ answerInputShown st = false
  /\ questionsPracticed st = 0
  /\ questionHistory st = []
  /\ sessionHistory st = []
  /\ answerInputSections st = 0
  /\ intervals st = []
  /\ 0 < nextHandle st.

(** A page that was just loaded, as far as the model follows it. *)
Definition page (html : string) : State :=
  {| currentQuestion := None;
     streamingInterval := None;
     isPaused := false;
     currentCharIndex := 0;
     currentSection := "question";
     answerInputShown := false;
     questionsPracticed := 0;
     questionHistory := [];
     sessionHistory := [];
     questionText := html;
     answerInputSections := 0;
     pauseHidden := true;
     pauseLabel := "Pause";
     startHidden := false;
     nextHidden := true;
     buzzerShown := false;
     hintHidden := true;
     alerts := [];
     intervals := [];
     nextHandle := 1 |}.

(** The calls of the timer [handle] at the given times and speeds. *)
Definition ticks (handle : nat) (es : list (Z * option Z)) : list Event :=
  map (fun e => Tick handle (fst e) (snd e)) es.

(** The number of calls in a schedule that are not too early, [last]
    being the time of the last call that was not. *)
Fixpoint firings (last : Z) (es : list (Z * option Z)) : nat :=
  match es with
  | [] => 0
  | (now, speed) :: es' =>
      if tooEarly now speed last then firings last es'
      else S (firings now es')
  end.

(** What holds of the state throughout a session. *)
Definition consistent (st : State) : Prop :=
  (intervals st = []
   \/ exists handle c,
        intervals st = [(handle, c)] /\ streamingInterval st = Some handle)
  /\ answerInputSections st <= 1
  /\ (answerInputSections st = 1 -> answerInputShown st = true)
  /\ (answerInputShown st = true ->
      intervals st = [] /\ buzzerShown st = false)
  /\ match currentQuestion st with
     | Some q =>
         currentCharIndex st <= length (question q)
         /\ ~ insideTag (question q) (currentCharIndex st)
         /\ (forall handle c,
               In (handle, c) (intervals st) -> text c = question q)
     | None => intervals st = []
     end.

End Game.

(** * Properties *)

(** ** Strings *)

Lemma append_nil_r (s : string) : s ++ "" = s.
Proof. induction s as [|c s IH]; simpl; congruence. Qed.

Lemma append_assoc (s1 s2 s3 : string) : (s1 ++ s2) ++ s3 = s1 ++ s2 ++ s3.
Proof. induction s1 as [|c s1 IH]; simpl; congruence. Qed.

Lemma length_append (s1 s2 : string) :
  length (s1 ++ s2) = length s1 + length s2.
Proof. induction s1 as [|c s1 IH]; simpl; congruence. Qed.

Lemma length_zero (s : string) : length s = 0 -> s = "".
Proof. destruct s; simpl; [reflexivity | discriminate]. Qed.

Lemma prefix_iff (p s : string) :
  prefix p s = true <-> exists post, s = p ++ post.
Proof.
  revert s; induction p as [|c p IH]; intros s; simpl.
  - split; [intros _; now exists s | now destruct s].
  - destruct s as [|d s]; simpl.
    + split; [discriminate | intros [post H]; discriminate H].
    + destruct (ascii_dec c d) as [->|ne].
      * rewrite IH. split; intros [post H]; exists post; congruence.
      * split; [discriminate | intros [post H]; congruence].
Qed.

Lemma index0_iff (p s : string) :
  index 0 p s <> None <-> isSubstring p s.
Proof.
  unfold isSubstring. induction s as [|b s IH].
  - simpl. destruct p as [|c p]; split.
    + intros _. now exists "", "".
    + discriminate.
    + intros H; now elim H.
    + intros [[|d pre] [post H]]; simpl in H; discriminate H.
  - cbn [index]. destruct (prefix p (String b s)) eqn:P.
    + split; [|discriminate]. intros _.
      apply prefix_iff in P. destruct P as [post P].
      exists "", post. exact P.
    + destruct (index 0 p s) as [n|] eqn:I.
      * split; [|discriminate]. intros _.
        destruct IH as [IH _]. destruct IH as (pre & post & H); [discriminate|].
        exists (String b pre), post. simpl. now rewrite H.
      * split; [intros H; now elim H|].
        intros ([|d pre] & post & H); simpl in H.
        -- assert (prefix p (String b s) = true) as Q
             by (apply prefix_iff; now exists post).
           congruence.
        -- injection H as _ H. destruct IH as [_ IH].
           elim IH; [now exists pre, post | reflexivity].
Qed.

Lemma includes_iff (s sub : string) :
  includes s sub = true <-> isSubstring sub s.
Proof.
  rewrite <- index0_iff. unfold includes.
  destruct (index 0 sub s); split; congruence.
Qed.

Lemma includes_empty (s : string) : includes s "" = true.
Proof. apply includes_iff. exists "", s. reflexivity. Qed.

(** ** The judgement of [checkAnswer] *)

Lemma matchesCandidate_iff (normUser : string) (tolerance : float)
      (c : string) :
  matchesCandidate normUser tolerance c = true
  <-> specMatch normUser (normalizeAnswer c) tolerance.
Proof.
  unfold matchesCandidate, specMatch.
  destruct (String.eqb_spec normUser (normalizeAnswer c)) as [E|NE].
  - split; auto.
  - rewrite <- !includes_iff.
    destruct (includes (normalizeAnswer c) normUser) eqn:I1; simpl.
    + split; auto.
    + destruct (includes normUser (normalizeAnswer c)) eqn:I2; simpl.
      * split; auto.
      * split; [auto|]. intros [H|[[H|H]|H]]; congruence.
Qed.

Lemma anyCandidate_iff (normUser : string) (tolerance : float)
      (cs : list string) :
  anyCandidate normUser tolerance cs = true
  <-> exists c, In c cs /\ specMatch normUser (normalizeAnswer c) tolerance.
Proof.
  induction cs as [|c cs IH]; simpl.
  - split; [discriminate | intros (c & [] & _)].
  - destruct (matchesCandidate normUser tolerance c) eqn:M.
    + split; [intros _|reflexivity].
      exists c. split; [now left | now apply matchesCandidate_iff].
    + rewrite IH. split.
      * intros (d & I & H). exists d. split; [now right | exact H].
      * intros (d & [->|I] & H).
        -- apply matchesCandidate_iff in H. congruence.
        -- now exists d.
Qed.

(** C1.  For a tolerance in [0,100], [checkAnswer] judges the answer
    correct exactly when some extracted candidate, normalized, passes
    one of the three tests (equality, substring either way, similarity
    at least tolerance/100) or, no candidate passing, the normalized
    whole answer field passes one of them. *)
Theorem isCorrect_iff (userAnswer correctAnswer : string) (t : Z) :
  (0 <= t <= 100)%Z ->
  let tolerance := (numZ t / 100)%float in
  let normUser := normalizeAnswer userAnswer in
  let candidateMatch :=
    exists c, In c (extractAcceptableAnswers correctAnswer)
              /\ specMatch normUser (normalizeAnswer c) tolerance in
  isCorrect userAnswer correctAnswer t = true
  <-> candidateMatch
      \/ (~ candidateMatch
          /\ specMatch normUser (normalizeAnswer correctAnswer) tolerance).
Proof.
  intros _ tolerance normUser candidateMatch.
  unfold isCorrect. fold tolerance normUser.
  pose proof (anyCandidate_iff normUser tolerance
                (extractAcceptableAnswers correctAnswer)) as A.
  fold candidateMatch in A.
  destruct (anyCandidate normUser tolerance
              (extractAcceptableAnswers correctAnswer)) eqn:L; cbn [negb].
  - split; [intros _; left; now apply A | reflexivity].
  - assert (~ candidateMatch) as N by (intros H; apply A in H; discriminate H).
    unfold specMatch. rewrite <- !includes_iff.
    destruct (PrimFloat.leb tolerance
                (calculateSimilarity normUser (normalizeAnswer correctAnswer)))
      eqn:S.
    + split; [intros _; right; auto | reflexivity].
    + destruct (includes (normalizeAnswer correctAnswer) normUser) eqn:I1;
        cbn [orb].
      * split; [intros _; right; auto | reflexivity].
      * destruct (includes normUser (normalizeAnswer correctAnswer)) eqn:I2;
          cbn [orb].
        -- split; [intros _; right; auto | reflexivity].
        -- destruct (String.eqb_spec normUser (normalizeAnswer correctAnswer))
             as [E|NE].
           ++ split; [intros _; right; auto | reflexivity].
           ++ split; [discriminate|].
              intros [H|[_ [H|[[H|H]|H]]]]; [now elim N | congruence ..].
Qed.

Lemma isCorrect_iff_witness :
  let field :=
    "<strong>Duke of Wellington</strong> (accept Arthur Wellesley)" in
  let tolerance := (numZ 80 / 100)%float in
  let normUser := normalizeAnswer "Arthur Wellesley" in
  let candidateMatch :=
    exists c, In c (extractAcceptableAnswers field)
              /\ specMatch normUser (normalizeAnswer c) tolerance in
  isCorrect "Arthur Wellesley" field 80 = true
  <-> candidateMatch
      \/ (~ candidateMatch
          /\ specMatch normUser (normalizeAnswer field) tolerance).
Proof.
  apply (isCorrect_iff "Arthur Wellesley"
           "<strong>Duke of Wellington</strong> (accept Arthur Wellesley)" 80).
  lia.
Defined.

Lemma checkAnswer_judges (value correctAnswer : string) (t : Z) :
  trim value <> "" ->
  checkAnswer value correctAnswer t
  = Some (isCorrect (trim value) correctAnswer t).
Proof.
  intros NB. unfold checkAnswer.
  destruct (String.eqb_spec (trim value) ""); [contradiction | reflexivity].
Qed.

Lemma anyCandidate_empty_user (tolerance : float) (cs : list string) :
  cs <> [] -> anyCandidate "" tolerance cs = true.
Proof.
  destruct cs as [|c cs]; [congruence|]. intros _. simpl.
  unfold matchesCandidate.
  destruct (String.eqb "" (normalizeAnswer c)); [reflexivity|].
  now rewrite includes_empty.
Qed.

(** C10.  A non-blank answer whose normalization is empty is judged
    correct whatever the answer field and the tolerance are: the empty
    string is a substring of every normalized candidate and of the
    normalized whole field. *)
Theorem empty_normalization_accepted (value correctAnswer : string) (t : Z) :
  trim value <> "" ->
  normalizeAnswer (trim value) = "" ->
  checkAnswer value correctAnswer t = Some true.
Proof.
  intros NB E. rewrite (checkAnswer_judges _ _ _ NB). f_equal.
  unfold isCorrect. rewrite E.
  destruct (extractAcceptableAnswers correctAnswer) as [|c cs] eqn:X.
  - cbn [anyCandidate negb]. rewrite includes_empty. cbn [orb].
    now destruct (PrimFloat.leb _ _).
  - rewrite anyCandidate_empty_user by discriminate. reflexivity.
Qed.

Lemma empty_normalization_accepted_witness :
  checkAnswer " of the " "<strong>Napoleon</strong> (accept Bonaparte)" 100
  = Some true.
Proof.
  apply (empty_normalization_accepted
           " of the " "<strong>Napoleon</strong> (accept Bonaparte)" 100).
  - vm_compute. discriminate.
  - vm_compute. reflexivity.
Defined.

(** ** The worked examples of the specification *)

Lemma wellington_examples :
  isCorrect "Duke of Wellington"
    "<strong>Duke of Wellington</strong> (accept Arthur Wellesley)" 80 = true
  /\ isCorrect "Arthur Wellesley"
       "<strong>Duke of Wellington</strong> (accept Arthur Wellesley)" 80 = true
  /\ isCorrect "Napoleon" "<strong>Duke of Wellington</strong>" 80 = false.
Proof. repeat split; vm_compute; reflexivity. Qed.

Lemma wellingtun_candidates :
  extractAcceptableAnswers "<strong>Duke of Wellington</strong>"
  = ["Duke of Wellington"]
  /\ normalizeAnswer "Duke of Wellington" = "duke wellington"
  /\ normalizeAnswer "Wellingtun" = "wellingtun"
  /\ levenshteinDistance "wellingtun" "duke wellington" = 6.
Proof. repeat split; vm_compute; reflexivity. Qed.

Lemma percent_range (P : Z -> bool) :
  forallb P (map Z.of_nat (seq 0 101)) = true ->
  forall t, (0 <= t <= 100)%Z -> P t = true.
Proof.
  intros H t R. rewrite forallb_forall in H. apply H.
  apply in_map_iff. exists (Z.to_nat t). split; [lia|].
  apply in_seq. lia.
Qed.

(** C2 (as the code has it).  "Wellingtun" against
    "<strong>Duke of Wellington</strong>" is judged incorrect at
    tolerance 80 and at tolerance 99: the only candidate normalizes to
    the 15 characters "duke wellington", at distance 6, similarity 0.6;
    over the tolerances 0..100 the answer is accepted exactly up to 60. *)
Theorem wellingtun_rejected :
  isCorrect "Wellingtun" "<strong>Duke of Wellington</strong>" 80 = false
  /\ isCorrect "Wellingtun" "<strong>Duke of Wellington</strong>" 99 = false
  /\ forall t, (0 <= t <= 100)%Z ->
       isCorrect "Wellingtun" "<strong>Duke of Wellington</strong>" t
       = Z.leb t 60.
Proof.
  split; [vm_compute; reflexivity|].
  split; [vm_compute; reflexivity|].
  intros t R.
  apply (percent_range
           (fun t => Bool.eqb
              (isCorrect "Wellingtun" "<strong>Duke of Wellington</strong>" t)
              (Z.leb t 60))) in R.
  - now apply Bool.eqb_prop in R.
  - vm_compute. reflexivity.
Qed.

(** C2, counterexample: the first half of the example fails. *)
Lemma wellingtun_not_accepted_at_80 :
  ~ (isCorrect "Wellingtun" "<strong>Duke of Wellington</strong>" 80 = true
     /\ isCorrect "Wellingtun" "<strong>Duke of Wellington</strong>" 99
        = false).
Proof. intros [H _]. vm_compute in H. discriminate H. Qed.

(** ** Candidate extraction *)

Lemma existsb_eqb_In (x : string) (l : list string) :
  existsb (String.eqb x) l = true <-> In x l.
Proof.
  rewrite existsb_exists. split.
  - intros (y & I & E). apply String.eqb_eq in E. now subst.
  - intros I. exists x. split; [exact I | apply String.eqb_refl].
Qed.

Lemma setOf_ext (s1 s2 l : list string) :
  (forall y, In y s1 <-> In y s2) -> setOf s1 l = setOf s2 l.
Proof.
  revert s1 s2; induction l as [|x l IH]; intros s1 s2 E; simpl;
    [reflexivity|].
  assert (existsb (String.eqb x) s1 = existsb (String.eqb x) s2) as ->.
  { apply eq_true_iff_eq. rewrite !existsb_eqb_In. apply E. }
  destruct (existsb (String.eqb x) s2); [now apply IH|].
  f_equal. apply IH. intros y. simpl. now rewrite E.
Qed.

Lemma setOf_app (seen a b : list string) :
  setOf seen (a ++ b) = (setOf seen a ++ setOf (a ++ seen) b)%list.
Proof.
  revert seen; induction a as [|x a IH]; intros seen; simpl; [reflexivity|].
  destruct (existsb (String.eqb x) seen) eqn:E.
  - rewrite IH. f_equal. apply setOf_ext. intros y.
    apply existsb_eqb_In in E. simpl. rewrite !in_app_iff.
    split; [tauto|]. intros [->|H]; tauto.
  - simpl. rewrite IH. do 2 f_equal. apply setOf_ext. intros y.
    simpl. rewrite !in_app_iff. simpl. tauto.
Qed.

Lemma setOf_In (seen l : list string) (x : string) :
  In x (setOf seen l) <-> In x l /\ ~ In x seen.
Proof.
  revert seen; induction l as [|y l IH]; intros seen; simpl; [tauto|].
  destruct (existsb (String.eqb y) seen) eqn:E.
  - apply existsb_eqb_In in E. rewrite IH. split; [tauto|].
    intros [[->|H] N]; tauto.
  - assert (~ In y seen) as N
        by (rewrite <- existsb_eqb_In; congruence).
    simpl. rewrite IH. simpl. split.
    + intros [->|[H1 H2]]; tauto.
    + intros [[->|H] M]; [now left|].
      destruct (string_dec y x) as [->|D]; [now left | right; tauto].
Qed.

Lemma setOf_NoDup (seen l : list string) : NoDup (setOf seen l).
Proof.
  revert seen; induction l as [|y l IH]; intros seen; simpl; [constructor|].
  destruct (existsb (String.eqb y) seen); [apply IH|].
  constructor; [|apply IH]. rewrite setOf_In. simpl. tauto.
Qed.

Lemma setOf_nil_iff (l : list string) : setOf [] l = [] <-> l = [].
Proof.
  destruct l as [|x l]; simpl; split; congruence.
Qed.

(** Elements of the result keep the order of their first occurrences. *)
Lemma setOf_order (seen l : list string) (i j : nat) (x y : string) :
  nth_error (setOf seen l) i = Some x ->
  nth_error (setOf seen l) j = Some y ->
  i < j ->
  firstIndex x l < firstIndex y l.
Proof.
  revert seen i j; induction l as [|a l IH]; intros seen i j; simpl.
  - destruct i; discriminate.
  - destruct (existsb (String.eqb a) seen) eqn:E.
    + intros Hx Hy L.
      assert (In x (setOf seen l)) as Ix by (eapply nth_error_In; eauto).
      assert (In y (setOf seen l)) as Iy by (eapply nth_error_In; eauto).
      apply setOf_In in Ix, Iy. apply existsb_eqb_In in E.
      destruct (String.eqb_spec x a) as [->|]; [tauto|].
      destruct (String.eqb_spec y a) as [->|]; [tauto|].
      apply -> Nat.succ_lt_mono. eapply IH; eauto.
    + intros Hx Hy L. destruct j as [|j]; [lia|]. simpl in Hy.
      assert (In y (setOf (a :: seen) l)) as Iy by (eapply nth_error_In; eauto).
      apply setOf_In in Iy. simpl in Iy.
      destruct (String.eqb_spec y a) as [->|]; [tauto|].
      destruct i as [|i]; simpl in Hx.
      * injection Hx as ->. rewrite String.eqb_refl. lia.
      * assert (In x (setOf (a :: seen) l)) as Ix
            by (eapply nth_error_In; eauto).
        apply setOf_In in Ix. simpl in Ix.
        destruct (String.eqb_spec x a) as [->|]; [tauto|].
        apply -> Nat.succ_lt_mono. eapply IH; eauto. lia.
Qed.

Lemma extract_collected (s : string) :
  extractAcceptableAnswers s = setOf [] (collected s).
Proof. reflexivity. Qed.

(** C4 (as the code has it).  The result is empty exactly when no
    strong span and no accept clause gives a candidate of more than one
    character and the text before the first parenthesis, markup removed
    and trimmed, has at most one character. *)
Theorem extract_empty_iff (s : string) :
  extractAcceptableAnswers s = []
  <-> strongCandidates s = []
      /\ acceptCandidates s = []
      /\ length (trim (replaceAll false reTag ""
                         (splitHead false reParen s))) <= 1.
Proof.
  rewrite extract_collected, setOf_nil_iff. unfold collected, primaryCandidate.
  set (p := trim (replaceAll false reTag "" (splitHead false reParen s))).
  unfold longEnough. destruct (Nat.ltb_spec 1 (length p)) as [L|L].
  - split.
    + intros H. apply app_eq_nil in H. destruct H as [_ H].
      apply app_eq_nil in H. destruct H as [_ H]. discriminate H.
    + intros (_ & _ & H). lia.
  - split.
    + intros H. apply app_eq_nil in H. destruct H as [H1 H].
      apply app_eq_nil in H. destruct H as [H2 _]. auto.
    + intros (-> & -> & _). reflexivity.
Qed.

(** C4, counterexample: an answer field that is neither empty nor
    entirely markup and has no candidate. *)
Lemma extract_empty_on_parenthesized :
  extractAcceptableAnswers "(Wellington)" = []
  /\ "(Wellington)" <> ""
  /\ ~ entirelyMarkup "(Wellington)".
Proof.
  split; [vm_compute; reflexivity|].
  split; [discriminate|].
  unfold entirelyMarkup. vm_compute. discriminate.
Qed.

(** C5 (as the code has it).  The result lists the strong spans first,
    then the accept clauses not already listed, then the primary answer
    when it is new, and holds no string twice. *)
Theorem extract_order (s : string) :
  exists l1 l2 l3,
    extractAcceptableAnswers s = (l1 ++ l2 ++ l3)%list
    /\ (forall x, In x l1 <-> In x (strongCandidates s))
    /\ (forall x, In x l2 <->
                  In x (acceptCandidates s) /\ ~ In x (strongCandidates s))
    /\ (forall x, In x l3 <->
                  In x (primaryCandidate s)
                  /\ ~ In x (strongCandidates s)
                  /\ ~ In x (acceptCandidates s))
    /\ NoDup (extractAcceptableAnswers s).
Proof.
  exists (setOf [] (strongCandidates s)),
         (setOf (strongCandidates s ++ []) (acceptCandidates s)),
         (setOf (acceptCandidates s ++ strongCandidates s ++ [])
                (primaryCandidate s)).
  split; [|split; [|split; [|split]]].
  - rewrite extract_collected. unfold collected. now rewrite !setOf_app.
  - intros x. rewrite setOf_In. simpl. tauto.
  - intros x. rewrite setOf_In, app_nil_r. tauto.
  - intros x. rewrite setOf_In, app_nil_r, in_app_iff. tauto.
  - apply setOf_NoDup.
Qed.

(** C5, counterexample: the primary answer comes last, not first. *)
Lemma primary_is_last :
  let field :=
    "Arthur Wellesley, <strong>Duke of Wellington</strong> (accept Wellesley)"
  in
  extractAcceptableAnswers field
  = ["Duke of Wellington"; "Wellesley";
     "Arthur Wellesley, Duke of Wellington"]
  /\ primaryCandidate field = ["Arthur Wellesley, Duke of Wellington"]
  /\ extractAcceptableAnswers field <> claimedOrder field.
Proof.
  split; [vm_compute; reflexivity|].
  split; [vm_compute; reflexivity|].
  vm_compute. discriminate.
Qed.

(** C6 (as the code has it).  The result holds no string twice, holds
    exactly the collected candidates, and lists them in the order of
    their first occurrences. *)
Theorem extract_first_seen (s : string) :
  NoDup (extractAcceptableAnswers s)
  /\ (forall x, In x (extractAcceptableAnswers s) <-> In x (collected s))
  /\ (forall i j x y,
         nth_error (extractAcceptableAnswers s) i = Some x ->
         nth_error (extractAcceptableAnswers s) j = Some y ->
         i < j ->
         firstIndex x (collected s) < firstIndex y (collected s)).
Proof.
  rewrite extract_collected. split; [apply setOf_NoDup|]. split.
  - intros x. rewrite setOf_In. simpl. tauto.
  - intros i j x y. apply setOf_order.
Qed.

(** C6, counterexample: two entries with the same normalization. *)
Lemma normalized_duplicates :
  let field := "<strong>Duke</strong> (accept duke)" in
  extractAcceptableAnswers field = ["Duke"; "duke"]
  /\ ~ NoDup (map normalizeAnswer (extractAcceptableAnswers field)).
Proof.
  split; [vm_compute; reflexivity|].
  intros H. vm_compute in H. inversion H as [|x l N _]. apply N. now left.
Qed.

(** ** The streaming reveal *)


Lemma get_lt (s : string) (i : nat) (c : ascii) :
  get i s = Some c -> i < length s.
Proof.
  revert i; induction s as [|d s IH]; intros [|i]; simpl; try discriminate.
  - lia.
  - intros H. apply IH in H. lia.
Qed.

Lemma get_some (s : string) (i : nat) :
  i < length s -> exists c, get i s = Some c.
Proof.
  revert i; induction s as [|d s IH]; intros [|i]; simpl; try lia.
  - now exists d.
  - intros H. apply IH. lia.
Qed.

Lemma skip_get (s : string) (i : nat) (c : ascii) :
  get i s = Some c -> skip i s = String c (skip (S i) s).
Proof.
  revert i; induction s as [|d s IH]; intros [|i]; simpl; try discriminate.
  - intros [= ->]. now destruct s.
  - intros H. now rewrite (IH _ H).
Qed.

Lemma skip_all (s : string) (i : nat) : length s <= i -> skip i s = "".
Proof.
  revert i; induction s as [|d s IH]; intros [|i]; simpl; try reflexivity;
    try lia.
  intros H. apply IH. lia.
Qed.

Lemma skip_append (s r : string) : skip (length s) (s ++ r) = r.
Proof. induction s as [|d s IH]; simpl; [now destruct r | exact IH]. Qed.

Lemma substring_skip (s : string) (i k : nat) :
  i + k <= length s -> skip i s = substring i k s ++ skip (i + k) s.
Proof.
  revert i k; induction s as [|d s IH]; intros i k; simpl.
  - intros H. assert (i = 0) as -> by lia. assert (k = 0) as -> by lia.
    reflexivity.
  - destruct i as [|i]; simpl.
    + destruct k as [|k]; simpl; [reflexivity|].
      intros H. f_equal.
      specialize (IH 0 k). simpl in IH. rewrite <- IH by lia. now destruct s.
    + intros H. apply IH. lia.
Qed.

Lemma substring_one (s : string) (i : nat) (c : ascii) :
  get i s = Some c -> substring i 1 s = String c "".
Proof.
  revert i; induction s as [|d s IH]; intros [|i]; simpl; try discriminate.
  - intros [= ->]. now destruct s.
  - apply IH.
Qed.

(** [index i c text] is [text.indexOf(c, i)] for a single character. *)
Lemma index_char_iff (c : ascii) (s : string) (i e : nat) :
  index i (String c "") s = Some e
  <-> i <= e /\ get e s = Some c
      /\ forall p, i <= p -> p < e -> get p s <> Some c.
Proof.
  revert i e; induction s as [|b s IH]; intros i e.
  - destruct i; simpl; (split; [discriminate|]); intros (_ & H & _);
      destruct e; discriminate H.
  - destruct i as [|i]; cbn [index prefix].
    + destruct (ascii_dec c b) as [->|NE].
      * replace (prefix "" s) with true by now destruct s.
        split.
        -- intros [= <-]. simpl. repeat split; [lia|]. intros p _ L. lia.
        -- intros (_ & G & M). destruct e as [|e]; [reflexivity|].
           exfalso. apply (M 0); [lia | lia | reflexivity].
      * specialize (IH 0). destruct (index 0 (String c "") s) as [n|] eqn:I.
        -- destruct (IH n) as [(_ & G & M) _]; [reflexivity|]. split.
           ++ intros [= <-]. simpl. repeat split; [lia | exact G |].
              intros [|p] _ L; simpl; [congruence | apply M; lia].
           ++ intros (_ & G' & M'). destruct e as [|e]; simpl in G';
                [congruence|]. do 2 f_equal.
              destruct (Nat.lt_trichotomy n e) as [L|[L|L]]; [|exact L|].
              ** exfalso. apply (M' (S n)); [lia | lia | exact G].
              ** exfalso. apply (M e); [lia | lia | exact G'].
        -- split; [discriminate|]. intros (_ & G & M).
           destruct e as [|e]; simpl in G; [congruence|].
           destruct (IH e) as [_ IH']. enough (None = Some e) by discriminate.
           apply IH'. repeat split; [lia | exact G |]. intros p _ L.
           apply (M (S p)); lia.
    + specialize (IH i). destruct (index i (String c "") s) as [n|] eqn:I.
      * destruct (IH n) as [(L0 & G & M) _]; [reflexivity|]. split.
        -- intros [= <-]. simpl. repeat split; [lia | exact G |].
           intros [|p] L1 L2; simpl; [lia | apply M; lia].
        -- intros (L1 & G' & M'). destruct e as [|e]; [lia|]. simpl in G'.
           do 2 f_equal.
           destruct (Nat.lt_trichotomy n e) as [L|[L|L]]; [|exact L|].
           ++ exfalso. apply (M' (S n)); [lia | lia | exact G].
           ++ exfalso. apply (M e); [lia | lia | exact G'].
      * split; [discriminate|]. intros (L1 & G & M).
        destruct e as [|e]; [lia|]. simpl in G.
        destruct (IH e) as [_ IH']. enough (None = Some e) by discriminate.
        apply IH'. repeat split; [lia | exact G |]. intros p L2 L3.
        apply (M (S p)); lia.
Qed.

(** What [emit] yields, case by case. *)
Lemma emit_cases (text : string) (i : nat) :
  i < length text ->
  (exists tagEnd,
      get i text = Some "<"%char /\ index i ">" text = Some tagEnd
      /\ i <= tagEnd < length text
      /\ emit text i = (substring i (tagEnd + 1 - i) text, tagEnd + 1))
  \/ (exists c,
         get i text = Some c
         /\ (c = "<"%char -> index i ">" text = None)
         /\ emit text i = (String c "", S i)).
Proof.
  intros L. destruct (get_some _ _ L) as [c G]. unfold emit. rewrite G.
  destruct (Ascii.eqb_spec c "<") as [->|NE].
  - destruct (index i ">" text) as [e|] eqn:I.
    + left. exists e. apply index_char_iff in I. destruct I as (L1 & G1 & _).
      apply get_lt in G1. repeat split; auto.
    + right. exists "<"%char. auto.
  - right. exists c. repeat split; auto. intros ->. now elim NE.
Qed.

(** The unit emitted is the text between the old and the new cursor. *)
Lemma emit_skip (text : string) (i : nat) :
  i < length text ->
  i < snd (emit text i) <= length text
  /\ skip i text = fst (emit text i) ++ skip (snd (emit text i)) text.
Proof.
  intros L. destruct (emit_cases text i L)
    as [(e & G & I & [L1 L2] & ->)|(c & G & _ & ->)]; simpl.
  - split; [lia|]. replace (e + 1) with (i + (e + 1 - i)) at 2 by lia.
    apply substring_skip. lia.
  - split; [lia|]. now apply skip_get.
Qed.


Lemma coherent_start (text html : string) (start : Z) :
  coherent text (streamText html start).
Proof. unfold coherent; simpl. repeat split; [lia | now left]. Qed.

Lemma tick_idle (text : string) (st : reveal) (e : env) :
  streamingInterval st = true ->
  fires e (lastCharTime st) = false ->
  tick text st e = st.
Proof.
  unfold tick, addNextChar, fires. intros -> F.
  destruct (isPaused e); [reflexivity|].
  destruct (tooEarly e (lastCharTime st)); [reflexivity | discriminate F].
Qed.

Lemma tick_stopped (text : string) (st : reveal) (e : env) :
  streamingInterval st = false -> tick text st e = st.
Proof. unfold tick. now intros ->. Qed.

Lemma tick_fires (text : string) (st : reveal) (e : env) :
  streamingInterval st = true ->
  fires e (lastCharTime st) = true ->
  tick text st e
  = if Nat.leb (length text) (currentCharIndex st) then
      {| displayText := displayText st;
         currentCharIndex := currentCharIndex st;
         lastCharTime := now e;
         streamingInterval := false;
         innerHTML := displayText st;
         callbacks := S (callbacks st) |}
    else
      {| displayText := displayText st ++ fst (emit text (currentCharIndex st));
         currentCharIndex := snd (emit text (currentCharIndex st));
         lastCharTime := now e;
         streamingInterval := true;
         innerHTML :=
           (displayText st ++ fst (emit text (currentCharIndex st))) ++ cursor;
         callbacks := callbacks st |}.
Proof.
  unfold tick, addNextChar, fires. intros A F. rewrite A.
  destruct (isPaused e); [discriminate F|].
  destruct (tooEarly e (lastCharTime st)); [discriminate F|].
  destruct (Nat.leb (length text) (currentCharIndex st)); [reflexivity|].
  now destruct (emit text (currentCharIndex st)).
Qed.

Lemma tick_coherent (text : string) (st : reveal) (e : env) :
  coherent text st -> coherent text (tick text st e).
Proof.
  intros C. destruct (streamingInterval st) eqn:A;
    [|now rewrite tick_stopped].
  destruct (fires e (lastCharTime st)) eqn:F; [|now rewrite tick_idle].
  rewrite tick_fires by assumption.
  destruct C as (D & L & [[_ K]|[A' _]]); [|congruence].
  destruct (Nat.leb_spec (length text) (currentCharIndex st)) as [G|G].
  - rewrite skip_all, append_nil_r in D by exact G.
    unfold coherent; simpl. rewrite skip_all, append_nil_r by exact G.
    split; [exact D|]. split; [exact L|]. right. rewrite K. auto.
  - destruct (emit_skip text _ G) as ([L1 L2] & S).
    unfold coherent; simpl. repeat split; [|exact L2|now left].
    rewrite append_assoc, <- S. exact D.
Qed.

Lemma run_coherent (text : string) (es : list env) (st : reveal) :
  coherent text st -> coherent text (run text st es).
Proof.
  revert st; induction es as [|e es IH]; intros st C; simpl; [exact C|].
  apply IH. now apply tick_coherent.
Qed.

Lemma run_stopped (text : string) (es : list env) (st : reveal) :
  streamingInterval st = false -> run text st es = st.
Proof.
  induction es as [|e es IH]; intros A; simpl; [reflexivity|].
  rewrite tick_stopped by exact A. now apply IH.
Qed.

(** Enough calls that pass the guards bring the reveal to its end. *)
Lemma run_completes (text : string) (es : list env) (st : reveal) :
  coherent text st ->
  streamingInterval st = true ->
  length text - currentCharIndex st < firings (lastCharTime st) es ->
  streamingInterval (run text st es) = false.
Proof.
  revert st; induction es as [|e es IH]; intros st C A F; simpl in *; [lia|].
  destruct (fires e (lastCharTime st)) eqn:Fi.
  - pose proof (tick_coherent text st e C) as C'.
    rewrite tick_fires in * by assumption.
    destruct (Nat.leb_spec (length text) (currentCharIndex st)) as [G|G].
    + now rewrite run_stopped.
    + apply IH; [exact C' | reflexivity |]. simpl.
      destruct (emit_skip text _ G) as ([L1 L2] & _). lia.
  - rewrite tick_idle by assumption. now apply IH.
Qed.

Lemma tick_extends (text : string) (st : reveal) (e : env) :
  coherent text st ->
  exists chunk,
    displayText (tick text st e) = displayText st ++ chunk
    /\ (chunk = "" <-> currentCharIndex (tick text st e) = currentCharIndex st).
Proof.
  intros C. destruct (streamingInterval st) eqn:A.
  - destruct (fires e (lastCharTime st)) eqn:F.
    + rewrite tick_fires by assumption.
      destruct (Nat.leb_spec (length text) (currentCharIndex st)) as [G|G];
        simpl.
      * exists "". now rewrite append_nil_r.
      * exists (fst (emit text (currentCharIndex st))). split; [reflexivity|].
        destruct (emit_skip text _ G) as ([L1 L2] & S).
        split; [|lia]. intros E. rewrite E in S. simpl in S.
        apply (f_equal length) in S.
        destruct C as (D & _). apply (f_equal length) in D.
        assert (forall k, k <= length text ->
                          length (skip k text) = length text - k) as SL.
        { clear. induction text as [|c t IH]; intros [|k]; simpl; try lia.
          intros H. apply IH. lia. }
        rewrite !SL in S by lia. lia.
    + rewrite tick_idle by assumption. exists "". now rewrite append_nil_r.
  - rewrite tick_stopped by assumption. exists "". now rewrite append_nil_r.
Qed.

Lemma concat_cons (x : string) (l : list string) :
  String.concat "" (x :: l) = x ++ String.concat "" l.
Proof. destruct l; simpl; [now rewrite append_nil_r | reflexivity]. Qed.

Lemma increments_concat (text : string) (es : list env) (st : reveal) :
  coherent text st ->
  displayText (run text st es)
  = displayText st ++ String.concat "" (increments text st es).
Proof.
  revert st; induction es as [|e es IH]; intros st C;
    cbn [run fold_left increments].
  - simpl. now rewrite append_nil_r.
  - pose proof (tick_coherent text st e C) as C'.
    destruct (tick_extends text st e C) as (chunk & D & _).
    fold (run text (tick text st e) es). rewrite (IH _ C'), D.
    rewrite length_append.
    destruct (Nat.eqb_spec (length (displayText st) + length chunk)
                           (length (displayText st))) as [E|E].
    + assert (chunk = "") as -> by (apply length_zero; lia).
      now rewrite append_nil_r.
    + rewrite concat_cons, skip_append. apply append_assoc.
Qed.

Lemma emit_outside (text : string) (i : nat) :
  i < length text ->
  ~ insideTag text i -> ~ insideTag text (snd (emit text i)).
Proof.
  intros L N (q & e2 & Gq & Iq & [Q1 Q2]).
  pose proof Iq as Iq'. apply index_char_iff in Iq'.
  destruct Iq' as (Lq & Ge2 & Mq).
  destruct (emit_cases text i L)
    as [(e & G & I & [L1 L2] & E)|(c & G & U & E)];
    rewrite E in Q1, Q2; simpl in Q1, Q2.
  - destruct (Nat.lt_ge_cases q i) as [B|B].
    + apply N. exists q, e2. repeat split; auto. lia.
    + apply index_char_iff in I. destruct I as (_ & Ge & _).
      apply (Mq e); [lia | lia | exact Ge].
  - destruct (Nat.lt_ge_cases q i) as [B|B].
    + apply N. exists q, e2. repeat split; auto. lia.
    + assert (q = i) as -> by lia.
      rewrite G in Gq. injection Gq as ->.
      rewrite U in Iq by reflexivity. discriminate Iq.
Qed.

Lemma tick_outside (text : string) (st : reveal) (e : env) :
  ~ insideTag text (currentCharIndex st) ->
  ~ insideTag text (currentCharIndex (tick text st e)).
Proof.
  intros N. destruct (streamingInterval st) eqn:A;
    [|now rewrite tick_stopped].
  destruct (fires e (lastCharTime st)) eqn:F; [|now rewrite tick_idle].
  rewrite tick_fires by assumption.
  destruct (Nat.leb_spec (length text) (currentCharIndex st)) as [G|G];
    simpl; [exact N|].
  now apply emit_outside.
Qed.

Lemma run_outside (text : string) (es : list env) (st : reveal) :
  ~ insideTag text (currentCharIndex st) ->
  ~ insideTag text (currentCharIndex (run text st es)).
Proof.
  revert st; induction es as [|e es IH]; intros st N; simpl; [exact N|].
  apply IH. now apply tick_outside.
Qed.

Lemma start_outside (text html : string) (start : Z) :
  ~ insideTag text (currentCharIndex (streamText html start)).
Proof. intros (q & e & _ & _ & [Q _]). simpl in Q. lia. Qed.

(** C8.  In every state a reveal reaches, the cursor is not strictly
    inside a tag.  A call of the timer callback that gets past its
    guards before the end of the text emits either a whole tag, from a
    ['<'] at the cursor through the next ['>'], leaving the cursor just
    after it, or the single character at the cursor, leaving the cursor
    one further; a ['<'] with no ['>'] after it is emitted as that
    single character.  Either way the cursor moves forward and stays
    within the text, and the sink shows what was emitted so far
    followed by the cursor marker. *)
Theorem cursor_advances (text html : string) (start : Z) (es : list env)
        (e : env) :
  let st := run text (streamText html start) es in
  let st' := tick text st e in
  let i := currentCharIndex st in
  ~ insideTag text i
  /\ (streamingInterval st = true ->
      fires e (lastCharTime st) = true ->
      i < length text ->
      ((exists tagEnd,
           get i text = Some "<"%char
           /\ index i ">" text = Some tagEnd
           /\ currentCharIndex st' = tagEnd + 1
           /\ displayText st'
              = displayText st ++ substring i (tagEnd + 1 - i) text)
       \/ (exists c,
              get i text = Some c
              /\ (c = "<"%char -> index i ">" text = None)
              /\ currentCharIndex st' = i + 1
              /\ displayText st' = displayText st ++ String c ""))
      /\ (get i text = Some "<"%char ->
          index i ">" text = None ->
          currentCharIndex st' = i + 1
          /\ displayText st' = displayText st ++ "<")
      /\ i < currentCharIndex st' <= length text
      /\ innerHTML st' = displayText st' ++ cursor).
Proof.
  intros st st' i. split.
  - apply run_outside, start_outside.
  - intros A F L. subst st'. rewrite tick_fires by assumption. fold i.
    destruct (Nat.leb_spec (length text) i) as [G|_]; [lia|]. simpl.
    destruct (emit_skip text i L) as (B & _).
    destruct (emit_cases text i L)
      as [(tagEnd & G & I & _ & E)|(c & G & U & E)]; rewrite E in *; simpl.
    + split; [left; exists tagEnd; auto|].
      split; [intros _ N; congruence|]. split; [exact B | reflexivity].
    + split; [right; exists c; repeat split; auto; lia|].
      split; [|split; [exact B | reflexivity]].
      intros G' _. rewrite G in G'. injection G' as ->.
      split; [lia | reflexivity].
Qed.

Lemma cursor_advances_witness :
  let text := "a <b>c</b> <" in
  let e := {| now := 30; speed := Some 100%Z; isPaused := false |} in
  let st := run text (streamText "" 0) (steady 2) in
  let st' := tick text st e in
  let i := currentCharIndex st in
  ((exists tagEnd,
       get i text = Some "<"%char
       /\ index i ">" text = Some tagEnd
       /\ currentCharIndex st' = tagEnd + 1
       /\ displayText st'
          = displayText st ++ substring i (tagEnd + 1 - i) text)
   \/ (exists c,
          get i text = Some c
          /\ (c = "<"%char -> index i ">" text = None)
          /\ currentCharIndex st' = i + 1
          /\ displayText st' = displayText st ++ String c ""))
  /\ (get i text = Some "<"%char ->
      index i ">" text = None ->
      currentCharIndex st' = i + 1
      /\ displayText st' = displayText st ++ "<")
  /\ i < currentCharIndex st' <= length text
  /\ innerHTML st' = displayText st' ++ cursor.
Proof.
  apply (proj2 (cursor_advances "a <b>c</b> <" "" 0 (steady 2)
                  {| now := 30; speed := Some 100%Z; isPaused := false |})).
  - reflexivity.
  - reflexivity.
  - vm_compute. lia.
Defined.

Lemma run_callbacks (text : string) (es : list env) (st : reveal) :
  coherent text st -> callbacks (run text st es) <= 1.
Proof.
  intros C. apply (run_coherent text es) in C.
  destruct C as (_ & _ & [[_ K]|(_ & K & _)]); lia.
Qed.

(** C9.  In a reveal that is never paused or interrupted the callback
    runs at most once, and once the timer is gone the whole text has
    been displayed: the increments emitted, in order, make up the text,
    the sink holds the text without the cursor marker, and the callback
    has run exactly once.  The timer is gone as soon as more calls have
    passed the pacing guard than the text has characters. *)
Theorem stream_completes (text html : string) (start : Z) (es : list env) :
  Forall (fun e => isPaused e = false) es ->
  let st := run text (streamText html start) es in
  callbacks st <= 1
  /\ (streamingInterval st = false ->
      displayText st = text
      /\ String.concat "" (increments text (streamText html start) es) = text
      /\ innerHTML st = text
      /\ callbacks st = 1)
  /\ (length text < firings start es -> streamingInterval st = false).
Proof.
  intros _ st.
  pose proof (coherent_start text html start) as C0.
  pose proof (run_coherent text es _ C0) as C. fold st in C.
  split; [now apply run_callbacks|]. split.
  - intros A. destruct C as (_ & _ & [[A' _]|(_ & K & H & D)]); [congruence|].
    repeat split; auto.
    pose proof (increments_concat text es _ C0) as I. fold st in I.
    simpl in I. congruence.
  - intros F. apply run_completes; [exact C0 | reflexivity |]. simpl. lia.
Qed.

Lemma stream_completes_witness :
  let st := run "The <b>battle</b> of Hastings" (streamText "" 0) (steady 40) in
  displayText st = "The <b>battle</b> of Hastings"
  /\ String.concat ""
       (increments "The <b>battle</b> of Hastings" (streamText "" 0)
          (steady 40))
     = "The <b>battle</b> of Hastings"
  /\ innerHTML st = "The <b>battle</b> of Hastings"
  /\ callbacks st = 1.
Proof.
  destruct (stream_completes "The <b>battle</b> of Hastings" "" 0 (steady 40))
    as (_ & H & F).
  - apply Forall_forall. intros e I. apply in_map_iff in I.
    destruct I as (k & <- & _). reflexivity.
  - apply H, F. vm_compute. lia.
Defined.

(** ** Normalization *)

Lemma toLowerChar_idem (c : ascii) :
  toLowerChar (toLowerChar c) = toLowerChar c.
Proof. destruct c as [[] [] [] [] [] [] [] []]; reflexivity. Qed.

Lemma every_toLowerCase (s : string) : every isLower (toLowerCase s) = true.
Proof.
  induction s as [|c s IH]; simpl; [reflexivity|]. rewrite IH.
  unfold isLower. now rewrite toLowerChar_idem, Ascii.eqb_refl.
Qed.

Lemma toLowerCase_fixed (s : string) :
  every isLower s = true -> toLowerCase s = s.
Proof.
  induction s as [|c s IH]; simpl; [reflexivity|].
  intros H. apply andb_prop in H. destruct H as [H1 H2].
  apply Ascii.eqb_eq in H1. now rewrite H1, IH.
Qed.

Lemma every_weaken (p q : ascii -> bool) (s : string) :
  (forall c, p c = true -> q c = true) ->
  every p s = true -> every q s = true.
Proof.
  intros W. induction s as [|c s IH]; simpl; [reflexivity|].
  intros H. apply andb_prop in H. destruct H as [H1 H2].
  now rewrite (W _ H1), IH.
Qed.

(** Removing matches leaves characters of the input. *)
Lemma every_replaceAllFrom (p : ascii -> bool) (i : bool) (re : regex)
      (s : string) (k : nat) (prev : option ascii) :
  every p s = true -> every p (replaceAllFrom i re "" k prev s) = true.
Proof.
  revert k prev; induction s as [|c s IH]; intros k prev H.
  - destruct k; simpl; [|reflexivity].
    now destruct (matchHere i re prev "") as [[|n]|].
  - simpl in H. apply andb_prop in H. destruct H as [H1 H2].
    destruct k; simpl; [|now apply IH].
    destruct (matchHere i re prev (String c s)) as [[|n]|]; simpl;
      rewrite ?H1; now apply IH.
Qed.

Lemma every_keep (p q : ascii -> bool) (s : string) :
  every p s = true -> every p (keep q s) = true.
Proof.
  induction s as [|c s IH]; simpl; [reflexivity|].
  intros H. apply andb_prop in H. destruct H as [H1 H2].
  destruct (q c); simpl; rewrite ?H1; now apply IH.
Qed.

Lemma every_keep_self (p : ascii -> bool) (s : string) :
  every p (keep p s) = true.
Proof.
  induction s as [|c s IH]; simpl; [reflexivity|].
  destruct (p c) eqn:P; simpl; rewrite ?P; exact IH.
Qed.

Lemma keep_fixed (p : ascii -> bool) (s : string) :
  every p s = true -> keep p s = s.
Proof.
  induction s as [|c s IH]; simpl; [reflexivity|].
  intros H. apply andb_prop in H. destruct H as [H1 H2].
  now rewrite H1, IH.
Qed.

Lemma every_trimStart (p : ascii -> bool) (s : string) :
  every p s = true -> every p (trimStart s) = true.
Proof.
  induction s as [|c s IH]; simpl; [reflexivity|].
  intros H. destruct (isSpace c); [|exact H].
  apply andb_prop in H. now apply IH.
Qed.

Lemma every_trimEnd (p : ascii -> bool) (s : string) :
  every p s = true -> every p (trimEnd s) = true.
Proof.
  induction s as [|c s IH]; simpl; [reflexivity|].
  intros H. apply andb_prop in H. destruct H as [H1 H2].
  specialize (IH H2). destruct (trimEnd s) as [|d r].
  - destruct (isSpace c); simpl; [reflexivity | now rewrite H1].
  - change (p c && every p (String d r) = true). now rewrite H1.
Qed.

Lemma every_squeeze (p : ascii -> bool) (b : bool) (s : string) :
  p " "%char = true -> every p s = true -> every p (squeeze b s) = true.
Proof.
  intros Sp. revert b; induction s as [|c s IH]; intros b; simpl;
    [reflexivity|].
  intros H. apply andb_prop in H. destruct H as [H1 H2].
  destruct (isSpace c); [destruct b|]; simpl; rewrite ?Sp, ?H1; now apply IH.
Qed.

(** The pattern-based steps as plain functions. *)

Lemma rePunct_keep (prev : option ascii) (s : string) :
  replaceAllFrom false rePunct "" 0 prev s
  = keep (fun c => negb (isPunct c)) s.
Proof.
  revert prev; induction s as [|c s IH]; intros prev; simpl; [reflexivity|].
  destruct (isPunct c); simpl; now rewrite IH.
Qed.

Lemma many_isSpace (prev : option ascii) (s : string) :
  many isSpace (fun _ _ => Some 0) prev s = Some (leading s).
Proof.
  revert prev; induction s as [|c s IH]; intros prev; simpl; [reflexivity|].
  destruct (isSpace c); [now rewrite IH | reflexivity].
Qed.

Lemma reSpaces_squeeze (s : string) (prev : option ascii) :
  replaceAllFrom false reSpaces " " (leading s) prev s = squeeze true s
  /\ replaceAllFrom false reSpaces " " 0 prev s = squeeze false s.
Proof.
  revert prev; induction s as [|c s IH]; intros prev; [now split|].
  cbn [leading squeeze]. destruct (isSpace c) eqn:W.
  - split.
    + cbn [replaceAllFrom]. apply IH.
    + cbn [replaceAllFrom reSpaces matchHere one]. rewrite W, many_isSpace.
      cbn [option_map]. simpl append. f_equal. apply IH.
  - assert (replaceAllFrom false reSpaces " " 0 prev (String c s)
            = String c (squeeze false s)) as E.
    { cbn [replaceAllFrom reSpaces matchHere one]. rewrite W.
      f_equal. apply IH. }
    now split.
Qed.

Lemma reTag_absent (prev : option ascii) (s : string) :
  every (isNot "<") s = true -> replaceAllFrom false reTag "" 0 prev s = s.
Proof.
  revert prev; induction s as [|c s IH]; intros prev; [reflexivity|].
  cbn [every]. intros H. apply andb_prop in H. destruct H as [H1 H2].
  cbn [replaceAllFrom reTag matchHere one]. unfold chEq.
  unfold isNot in H1. rewrite Ascii.eqb_sym.
  destruct (Ascii.eqb c "<"); [discriminate H1|].
  now rewrite IH.
Qed.

Lemma no_match_no_change (i : bool) (re : regex) (rep : string)
      (prev : option ascii) (s : string) :
  matchAllFrom i re 0 prev s = [] -> replaceAllFrom i re rep 0 prev s = s.
Proof.
  revert prev; induction s as [|c s IH]; intros prev; simpl.
  - now destruct (matchHere i re prev "").
  - destruct (matchHere i re prev (String c s)); [discriminate|].
    intros H. now rewrite IH.
Qed.

(** Trimmed and squeezed strings are tidy, and tidy strings are left
    alone by [trim] and by [squeeze]. *)

Lemma trimStart_head (s : string) :
  match trimStart s with
  | String c _ => isSpace c = false
  | EmptyString => True
  end.
Proof.
  induction s as [|c s IH]; simpl; [exact I|].
  destruct (isSpace c) eqn:W; [exact IH | exact W].
Qed.

Lemma trimEnd_shape (s : string) :
  endsNonSpace (trimEnd s) = true
  /\ match trimEnd s with
     | String c _ => first s = Some c
     | EmptyString => True
     end.
Proof.
  induction s as [|c s [IH _]]; simpl; [now split|].
  destruct (trimEnd s) as [|d r].
  - destruct (isSpace c) eqn:W; simpl; [now split | now rewrite W].
  - split; [exact IH | reflexivity].
Qed.

Lemma squeeze_tidy (s : string) :
  endsNonSpace s = true ->
  tidyFrom false (squeeze false s) = true
  /\ (s <> "" -> tidyFrom true (squeeze true s) = true).
Proof.
  induction s as [|c s IH]; [now split|].
  intros E. cbn [squeeze]. destruct (isSpace c) eqn:W.
  - destruct s as [|d s]; [simpl in E; rewrite W in E; discriminate E|].
    destruct (IH E) as [_ IH2].
    assert (tidyFrom true (squeeze true (String d s)) = true) as T
        by (apply IH2; discriminate).
    split; [|now intros _].
    cbn [tidyFrom]. now rewrite T.
  - assert (tidyFrom false (squeeze false s) = true) as T.
    { destruct s as [|d s]; [reflexivity|]. now apply IH. }
    cbn [tidyFrom]. rewrite W. now split.
Qed.

Lemma trim_squeeze_tidy (s : string) : tidy (squeeze false (trim s)) = true.
Proof.
  unfold trim. pose proof (trimStart_head s) as H.
  destruct (trimEnd_shape (trimStart s)) as [E F].
  destruct (trimEnd (trimStart s)) as [|c r] eqn:T; [reflexivity|].
  destruct (trimStart s) as [|c0 r0]; [discriminate T|].
  injection F as ->. cbn [squeeze]. rewrite H. cbn [tidy tidyFrom]. rewrite H.
  simpl in E. destruct r as [|d r]; [reflexivity|].
  now apply squeeze_tidy.
Qed.

Lemma tidyFrom_squeeze (a : bool) (s : string) :
  tidyFrom a s = true ->
  squeeze false s = s /\ (a = true -> squeeze true s = s).
Proof.
  revert a; induction s as [|c s IH]; intros a; [now split|].
  cbn [tidyFrom squeeze]. destruct (isSpace c) eqn:W.
  - intros H. apply andb_prop in H. destruct H as [H T].
    apply andb_prop in H. destruct H as [A C].
    apply Ascii.eqb_eq in C. subst c.
    destruct a; [discriminate A|].
    destruct (IH true T) as [_ IH2]. rewrite IH2 by reflexivity.
    split; [reflexivity | discriminate].
  - intros T. destruct (IH false T) as [IH1 _]. rewrite IH1. now split.
Qed.

Lemma tidyFrom_trimEnd (a : bool) (s : string) :
  tidyFrom a s = true -> trimEnd s = s.
Proof.
  revert a; induction s as [|c s IH]; intros a; [reflexivity|].
  cbn [tidyFrom trimEnd]. destruct (isSpace c) eqn:W.
  - intros H. apply andb_prop in H. destruct H as [_ T].
    rewrite (IH true T). destruct s; [discriminate T | reflexivity].
  - intros T. rewrite (IH false T). now destruct s.
Qed.

Lemma tidy_fixed (s : string) :
  tidy s = true -> trim s = s /\ squeeze false s = s.
Proof.
  destruct s as [|c s]; [now split|]. unfold tidy. intros T. split.
  - unfold trim.
    assert (trimStart (String c s) = String c s) as ->.
    { cbn [tidyFrom] in T. cbn [trimStart].
      destruct (isSpace c); [discriminate T | reflexivity]. }
    now apply (tidyFrom_trimEnd true).
  - now apply (tidyFrom_squeeze true).
Qed.

(** The shape of a normalized answer. *)
Lemma normalizeAnswer_shape (s : string) :
  tidy (normalizeAnswer s) = true
  /\ every isLower (normalizeAnswer s) = true
  /\ every (fun c => negb (isPunct c)) (normalizeAnswer s) = true.
Proof.
  unfold normalizeAnswer, replaceAll, trim.
  rewrite (proj2 (reSpaces_squeeze _ _)), rePunct_keep.
  split; [apply trim_squeeze_tidy|]. split.
  - apply every_squeeze; [reflexivity|].
    apply every_trimEnd, every_trimStart, every_keep, every_replaceAllFrom,
      every_toLowerCase.
  - apply every_squeeze; [reflexivity|].
    apply every_trimEnd, every_trimStart, every_keep_self.
Qed.

Lemma nonpunct_not_tag_open (c : ascii) :
  negb (isPunct c) = true -> isNot "<" c = true.
Proof.
  destruct c as [[] [] [] [] [] [] [] []]; intros H; try reflexivity;
    discriminate H.
Qed.

(** A second normalization changes nothing when the first left no stop
    word standing alone. *)
Lemma normalizeAnswer_twice (s : string) :
  matchAll false reStop (normalizeAnswer s) = [] ->
  normalizeAnswer (normalizeAnswer s) = normalizeAnswer s.
Proof.
  intros M. destruct (normalizeAnswer_shape s) as (T & L & P).
  set (t := normalizeAnswer s) in *.
  unfold normalizeAnswer at 1. unfold replaceAll.
  rewrite reTag_absent.
  2:{ apply (every_weaken _ _ _ nonpunct_not_tag_open P). }
  rewrite (toLowerCase_fixed _ L), (no_match_no_change _ _ _ _ _ M).
  rewrite rePunct_keep, (keep_fixed _ _ P).
  destruct (tidy_fixed _ T) as [-> E].
  now rewrite (proj2 (reSpaces_squeeze _ _)).
Qed.

(** C3, counterexample: the initials of O. R. Tambo become the stop
    word "or", which a second normalization removes. *)
Lemma normalizeAnswer_not_idempotent :
  normalizeAnswer "O.R. Tambo" = "or tambo"
  /\ normalizeAnswer "or tambo" = "tambo"
  /\ normalizeAnswer (normalizeAnswer "O.R. Tambo")
     <> normalizeAnswer "O.R. Tambo".
Proof.
  split; [vm_compute; reflexivity|].
  split; [vm_compute; reflexivity|].
  vm_compute. discriminate.
Qed.

(** A second normalization shortens a normalized answer that still
    holds a stop word. *)

Lemma one_bounded (p : ascii -> bool) (k : cont) :
  withinInput k -> withinInput (one p k).
Proof.
  intros B prev [|c s] m; simpl; [discriminate|].
  destruct (p c); [|discriminate].
  destruct (k (Some c) s) as [n|] eqn:K; simpl; [|discriminate].
  intros [= <-]. apply B in K. lia.
Qed.

Lemma one_positive (p : ascii -> bool) (k : cont) (prev : option ascii)
      (s : string) (m : nat) :
  one p k prev s = Some m -> 0 < m.
Proof.
  destruct s as [|c s]; simpl; [discriminate|].
  destruct (p c); [|discriminate].
  destruct (k (Some c) s); simpl; [|discriminate]. intros [= <-]. lia.
Qed.

Lemma word_bounded (i : bool) (w : string) (k : cont) :
  withinInput k -> withinInput (word i w k).
Proof.
  revert k; induction w as [|c w IH]; intros k B; simpl; [exact B|].
  apply one_bounded. now apply IH.
Qed.

Lemma alts_bounded (i : bool) (ws : list string) (k : cont) :
  withinInput k -> withinInput (alts i ws k).
Proof.
  intros B. induction ws as [|w ws IH]; intros prev s m; simpl;
    [discriminate|].
  destruct (word i w k prev s) as [n|] eqn:W.
  - intros [= <-]. now apply (word_bounded i w k B) in W.
  - apply IH.
Qed.

Lemma alts_positive (i : bool) (ws : list string) (k : cont)
      (prev : option ascii) (s : string) (m : nat) :
  Forall (fun w => w <> "") ws -> alts i ws k prev s = Some m -> 0 < m.
Proof.
  induction 1 as [|w ws N _ IH]; simpl; [discriminate|].
  destruct (word i w k prev s) as [n|] eqn:W; [|exact IH].
  intros [= <-]. destruct w as [|c w]; [now elim N|].
  simpl in W. now apply one_positive in W.
Qed.

Lemma reStop_match (prev : option ascii) (s : string) (m : nat) :
  matchHere false reStop prev s = Some m -> 0 < m <= length s.
Proof.
  cbn [matchHere reStop]. destruct (atBoundary prev s); [|discriminate].
  intros H. split.
  - apply alts_positive in H; [exact H|].
    repeat constructor; discriminate.
  - apply alts_bounded in H; [exact H|].
    intros p r n. destruct (atBoundary p r); [|discriminate].
    intros [= <-]. lia.
Qed.

Lemma replaceAllFrom_length (i : bool) (re : regex) (s : string) (k : nat)
      (prev : option ascii) :
  length (replaceAllFrom i re "" k prev s) <= length s.
Proof.
  revert k prev; induction s as [|c s IH]; intros k prev.
  - destruct k; simpl; [|lia].
    destruct (matchHere i re prev "") as [[|n]|]; simpl; lia.
  - destruct k; simpl.
    + destruct (matchHere i re prev (String c s)) as [[|n]|]; simpl.
      * specialize (IH 0 (Some c)). lia.
      * specialize (IH n (Some c)). lia.
      * specialize (IH 0 (Some c)). lia.
    + specialize (IH k (Some c)). lia.
Qed.

Lemma reStop_shortens (prev : option ascii) (s : string) :
  matchAllFrom false reStop 0 prev s <> [] ->
  length (replaceAllFrom false reStop "" 0 prev s) < length s.
Proof.
  revert prev; induction s as [|c s IH]; intros prev.
  - cbn [matchAllFrom replaceAllFrom].
    destruct (matchHere false reStop prev "") as [m|] eqn:M.
    + apply reStop_match in M. simpl in M. lia.
    + intros H. now elim H.
  - cbn [matchAllFrom replaceAllFrom].
    destruct (matchHere false reStop prev (String c s)) as [m|] eqn:M.
    + intros _. apply reStop_match in M. destruct m as [|m]; [lia|].
      pose proof (replaceAllFrom_length false reStop s m (Some c)).
      simpl. lia.
    + intros H. apply IH in H. simpl. lia.
Qed.

Lemma keep_length (p : ascii -> bool) (s : string) :
  length (keep p s) <= length s.
Proof. induction s as [|c s IH]; simpl; [lia|]. destruct (p c); simpl; lia. Qed.

Lemma trimStart_length (s : string) : length (trimStart s) <= length s.
Proof.
  induction s as [|c s IH]; simpl; [lia|]. destruct (isSpace c); simpl; lia.
Qed.

Lemma trimEnd_length (s : string) : length (trimEnd s) <= length s.
Proof.
  induction s as [|c s IH]; simpl; [lia|].
  destruct (trimEnd s); [destruct (isSpace c)|]; simpl in *; lia.
Qed.

Lemma squeeze_length (b : bool) (s : string) :
  length (squeeze b s) <= length s.
Proof.
  revert b; induction s as [|c s IH]; intros b; simpl; [lia|].
  destruct (isSpace c); [destruct b|]; simpl.
  - specialize (IH true). lia.
  - specialize (IH true). lia.
  - specialize (IH false). lia.
Qed.

(** C3 (as the code has it).  A second normalization changes nothing
    exactly when the first left no stop word standing alone; stop words
    that appear only once punctuation is gone are removed by the
    second. *)
Theorem normalizeAnswer_twice_iff (s : string) :
  normalizeAnswer (normalizeAnswer s) = normalizeAnswer s
  <-> matchAll false reStop (normalizeAnswer s) = [].
Proof.
  split; [|apply normalizeAnswer_twice].
  destruct (normalizeAnswer_shape s) as (T & L & P).
  set (t := normalizeAnswer s) in *.
  destruct (matchAll false reStop t) eqn:M; [reflexivity|].
  intros E. exfalso. apply (f_equal length) in E. revert E.
  unfold normalizeAnswer at 1. unfold replaceAll, trim.
  rewrite reTag_absent
    by apply (every_weaken _ _ _ nonpunct_not_tag_open P).
  rewrite (toLowerCase_fixed _ L), rePunct_keep.
  rewrite (proj2 (reSpaces_squeeze _ _)).
  assert (length (replaceAllFrom false reStop "" 0 None t) < length t) as S
      by (apply reStop_shortens; unfold matchAll in M; congruence).
  set (u := replaceAllFrom false reStop "" 0 None t) in *.
  pose proof (keep_length (fun c => negb (isPunct c)) u).
  pose proof (trimStart_length (keep (fun c => negb (isPunct c)) u)).
  pose proof (trimEnd_length
                (trimStart (keep (fun c => negb (isPunct c)) u))).
  pose proof (squeeze_length false
                (trimEnd (trimStart (keep (fun c => negb (isPunct c)) u)))).
  lia.
Qed.

(** ** Edit distance *)

Lemma dist_nil_r (x : list ascii) : dist x [] = List.length x.
Proof. now destruct x. Qed.

Lemma dist_cons (c d : ascii) (x y : list ascii) :
  dist (c :: x) (d :: y)
  = Nat.min (dist x (d :: y) + 1)
      (Nat.min (dist (c :: x) y + 1)
         (dist x y + (if Ascii.eqb c d then 0 else 1))).
Proof. reflexivity. Qed.

(** One more character on either side changes the distance by at most
    one. *)
Lemma dist_step_up (x y : list ascii) (c : ascii) :
  dist (c :: x) y <= dist x y + 1 /\ dist x (c :: y) <= dist x y + 1.
Proof.
  split.
  - destruct y as [|d y]; [rewrite !dist_nil_r; simpl; lia|].
    rewrite dist_cons. lia.
  - destruct x as [|d x]; [simpl; lia|].
    rewrite dist_cons. lia.
Qed.

Lemma dist_step_down (n : nat) :
  forall x y, List.length x + List.length y <= n ->
    forall c,
      dist x y <= dist (c :: x) y + 1 /\ dist x y <= dist x (c :: y) + 1.
Proof.
  induction n as [|n IH]; intros x y L c.
  - destruct x, y; simpl in L; try lia. simpl. lia.
  - split.
    + destruct y as [|d y]; [rewrite !dist_nil_r; simpl; lia|].
      rewrite dist_cons.
      pose proof (proj2 (dist_step_up x y d)).
      simpl in L.
      destruct (IH x y ltac:(lia) c) as [H1 _].
      destruct (Ascii.eqb c d); lia.
    + destruct x as [|d x]; [simpl; lia|].
      rewrite dist_cons.
      pose proof (proj1 (dist_step_up x y d)).
      simpl in L.
      destruct (IH x y ltac:(lia) c) as [_ H2].
      destruct (Ascii.eqb d c); lia.
Qed.

Lemma dist_diag (c : ascii) (x y : list ascii) :
  dist (c :: x) (c :: y) = dist x y.
Proof.
  rewrite dist_cons, Ascii.eqb_refl.
  destruct (dist_step_down _ x y (Nat.le_refl _) c). lia.
Qed.

Lemma dist_refl (x : list ascii) : dist x x = 0.
Proof. induction x as [|c x IH]; [reflexivity | now rewrite dist_diag]. Qed.

Lemma dist_max (x y : list ascii) :
  dist x y <= Nat.max (List.length x) (List.length y).
Proof.
  revert y; induction x as [|c x IH]; intros y; [simpl; lia|].
  destruct y as [|d y]; [simpl; lia|].
  rewrite dist_cons. specialize (IH y). simpl.
  destruct (Ascii.eqb c d); lia.
Qed.

Lemma revChars_length (s : string) (acc : list ascii) :
  List.length (revChars s acc) = length s + List.length acc.
Proof.
  revert acc; induction s as [|c s IH]; intros acc; simpl; [reflexivity|].
  rewrite IH. simpl. lia.
Qed.

(** The rows of the matrix are the rows of distances. *)
Lemma fillRow_cells (c : ascii) (x : list ascii) (a : string)
      (y : list ascii) :
  fillRow c a (dist x y) (dist (c :: x) y) (cells x y a) = cells (c :: x) y a.
Proof.
  revert y; induction a as [|d a IH]; intros y; [reflexivity|].
  cbn [cells fillRow]. rewrite <- IH. f_equal.
  - rewrite dist_cons.
    destruct (Ascii.eqb c d) eqn:E; [|lia].
    apply Ascii.eqb_eq in E. subst d.
    destruct (dist_step_down _ x y (Nat.le_refl _) c). lia.
  - f_equal. rewrite dist_cons.
    destruct (Ascii.eqb c d) eqn:E; [|lia].
    apply Ascii.eqb_eq in E. subst d.
    destruct (dist_step_down _ x y (Nat.le_refl _) c). lia.
Qed.

Lemma cells_nil (y : list ascii) (a : string) :
  cells [] y a = seq (S (List.length y)) (length a).
Proof.
  revert y; induction a as [|d a IH]; intros y; [reflexivity|].
  cbn [cells length seq]. now rewrite IH.
Qed.

Lemma fillRows_cells (a b : string) (x : list ascii) :
  fillRows a b (S (List.length x)) (dist x [] :: cells x [] a)
  = dist (revChars b x) [] :: cells (revChars b x) [] a.
Proof.
  revert x; induction b as [|c b IH]; intros x; [reflexivity|].
  cbn [fillRows revChars tl]. rewrite <- (IH (c :: x)).
  f_equal. f_equal.
  replace (S (List.length x) - 1) with (dist x [])
    by (rewrite dist_nil_r; lia).
  change (S (List.length x)) with (dist (c :: x) []) at 1.
  apply fillRow_cells.
Qed.

Lemma last_cells (x y : list ascii) (a : string) :
  last (dist x y :: cells x y a) 0 = dist x (revChars a y).
Proof.
  revert y; induction a as [|d a IH]; intros y; [reflexivity|].
  cbn [cells revChars]. rewrite <- IH. reflexivity.
Qed.

(** [levenshteinDistance] computes the Levenshtein distance. *)
Lemma levenshteinDistance_dist (a b : string) :
  levenshteinDistance a b = dist (revChars b []) (revChars a []).
Proof.
  unfold levenshteinDistance.
  destruct (Nat.eqb_spec (length a) 0) as [A|A].
  - apply length_zero in A. subst a. simpl.
    now rewrite dist_nil_r, revChars_length, Nat.add_0_r.
  - destruct (Nat.eqb_spec (length b) 0) as [B|B].
    + apply length_zero in B. subst b. simpl.
      now rewrite revChars_length, Nat.add_0_r.
    + pose proof (fillRows_cells a b []) as F.
      cbn [List.length dist] in F. rewrite cells_nil in F.
      cbn [List.length] in F.
      change (0 :: seq 1 (length a)) with (seq 0 (S (length a))) in F.
      rewrite F. apply last_cells.
Qed.

Lemma levenshteinDistance_max (a b : string) :
  levenshteinDistance a b <= Nat.max (length a) (length b).
Proof.
  rewrite levenshteinDistance_dist.
  pose proof (dist_max (revChars b []) (revChars a [])) as H.
  rewrite !revChars_length in H. simpl in H. lia.
Qed.

Lemma levenshteinDistance_refl (a : string) : levenshteinDistance a a = 0.
Proof. rewrite levenshteinDistance_dist. apply dist_refl. Qed.

(** ** Binary64 arithmetic on values between zero and one

    The primitive operations are specified by the Standard Library's
    [SpecFloat] model of IEEE 754; the facts below are read off that
    model. *)

Module FloatFacts.

Local Open Scope Z_scope.

Lemma fexp_eq (e : Z) : fexp prec emax e = Z.max (e - 53) (-1074).
Proof. reflexivity. Qed.

Lemma digits2_size (p : positive) : digits2_pos p = Pos.size p.
Proof. induction p as [p IH|p IH|]; simpl; congruence. Qed.

Lemma digits_bounds (p : positive) :
  2 ^ (Zpos (digits2_pos p) - 1) <= Zpos p < 2 ^ Zpos (digits2_pos p).
Proof.
  rewrite digits2_size. split.
  - pose proof (Pos.size_le p) as H.
    apply Pos2Z.pos_le_pos in H. rewrite Pos2Z.inj_pow in H.
    replace (Zpos (Pos.size p)) with (Z.succ (Zpos (Pos.size p) - 1)) in H
      by lia.
    rewrite Z.pow_succ_r in H by lia. lia.
  - pose proof (Pos.size_gt p) as H.
    apply Pos2Z.pos_lt_pos in H. now rewrite Pos2Z.inj_pow in H.
Qed.

Lemma digits_le (M k : Z) : 0 <= k -> 0 <= M < 2 ^ k -> Zdigits2 M <= k.
Proof.
  intros K [L U]. destruct M as [|p|p]; simpl; [lia | | lia].
  destruct (digits_bounds p) as [B _].
  assert (2 ^ (Zpos (digits2_pos p) - 1) < 2 ^ k) as H by lia.
  apply Z.pow_lt_mono_r_iff in H; lia.
Qed.

Lemma pow2_pos (k : Z) : 0 <= k -> 0 < 2 ^ k.
Proof. intros. apply Z.pow_pos_nonneg; lia. Qed.

Lemma pow2_split (a b : Z) : 0 <= a <= b -> 2 ^ b = 2 ^ a * 2 ^ (b - a).
Proof. intros. rewrite <- Z.pow_add_r by lia. f_equal. lia. Qed.

Lemma div_pow2_lt (M N k : Z) :
  0 <= k <= N -> M < 2 ^ N -> M / 2 ^ k < 2 ^ (N - k).
Proof.
  intros K U. apply Z.div_lt_upper_bound; [apply pow2_pos; lia|].
  now rewrite <- pow2_split.
Qed.

Lemma div_pow2_le (M N k : Z) :
  0 <= k <= N -> M <= 2 ^ N -> M / 2 ^ k <= 2 ^ (N - k).
Proof.
  intros K U. rewrite (pow2_split k N) in U by lia.
  apply Z.div_le_upper_bound; [apply pow2_pos; lia | exact U].
Qed.

Lemma shr_1_m (mrs : shr_record) :
  0 <= shr_m mrs -> shr_m (shr_1 mrs) = shr_m mrs / 2.
Proof.
  destruct mrs as [m r s]. simpl. intros H.
  destruct m as [|[p|p|]|p]; cbn [shr_m]; try reflexivity;
    Z.div_mod_to_equations; lia.
Qed.

Lemma iter_shr_m (p : positive) (mrs : shr_record) :
  0 <= shr_m mrs ->
  shr_m (SpecFloat.iter_pos shr_1 p mrs) = shr_m mrs / 2 ^ Zpos p.
Proof.
  revert mrs; induction p as [p IH|p IH|]; intros mrs H;
    simpl SpecFloat.iter_pos.
  - assert (0 <= shr_m (shr_1 mrs)) as H1
        by (rewrite shr_1_m by exact H; apply Z.div_pos; lia).
    assert (0 <= shr_m (SpecFloat.iter_pos shr_1 p (shr_1 mrs))) as H2
        by (rewrite IH by exact H1; apply Z.div_pos;
            [lia | apply pow2_pos; lia]).
    rewrite (IH _ H2), (IH _ H1), (shr_1_m _ H).
    rewrite !Z.div_div by (try apply pow2_pos; lia).
    f_equal.
    replace (Zpos p~1) with (1 + Zpos p + Zpos p) by lia.
    rewrite !Z.pow_add_r by lia. change (2 ^ 1) with 2. lia.
  - assert (0 <= shr_m (SpecFloat.iter_pos shr_1 p mrs)) as H2
        by (rewrite IH by exact H; apply Z.div_pos;
            [lia | apply pow2_pos; lia]).
    rewrite (IH _ H2), (IH _ H).
    rewrite !Z.div_div by (try apply pow2_pos; lia).
    f_equal.
    replace (Zpos p~0) with (Zpos p + Zpos p) by lia.
    rewrite !Z.pow_add_r by lia. lia.
  - now rewrite shr_1_m.
Qed.

Lemma shr_record_of_loc_m (M : Z) (l : location) :
  shr_m (shr_record_of_loc M l) = M.
Proof. now destruct l as [|[]]. Qed.

(** The first step of rounding: a right shift that brings the exponent
    to [fexp]. *)
Lemma shr_fexp_div (M E : Z) (l : location) :
  0 <= M -> E <= 0 -> Zdigits2 M + E <= 53 ->
  exists e',
    E <= e' <= 0
    /\ snd (shr_fexp prec emax M E l) = e'
    /\ shr_m (fst (shr_fexp prec emax M E l)) = M / 2 ^ (e' - E).
Proof.
  intros M0 E0 D. unfold shr_fexp, shr. rewrite fexp_eq.
  destruct (Z.max (Zdigits2 M + E - 53) (-1074) - E) as [|p|p] eqn:N.
  - exists E. simpl. rewrite shr_record_of_loc_m, Z.sub_diag, Z.div_1_r. lia.
  - exists (E + Zpos p). simpl.
    rewrite iter_shr_m by (rewrite shr_record_of_loc_m; exact M0).
    rewrite shr_record_of_loc_m. repeat split; try lia. f_equal. f_equal. lia.
  - exists E. simpl. rewrite shr_record_of_loc_m, Z.sub_diag, Z.div_1_r. lia.
Qed.

Lemma round_nearest_even_bounds (m : Z) (l : location) :
  m <= round_nearest_even m l <= m + 1.
Proof. destruct l as [|[]]; simpl; try lia. destruct (Z.even m); lia. Qed.

(** Rounding a value below one gives zero or a float at most one. *)
Lemma round_le1 (M E : Z) (l : location) :
  0 <= M < 2 ^ (- E) -> E <= 0 ->
  le1 (binary_round_aux prec emax false M E l).
Proof.
  intros [M0 MU] E0. unfold binary_round_aux.
  assert (Zdigits2 M + E <= 53) as D
      by (pose proof (digits_le M (- E)); lia).
  destruct (shr_fexp_div M E l M0 E0 D) as (e1 & [L1 U1] & S1 & V1).
  destruct (shr_fexp prec emax M E l) as [mrs1 e1'] eqn:R1.
  simpl in S1, V1. subst e1'.
  set (m2 := round_nearest_even (shr_m mrs1) (loc_of_shr_record mrs1)).
  pose proof (round_nearest_even_bounds (shr_m mrs1) (loc_of_shr_record mrs1))
    as B2. fold m2 in B2.
  assert (shr_m mrs1 < 2 ^ (- e1)) as U
      by (rewrite V1; replace (- e1) with (- E - (e1 - E)) by lia;
          apply div_pow2_lt; lia).
  assert (0 <= shr_m mrs1) as L
      by (rewrite V1; apply Z.div_pos; [lia | apply pow2_pos; lia]).
  assert (0 <= m2 <= 2 ^ (- e1)) as [M2 MU2] by lia.
  assert (Zdigits2 m2 + e1 <= 53) as D2.
  { destruct (Z.eq_dec m2 (2 ^ (- e1))) as [Q|Q].
    - pose proof (digits_le m2 (- e1 + 1)) as H.
      rewrite Z.pow_add_r in H by lia. change (2 ^ 1) with 2 in H.
      pose proof (pow2_pos (- e1)). lia.
    - pose proof (digits_le m2 (- e1)). lia. }
  destruct (shr_fexp_div m2 e1 loc_Exact M2 U1 D2) as (e2 & [L2 U2] & S2 & V2).
  destruct (shr_fexp prec emax m2 e1 loc_Exact) as [mrs2 e2'] eqn:R2.
  simpl in S2, V2. subst e2'.
  assert (0 <= shr_m mrs2 <= 2 ^ (- e2)) as [L3 U3].
  { rewrite V2. split; [apply Z.div_pos; [lia | apply pow2_pos; lia]|].
    replace (- e2) with (- e1 - (e2 - e1)) by lia. apply div_pow2_le; lia. }
  destruct (shr_m mrs2) as [|m|m]; [exact I | | lia].
  destruct (Z.leb_spec e2 (emax - prec)) as [_|G];
    [split; lia | unfold emax, prec in G; lia].
Qed.

Lemma iter_xO_spec (p d : positive) :
  Zpos (Pos.iter xO p d) = Zpos p * 2 ^ Zpos d
  /\ digits2_pos (Pos.iter xO p d) = (digits2_pos p + d)%positive.
Proof.
  induction d as [|d [IH1 IH2]] using Pos.peano_ind.
  - simpl. split; [lia|]. now rewrite Pos.add_1_r.
  - rewrite Pos.iter_succ. split.
    + rewrite Pos2Z.inj_xO, IH1, Pos2Z.inj_succ, Z.pow_succ_r by lia. lia.
    + simpl. rewrite IH2. lia.
Qed.

Lemma shl_align_spec (mx : positive) (ex ex' : Z) :
  snd (shl_align mx ex ex') = Z.min ex ex'
  /\ Zpos (fst (shl_align mx ex ex'))
     = Zpos mx * 2 ^ (ex - Z.min ex ex')
  /\ Zpos (digits2_pos (fst (shl_align mx ex ex')))
     = Zpos (digits2_pos mx) + (ex - Z.min ex ex').
Proof.
  unfold shl_align. destruct (ex' - ex) as [|d|d] eqn:D; cbn [fst snd].
  - replace (Z.min ex ex') with ex by lia. rewrite Z.sub_diag. cbn. lia.
  - replace (Z.min ex ex') with ex by lia. rewrite Z.sub_diag. cbn. lia.
  - replace (Z.min ex ex') with ex' by lia.
    replace (ex - ex') with (Zpos d) by lia.
    destruct (iter_xO_spec mx d) as [-> ->]. lia.
Qed.

(** A float with a full mantissa is what rounding it exactly gives. *)
Lemma round_exact (m : positive) (e : Z) :
  Zpos (digits2_pos m) = 53 -> -1074 <= e <= 971 ->
  binary_round_aux prec emax false (Zpos m) e loc_Exact = S754_finite false m e.
Proof.
  intros D E. unfold binary_round_aux, shr_fexp. cbn [Zdigits2].
  rewrite fexp_eq, D.
  replace (Z.max (53 + e - 53) (-1074) - e) with 0 by lia.
  cbn [shr shr_record_of_loc loc_of_shr_record shr_m round_nearest_even
         Zdigits2].
  rewrite fexp_eq, D.
  replace (Z.max (53 + e - 53) (-1074) - e) with 0 by lia.
  cbn [shr shr_record_of_loc shr_m].
  destruct (Z.leb_spec e (emax - prec)) as [_|G];
    [reflexivity | unfold emax, prec in G; lia].
Qed.

(** A positive integer below 2^53 is converted exactly. *)
Lemma num_spec (n : nat) :
  0 < Z.of_nat n < 2 ^ 53 ->
  exists m e,
    Prim2SF (num n) = S754_finite false m e
    /\ e <= 0 /\ Zpos m = Z.of_nat n * 2 ^ (- e).
Proof.
  intros [L U]. unfold num. rewrite of_uint63_spec, Uint63.of_Z_spec.
  rewrite Z.mod_small by (change wB with (2 ^ 63); lia).
  destruct (Z.of_nat n) as [|p|p] eqn:N; try lia.
  cbn [binary_normalize]. unfold binary_round.
  assert (Zpos (digits2_pos p) <= 53) as D
      by (apply (digits_le (Zpos p) 53); lia).
  pose proof (Pos2Z.is_pos (digits2_pos p)) as D0.
  destruct (shl_align_spec p 0 (fexp prec emax (Zpos (digits2_pos p) + 0)))
    as (S1 & S2 & S3).
  destruct (shl_align p 0 (fexp prec emax (Zpos (digits2_pos p) + 0)))
    as [mz ez]. cbn [fst snd] in S1, S2, S3.
  rewrite fexp_eq in S1, S2, S3.
  assert (ez = Zpos (digits2_pos p) - 53) as E by lia.
  rewrite <- S1 in S2, S3.
  exists mz, ez. split; [|split; [lia|]].
  - apply round_exact; lia.
  - rewrite S2. replace (0 - ez) with (- ez) by lia. reflexivity.
Qed.

Lemma num_zero : Prim2SF (num 0) = S754_zero false.
Proof. reflexivity. Qed.

Lemma one_spec : Prim2SF 1%float = oneSF.
Proof. reflexivity. Qed.

Lemma zero_spec : Prim2SF 0%float = S754_zero false.
Proof. reflexivity. Qed.

Lemma div_eucl_div (a b : Z) : Z.div_eucl a b = (a / b, a mod b).
Proof. unfold Z.div, Z.modulo. now destruct (Z.div_eucl a b). Qed.

(** The quotient of a smaller by a larger positive float is at most one. *)
Lemma div_le1 (m1 m2 : positive) (e1 e2 : Z) :
  e1 <= 0 -> e2 <= 0 ->
  Zpos m1 * 2 ^ (- e2) < Zpos m2 * 2 ^ (- e1) ->
  le1 (SFdiv prec emax (S754_finite false m1 e1) (S754_finite false m2 e2)).
Proof.
  intros E1 E2 H. unfold SFdiv, SFdiv_core_binary. cbn [Zdigits2 xorb].
  rewrite fexp_eq.
  set (d1 := Zpos (digits2_pos m1)). set (d2 := Zpos (digits2_pos m2)).
  set (e' := Z.min (Z.max (d1 + e1 - (d2 + e2) - 53) (-1074)) (e1 - e2)).
  set (s := e1 - e2 - e').
  assert (d1 + e1 - (d2 + e2) <= 0) as D.
  { destruct (digits_bounds m1) as [B1 _].
    destruct (digits_bounds m2) as [_ B2].
    fold d1 in B1. fold d2 in B2.
    pose proof (pow2_pos (- e1) ltac:(lia)) as P1.
    pose proof (pow2_pos (- e2) ltac:(lia)) as P2.
    assert (2 ^ (d1 - 1) * 2 ^ (- e2) < 2 ^ d2 * 2 ^ (- e1)) as Q by nia.
    rewrite <- !Z.pow_add_r in Q by (unfold d1, d2; lia).
    apply Z.pow_lt_mono_r_iff in Q; unfold d1, d2 in *; lia. }
  assert (e' <= -53) as E' by (unfold e'; lia).
  assert (0 <= s) as S0 by (unfold s, e'; lia).
  set (m' := match s with
             | 0 => Zpos m1
             | Zpos _ => Z.shiftl (Zpos m1) s
             | Zneg _ => 0
             end).
  assert (m' = Zpos m1 * 2 ^ s) as M'.
  { unfold m'. destruct s as [|p|p] eqn:S; [simpl; lia | | lia].
    apply Z.shiftl_mul_pow2. lia. }
  rewrite div_eucl_div. apply round_le1; [|lia].
  split; [apply Z.div_pos; lia|].
  apply Z.div_lt_upper_bound; [lia|]. rewrite M'.
  pose proof (pow2_pos (- e2) ltac:(lia)) as P2.
  pose proof (pow2_pos s S0) as PS.
  assert (2 ^ (- e') * 2 ^ (- e2) = 2 ^ (- e1) * 2 ^ s) as Q.
  { rewrite <- !Z.pow_add_r by lia. f_equal. unfold s. lia. }
  nia.
Qed.

(** A positive float divided by itself is one. *)
Lemma div_self (m : positive) (e : Z) :
  SFdiv prec emax (S754_finite false m e) (S754_finite false m e) = oneSF.
Proof.
  unfold SFdiv, SFdiv_core_binary. cbn [Zdigits2 xorb].
  rewrite !Z.sub_diag. change (fexp prec emax 0) with (-53).
  cbn [Z.min Z.compare Z.sub Z.opp Z.add].
  rewrite div_eucl_div, Z.shiftl_mul_pow2, Z.mul_comm by lia.
  rewrite Z.mod_mul, Z.div_mul by lia.
  replace (new_location (Zpos m) 0) with loc_Exact; [reflexivity|].
  unfold new_location. now destruct (Z.even (Zpos m)).
Qed.

(** One minus a float at most one is at most one (and not negative). *)
Lemma sub_le1 (q : spec_float) : le1 q -> le1 (SFsub prec emax oneSF q).
Proof.
  destruct q as [s|s| |[|] mq eq]; cbn [le1]; try contradiction.
  - intros _. cbn. split; [lia | reflexivity].
  - intros [E Q]. unfold SFsub, oneSF. cbn [cond_Zopp].
    set (ez := Z.min (-52) eq).
    destruct (shl_align_spec 4503599627370496 (-52) ez) as (_ & A1 & _).
    destruct (shl_align_spec mq eq ez) as (_ & A2 & _).
    rewrite A1, A2.
    replace (Z.min (-52) ez) with ez by (unfold ez; lia).
    replace (Z.min eq ez) with ez by (unfold ez; lia).
    change 4503599627370496 with (2 ^ 52).
    rewrite <- Z.pow_add_r by (unfold ez; lia).
    replace (52 + (-52 - ez)) with (- ez) by lia.
    assert (0 < Zpos mq * 2 ^ (eq - ez) <= 2 ^ (- ez)) as [L U].
    { pose proof (pow2_pos (eq - ez) ltac:(unfold ez; lia)) as P. split; [nia|].
      rewrite (pow2_split (- eq) (- ez)) by (unfold ez; lia).
      replace (- ez - - eq) with (eq - ez) by lia. nia. }
    destruct (2 ^ (- ez) - Zpos mq * 2 ^ (eq - ez)) as [|p|p] eqn:D; try lia.
    + exact I.
    + cbn [binary_normalize]. unfold binary_round.
      destruct (shl_align_spec p ez
                  (fexp prec emax (Zpos (digits2_pos p) + ez)))
        as (S1 & S2 & _).
      destruct (shl_align p ez (fexp prec emax (Zpos (digits2_pos p) + ez)))
        as [mz ez2]. cbn [fst snd] in S1, S2. rewrite <- S1 in S2.
      assert (ez2 <= ez) as L2 by lia.
      assert (ez <= 0) as L3 by (unfold ez; lia).
      apply round_le1; [|lia]. split; [lia|]. rewrite S2.
      rewrite (pow2_split (- ez) (- ez2)) by lia.
      replace (- ez2 - - ez) with (ez - ez2) by lia.
      pose proof (pow2_pos (ez - ez2) ltac:(lia)). nia.
Qed.

(** A valid float at most one compares as such. *)
Lemma le1_leb (r : spec_float) :
  valid_binary r = true -> le1 r ->
  SFleb (S754_zero false) r = true /\ SFleb r oneSF = true.
Proof.
  destruct r as [s|s| |[|] m e]; cbn [le1]; try contradiction.
  - intros _ _. now split.
  - intros V [E M]. split; [reflexivity|].
    unfold SFleb, SFcompare, oneSF.
    cbn [valid_binary] in V. unfold bounded, canonical_mantissa in V.
    apply andb_prop in V. destruct V as [C _]. apply Z.eqb_eq in C.
    rewrite fexp_eq in C. destruct (digits_bounds m) as [B _].
    assert (e <= -52) as E52.
    { destruct (Z.le_gt_cases e (-52)) as [|G]; [assumption|]. exfalso.
      assert (Zpos (digits2_pos m) = 53) as D by lia. rewrite D in B.
      assert (2 ^ (- e) < 2 ^ (53 - 1)) by (apply Z.pow_lt_mono_r; lia). lia. }
    destruct (Z.compare_spec e (-52)) as [Q|Q|Q]; [|reflexivity|lia].
    subst e. change (2 ^ (- -52)) with 4503599627370496 in M.
    rewrite Pos.compare_cont_spec. cbn [Pos.switch_Eq].
    destruct (Pos.compare_spec m 4503599627370496) as [|L|L]; try reflexivity.
    lia.
Qed.

End FloatFacts.

(** ** Similarity *)

Import FloatFacts.

(** The quotient of a distance by a length that bounds it. *)
Lemma quotient_le1 (d m : nat) :
  d <= m -> 0 < m -> (Z.of_nat m < 2 ^ 53)%Z ->
  le1 (Prim2SF (num d / num m))
  /\ (d = 0 -> Prim2SF (num d / num m) = S754_zero false)
  /\ (d = m -> Prim2SF (num d / num m) = oneSF).
Proof.
  intros L M U. rewrite div_spec. unfold SF64div.
  destruct (num_spec m) as (m2 & e2 & R2 & E2 & V2); [lia|]. rewrite R2.
  destruct (Nat.eq_dec d 0) as [->|D0].
  - rewrite num_zero. cbn. split; [exact I|]. split; [reflexivity | lia].
  - destruct (num_spec d) as (m1 & e1 & R1 & E1 & V1); [lia|].
    destruct (Nat.eq_dec d m) as [->|DM].
    + rewrite R2, div_self. split; [|split; [lia | reflexivity]].
      cbn. split; [lia | reflexivity].
    + rewrite R1. split; [|split; intros; lia].
      apply div_le1; [exact E1 | exact E2 |].
      rewrite V1, V2.
      pose proof (pow2_pos (- e1) ltac:(lia)).
      pose proof (pow2_pos (- e2) ltac:(lia)).
      assert (Z.of_nat d < Z.of_nat m)%Z by lia. nia.
Qed.

(** One minus such a quotient lies between zero and one. *)
Lemma complement_range (q : float) :
  le1 (Prim2SF q) ->
  ((0 <=? 1 - q)%float = true /\ (1 - q <=? 1)%float = true).
Proof.
  intros Q. rewrite !leb_spec, sub_spec, one_spec, zero_spec.
  unfold SF64sub. apply le1_leb.
  - rewrite <- one_spec, <- sub_spec. apply Prim2SF_valid.
  - now apply sub_le1.
Qed.

Lemma calculateSimilarity_refl (a : string) : calculateSimilarity a a = 1%float.
Proof. unfold calculateSimilarity. now rewrite String.eqb_refl. Qed.

Lemma calculateSimilarity_general (a b : string) :
  a <> b -> a <> "" -> b <> "" ->
  calculateSimilarity a b
  = (1 - num (levenshteinDistance a b)
         / num (Nat.max (length a) (length b)))%float.
Proof.
  intros N A B. unfold calculateSimilarity.
  destruct (String.eqb_spec a b) as [E|_]; [contradiction|].
  destruct a; [contradiction|]. destruct b; [contradiction|]. reflexivity.
Qed.

Lemma calculateSimilarity_one_empty (a b : string) :
  (a = "" /\ b <> "") \/ (a <> "" /\ b = "") ->
  calculateSimilarity a b = 0%float.
Proof.
  unfold calculateSimilarity.
  intros [[-> B]|[A ->]].
  - destruct b; [contradiction | reflexivity].
  - destruct a; [contradiction|]. cbn [String.eqb length Nat.eqb orb].
    reflexivity.
Qed.

Lemma levenshteinDistance_one_empty (a b : string) :
  a = "" \/ b = "" ->
  levenshteinDistance a b = Nat.max (length a) (length b).
Proof.
  unfold levenshteinDistance. intros [->| ->]; [reflexivity|].
  destruct a; [reflexivity|]. cbn [length Nat.eqb]. lia.
Qed.

(** C7 (as the code has it).  For strings shorter than 2^53
    characters: unless both are empty, the similarity is the binary64
    value of [1 - distance / max(len a, len b)], where the distance is
    the unit-cost Levenshtein distance; a string is at similarity 1
    from itself, the empty string included; the similarity is 0 when
    exactly one string is empty; and it always lies between 0 and 1. *)
Theorem similarity_spec (a b : string) :
  (Z.of_nat (Nat.max (length a) (length b)) < 2 ^ 53)%Z ->
  (a <> "" \/ b <> "" ->
   calculateSimilarity a b
   = (1 - num (levenshteinDistance a b)
          / num (Nat.max (length a) (length b)))%float)
  /\ levenshteinDistance a b = dist (revChars b []) (revChars a [])
  /\ calculateSimilarity a a = 1%float
  /\ ((a = "" /\ b <> "") \/ (a <> "" /\ b = "") ->
      calculateSimilarity a b = 0%float)
  /\ (0 <=? calculateSimilarity a b)%float = true
  /\ (calculateSimilarity a b <=? 1)%float = true.
Proof.
  intros U.
  set (m := Nat.max (length a) (length b)) in *.
  pose proof (levenshteinDistance_max a b) as D. fold m in D.
  assert (a <> "" \/ b <> "" ->
          calculateSimilarity a b
          = (1 - num (levenshteinDistance a b) / num m)%float) as F.
  { intros NE.
    assert (0 < m) as M.
    { unfold m. destruct NE as [NE|NE]; [destruct a | destruct b];
        try contradiction; cbn [length]; lia. }
    destruct (quotient_le1 _ _ D M U) as (_ & Q0 & Q1).
    destruct (string_dec a b) as [<-|N].
    - rewrite calculateSimilarity_refl. apply Prim2SF_inj.
      rewrite sub_spec, Q0 by apply levenshteinDistance_refl. reflexivity.
    - destruct (string_dec a "") as [A|A];
        [|destruct (string_dec b "") as [B|B]].
      + rewrite calculateSimilarity_one_empty by (left; split; congruence).
        apply Prim2SF_inj.
        rewrite sub_spec, Q1 by (apply levenshteinDistance_one_empty; auto).
        reflexivity.
      + rewrite calculateSimilarity_one_empty by (right; split; congruence).
        apply Prim2SF_inj.
        rewrite sub_spec, Q1 by (apply levenshteinDistance_one_empty; auto).
        reflexivity.
      + now apply calculateSimilarity_general. }
  split; [exact F|].
  split; [apply levenshteinDistance_dist|].
  split; [apply calculateSimilarity_refl|].
  split; [apply calculateSimilarity_one_empty|].
  destruct (string_dec a "") as [A|A]; [destruct (string_dec b "") as [B|B]|].
  - subst. now split.
  - rewrite F by auto. apply complement_range, quotient_le1; try assumption.
    unfold m. subst a. destruct b; [contradiction | cbn [length]; lia].
  - rewrite F by auto. apply complement_range, quotient_le1; try assumption.
    unfold m. destruct a; [contradiction | cbn [length]; lia].
Qed.

Lemma similarity_spec_witness :
  (calculateSimilarity "kitten" "sitting"
   = (1 - num (levenshteinDistance "kitten" "sitting")
          / num (Nat.max (length "kitten") (length "sitting")))%float)
  /\ levenshteinDistance "kitten" "sitting" = 3
  /\ (0 <=? calculateSimilarity "kitten" "sitting")%float = true
  /\ (calculateSimilarity "kitten" "sitting" <=? 1)%float = true.
Proof.
  destruct (similarity_spec "kitten" "sitting") as (F & L & _ & _ & R0 & R1).
  - vm_compute. reflexivity.
  - split; [apply F; left; discriminate|].
    split; [rewrite L; vm_compute; reflexivity|].
    split; [exact R0 | exact R1].
Defined.

(** C7, counterexample: for two empty strings the quotient is 0/0 and
    the formula gives NaN, while the similarity is 1. *)
Lemma similarity_formula_nan_on_empty :
  calculateSimilarity "" "" = 1%float
  /\ (1 - num (levenshteinDistance "" "")
          / num (Nat.max (length "") (length "")))%float = nan
  /\ calculateSimilarity "" ""
     <> (1 - num (levenshteinDistance "" "")
             / num (Nat.max (length "") (length "")))%float.
Proof.
  split; [reflexivity|]. split; [vm_compute; reflexivity|].
  intros H. apply (f_equal PrimFloat.is_nan) in H. vm_compute in H.
  discriminate H.
Qed.

(** * Further properties of the answer matcher *)

Lemma dist_sym (x : list ascii) : forall y, dist x y = dist y x.
Proof.
  induction x as [|c x IHx]; intros y.
  - now rewrite dist_nil_r.
  - induction y as [|d y IHy].
    + now rewrite dist_nil_r.
    + rewrite !dist_cons, IHy, (IHx (d :: y)), (IHx y), (Ascii.eqb_sym d c).
      lia.
Qed.

Lemma dist_zero (x : list ascii) : forall y, dist x y = 0 -> x = y.
Proof.
  induction x as [|c x IHx]; intros y H.
  - destruct y; [reflexivity | discriminate H].
  - destruct y as [|d y]; [rewrite dist_nil_r in H; discriminate H|].
    rewrite dist_cons in H.
    destruct (Ascii.eqb_spec c d) as [->|Hne]; [|lia].
    f_equal. apply IHx. lia.
Qed.

Lemma dist_lengths (x : list ascii) :
  forall y,
    List.length x <= dist x y + List.length y
    /\ List.length y <= dist x y + List.length x.
Proof.
  induction x as [|c x IHx]; intros y.
  - cbn [dist List.length]. lia.
  - induction y as [|d y IHy].
    + rewrite dist_nil_r. cbn [List.length]. lia.
    + rewrite dist_cons. cbn [List.length] in *.
      pose proof (IHx (d :: y)) as H1. pose proof (IHx y) as H2.
      cbn [List.length] in H1.
      destruct (Ascii.eqb c d); lia.
Qed.

Lemma dist_triangle_bounded (n : nat) :
  forall x y z,
    List.length x + List.length y + List.length z <= n ->
    dist x z <= dist x y + dist y z.
Proof.
  induction n as [|n IH]; intros x y z Hn.
  - destruct x, y, z; cbn [List.length] in Hn; lia.
  - destruct x as [|a x].
    { cbn [dist]. pose proof (dist_lengths y z). lia. }
    destruct z as [|c z].
    { rewrite !dist_nil_r. pose proof (dist_lengths (a :: x) y). lia. }
    destruct y as [|b y].
    { rewrite dist_nil_r.
      change (dist [] (c :: z)) with (List.length (c :: z)).
      pose proof (dist_max (a :: x) (c :: z)). lia. }
    cbn [List.length] in Hn.
    pose proof (IH x (b :: y) (c :: z)) as H1.
    pose proof (IH (a :: x) (b :: y) z) as H2.
    pose proof (IH (a :: x) y (c :: z)) as H3.
    pose proof (IH (a :: x) y z) as H4.
    pose proof (IH x y (c :: z)) as H5.
    pose proof (IH x y z) as H6.
    cbn [List.length] in H1, H2, H3, H4, H5, H6.
    specialize (H1 ltac:(lia)). specialize (H2 ltac:(lia)).
    specialize (H3 ltac:(lia)). specialize (H4 ltac:(lia)).
    specialize (H5 ltac:(lia)). specialize (H6 ltac:(lia)).
    pose proof (dist_cons a c x z) as E1.
    pose proof (dist_cons a b x y) as E2.
    pose proof (dist_cons b c y z) as E3.
    destruct (Ascii.eqb_spec a b) as [Hab|Hab];
      destruct (Ascii.eqb_spec b c) as [Hbc|Hbc];
      destruct (Ascii.eqb_spec a c) as [Hac|Hac];
      try congruence; lia.
Qed.

Lemma revChars_rev (s : string) (acc : list ascii) :
  revChars s acc = (rev (list_ascii_of_string s) ++ acc)%list.
Proof.
  revert acc. induction s as [|c s IH]; intros acc; cbn; [reflexivity|].
  now rewrite IH, <- app_assoc.
Qed.

Lemma revChars_inj (a b : string) : revChars a [] = revChars b [] -> a = b.
Proof.
  rewrite !revChars_rev, !app_nil_r. intros H.
  apply (f_equal (@rev ascii)) in H. rewrite !rev_involutive in H.
  rewrite <- (string_of_list_ascii_of_string a),
          <- (string_of_list_ascii_of_string b).
  now f_equal.
Qed.

Lemma levenshteinDistance_symmetric_aux (a b : string) :
  levenshteinDistance a b = levenshteinDistance b a.
Proof. rewrite !levenshteinDistance_dist. apply dist_sym. Qed.

(** X2: the edit distance of two strings
    is 0 exactly when they are the same string. *)
Theorem levenshteinDistance_zero_iff (a b : string) :
  levenshteinDistance a b = 0 <-> a = b.
Proof.
  split.
  - rewrite levenshteinDistance_dist. intros H. apply dist_zero in H.
    symmetry. now apply revChars_inj.
  - intros ->. apply levenshteinDistance_refl.
Qed.

(** X3: the edit distance satisfies the
    triangle inequality: going through a third string is never
    shorter. *)
Theorem levenshteinDistance_triangle (a b c : string) :
  levenshteinDistance a c
  <= levenshteinDistance a b + levenshteinDistance b c.
Proof.
  rewrite !levenshteinDistance_dist.
  rewrite (Nat.add_comm (dist _ _)).
  eapply dist_triangle_bounded. apply Nat.le_refl.
Qed.

(** X4: the edit distance is at least the
    difference of the two lengths and at most the larger length. *)
Theorem levenshteinDistance_bounds (a b : string) :
  Nat.max (length a) (length b) - Nat.min (length a) (length b)
  <= levenshteinDistance a b
  <= Nat.max (length a) (length b).
Proof.
  split; [|apply levenshteinDistance_max].
  rewrite levenshteinDistance_dist.
  pose proof (dist_lengths (revChars b []) (revChars a [])) as H.
  rewrite !revChars_length in H. cbn [List.length] in H. lia.
Qed.

(** X1: the edit distance and the similarity of
    two strings do not depend on the order in which the strings are
    given. *)
Theorem similarity_symmetric (a b : string) :
  levenshteinDistance a b = levenshteinDistance b a
  /\ calculateSimilarity a b = calculateSimilarity b a.
Proof.
  split; [apply levenshteinDistance_symmetric_aux|].
  unfold calculateSimilarity.
  rewrite (String.eqb_sym a b), (orb_comm (Nat.eqb (length a) 0)),
    (levenshteinDistance_symmetric_aux a b), (Nat.max_comm (length a)).
  reflexivity.
Qed.

(** ** The tolerance *)

Lemma SFleb_trans (x y z : spec_float) :
  SFleb x y = true -> SFleb y z = true -> SFleb x z = true.
Proof.
  unfold SFleb, SFcompare.
  destruct x as [sx|sx| |sx mx ex], y as [sy|sy| |sy my ey],
           z as [sz|sz| |sz mz ez];
    try discriminate; try reflexivity;
    repeat match goal with s : bool |- _ => destruct s end;
    try discriminate; try reflexivity.
  all: repeat match goal with
       | |- context [Z.compare ?a ?b] => destruct (Z.compare_spec a b)
       | |- context [Pos.compare_cont Eq ?a ?b] =>
           change (Pos.compare_cont Eq a b) with (Pos.compare a b)
       | |- context [Pos.compare ?a ?b] => destruct (Pos.compare_spec a b)
       end; cbn [CompOpp]; try discriminate; try reflexivity; intros; try lia.
Qed.

Lemma leb_trans (x y z : float) :
  (x <=? y)%float = true -> (y <=? z)%float = true -> (x <=? z)%float = true.
Proof. rewrite !leb_spec. apply SFleb_trans. Qed.

Lemma tolerance_le (t' t : Z) :
  (0 <= t' <= t)%Z -> (t <= 100)%Z ->
  (numZ t' / 100 <=? numZ t / 100)%float = true.
Proof.
  intros Ht' Ht.
  pose (P := fun t : Z =>
    forallb (fun t' => Z.ltb t t' || (numZ t' / 100 <=? numZ t / 100)%float)
            (map Z.of_nat (seq 0 101))).
  assert (HP : P t = true)
    by (apply percent_range; [vm_compute; reflexivity | lia]).
  unfold P in HP. rewrite forallb_forall in HP.
  specialize (HP t'). rewrite orb_true_iff in HP.
  destruct HP as [H|H]; [| |exact H].
  - rewrite <- (Z2Nat.id t') by lia. apply in_map, in_seq. lia.
  - apply Z.ltb_lt in H. lia.
Qed.

Lemma matchesCandidate_le (normalizedUser : string) (lo hi : float)
      (c : string) :
  (lo <=? hi)%float = true ->
  matchesCandidate normalizedUser hi c = true ->
  matchesCandidate normalizedUser lo c = true.
Proof.
  intros Hle. unfold matchesCandidate.
  destruct (String.eqb _ _); [reflexivity|].
  destruct (_ || _); [reflexivity|].
  intros H. eapply leb_trans; eassumption.
Qed.

Lemma anyCandidate_le (normalizedUser : string) (lo hi : float)
      (cs : list string) :
  (lo <=? hi)%float = true ->
  anyCandidate normalizedUser hi cs = true ->
  anyCandidate normalizedUser lo cs = true.
Proof.
  intros Hle. induction cs as [|c cs IH]; cbn [anyCandidate]; [easy|].
  destruct (matchesCandidate normalizedUser hi c) eqn:Hc.
  - now rewrite (matchesCandidate_le _ _ _ _ Hle Hc).
  - intros H. rewrite (IH H). now destruct (matchesCandidate _ lo c).
Qed.

(** The judgement, as a disjunction of its tests. *)
Lemma isCorrect_cases (userAnswer correctAnswer : string) (t : Z) :
  isCorrect userAnswer correctAnswer t
  = anyCandidate (normalizeAnswer userAnswer) (numZ t / 100)
      (extractAcceptableAnswers correctAnswer)
    || (includes (normalizeAnswer correctAnswer) (normalizeAnswer userAnswer)
        || includes (normalizeAnswer userAnswer)
             (normalizeAnswer correctAnswer)
        || String.eqb (normalizeAnswer userAnswer)
             (normalizeAnswer correctAnswer))
    || (numZ t / 100
        <=? calculateSimilarity (normalizeAnswer userAnswer)
              (normalizeAnswer correctAnswer))%float.
Proof.
  unfold isCorrect. cbv zeta.
  destruct (anyCandidate _ _ _); cbn [negb orb]; [reflexivity|].
  destruct (_ || _ || _); cbn [orb]; now destruct (_ <=? _)%float.
Qed.

(** X5: an answer judged correct at some
    tolerance between 0 and 100 is judged correct at every lower
    tolerance: moving the slider down never turns a correct answer
    into a wrong one. *)
Theorem isCorrect_tolerance_monotone (userAnswer correctAnswer : string)
        (t' t : Z) :
  (0 <= t' <= t)%Z -> (t <= 100)%Z ->
  isCorrect userAnswer correctAnswer t = true ->
  isCorrect userAnswer correctAnswer t' = true.
Proof.
  intros Ht' Ht. pose proof (tolerance_le t' t Ht' Ht) as Hle.
  rewrite !isCorrect_cases, !orb_true_iff.
  intros [[H|H]|H].
  - left. left. eapply anyCandidate_le; eassumption.
  - left. right. exact H.
  - right. eapply leb_trans; eassumption.
Qed.

Lemma isCorrect_tolerance_monotone_witness :
  isCorrect "Wellingtun" "<strong>Duke of Wellington</strong>" 40 = true.
Proof.
  apply (isCorrect_tolerance_monotone _ _ 40 60); [lia | lia |].
  vm_compute. reflexivity.
Defined.

(** ** Letter case *)

Lemma toLowerChar_tag (c d : ascii) :
  (c = "<" \/ c = ">")%char ->
  Ascii.eqb c (toLowerChar d) = Ascii.eqb c d.
Proof.
  intros [->| ->];
    destruct d as [[] [] [] [] [] [] [] []]; vm_compute; reflexivity.
Qed.

Lemma many_toLowerCase (s : string) (prev prev' : option ascii) :
  many (isNot ">") (one (chEq false ">") (fun _ _ => Some 0)) prev
       (toLowerCase s)
  = many (isNot ">") (one (chEq false ">") (fun _ _ => Some 0)) prev' s.
Proof.
  revert prev prev'.
  induction s as [|d r IH]; intros prev prev'; cbn [toLowerCase many];
    [reflexivity|].
  unfold isNot at 1 3. rewrite Ascii.eqb_sym, toLowerChar_tag by now right.
  rewrite (Ascii.eqb_sym ">" d).
  rewrite (IH (Some (toLowerChar d)) (Some d)).
  destruct (negb (Ascii.eqb d ">")); [destruct (many _ _ _ r)|];
    try reflexivity;
    cbn [one chEq]; rewrite toLowerChar_tag by (now right); reflexivity.
Qed.

Lemma reTag_toLowerCase (s : string) (prev prev' : option ascii) :
  matchHere false reTag prev (toLowerCase s) = matchHere false reTag prev' s.
Proof.
  destruct s as [|d r]; [reflexivity|].
  cbn [reTag matchHere toLowerCase one chEq].
  rewrite toLowerChar_tag by now left.
  destruct (Ascii.eqb "<" d); [|reflexivity].
  f_equal. apply many_toLowerCase.
Qed.

Lemma strip_toLowerCase (s : string) :
  forall k prev prev',
    replaceAllFrom false reTag "" k prev (toLowerCase s)
    = toLowerCase (replaceAllFrom false reTag "" k prev' s).
Proof.
  induction s as [|d r IH]; intros k prev prev'.
  - destruct k; reflexivity.
  - destruct k as [|k].
    + cbn [replaceAllFrom toLowerCase].
      change (matchHere false reTag prev
                (String (toLowerChar d) (toLowerCase r)))
        with (matchHere false reTag prev (toLowerCase (String d r))).
      rewrite (reTag_toLowerCase (String d r) prev prev').
      destruct (matchHere false reTag prev' (String d r)) as [[|n]|];
        cbn [toLowerCase append].
      * f_equal. apply IH.
      * apply IH.
      * f_equal. apply IH.
    + cbn [replaceAllFrom toLowerCase]. apply IH.
Qed.

Lemma normalizeAnswer_toLowerCase (s : string) :
  normalizeAnswer (toLowerCase s) = normalizeAnswer s.
Proof.
  unfold normalizeAnswer, replaceAll at 4 8. cbv zeta.
  rewrite (strip_toLowerCase s 0 None None).
  rewrite (toLowerCase_fixed (toLowerCase _)) by apply every_toLowerCase.
  reflexivity.
Qed.

(** X6: the judgement does not depend on
    the letter case of the typed answer: two answers that are the same
    once in lower case are judged alike. *)
Theorem isCorrect_case_insensitive (userAnswer userAnswer' : string)
        (correctAnswer : string) (t : Z) :
  toLowerCase userAnswer = toLowerCase userAnswer' ->
  isCorrect userAnswer correctAnswer t
  = isCorrect userAnswer' correctAnswer t.
Proof.
  intros H. unfold isCorrect.
  rewrite <- (normalizeAnswer_toLowerCase userAnswer), H,
    normalizeAnswer_toLowerCase.
  reflexivity.
Qed.

Lemma isCorrect_case_insensitive_witness :
  isCorrect "NAPOLEON Bonaparte" "<strong>Napoleon</strong> Bonaparte" 100
  = isCorrect "napoleon bonaparte" "<strong>Napoleon</strong> Bonaparte" 100.
Proof. apply isCorrect_case_insensitive. reflexivity. Defined.

(** ** The shape of candidates and of normalized answers *)

Lemma endsNonSpace_trimEnd (s : string) :
  endsNonSpace s = true -> trimEnd s = s.
Proof.
  induction s as [|c r IH]; [reflexivity|].
  cbn [endsNonSpace trimEnd]. destruct r as [|d r'].
  - cbn [trimEnd]. intros H. apply negb_true_iff in H. now rewrite H.
  - intros H. rewrite (IH H). reflexivity.
Qed.

Lemma trim_idem (s : string) : trim (trim s) = trim s.
Proof.
  unfold trim at 1 2.
  pose proof (trimStart_head s) as Hhead.
  destruct (trimEnd_shape (trimStart s)) as [Hend Hfirst].
  change (trimEnd (trimStart s)) with (trim s) in *.
  destruct (trim s) as [|c u] eqn:E; [reflexivity|].
  assert (Hc : isSpace c = false).
  { destruct (trimStart s) as [|c' t]; [discriminate Hfirst|].
    cbn [first] in Hfirst. now injection Hfirst as ->. }
  cbn [trimStart]. rewrite Hc. now apply endsNonSpace_trimEnd.
Qed.

Lemma In_filter_map_trim (c : string) (g : string -> string)
      (ms : list string) :
  In c (filter longEnough (map (fun m => trim (g m)) ms)) ->
  2 <= length c /\ trim c = c.
Proof.
  rewrite filter_In, in_map_iff. intros [(m & <- & _) Hlong].
  split; [|apply trim_idem].
  unfold longEnough in Hlong. apply Nat.ltb_lt in Hlong. lia.
Qed.

(** X7: every candidate that
    [extractAcceptableAnswers] returns has at least two characters and
    no white space at its start or end. *)
Theorem candidates_trimmed (answerField c : string) :
  In c (extractAcceptableAnswers answerField) ->
  2 <= length c /\ trim c = c.
Proof.
  unfold extractAcceptableAnswers. cbv zeta. rewrite setOf_In.
  intros [H _]. rewrite !in_app_iff in H. destruct H as [H|[H|H]].
  - unfold strongCandidates in H.
    now apply In_filter_map_trim in H.
  - unfold acceptCandidates in H. cbv zeta in H.
    now apply (In_filter_map_trim c
                 (fun m => replaceAll false reTag ""
                             (trim (replaceFirst true reAcceptHead "" m))))
      in H.
  - unfold primaryCandidate in H. cbv zeta in H.
    destruct (longEnough _) eqn:Hlong; [|destruct H].
    destruct H as [<-|[]]. split; [|apply trim_idem].
    unfold longEnough in Hlong. apply Nat.ltb_lt in Hlong. lia.
Qed.

Lemma candidates_trimmed_witness :
  2 <= length "Arthur Wellesley"
  /\ trim "Arthur Wellesley" = "Arthur Wellesley".
Proof.
  apply (candidates_trimmed
           "<strong>Duke of Wellington</strong> (accept Arthur Wellesley )").
  vm_compute. tauto.
Defined.

Lemma answerChar_of_word (c : ascii) :
  isLower c = true -> negb (isPunct c) = true -> isSpace c = false ->
  isAnswerChar c = true.
Proof.
  destruct c as [[] [] [] [] [] [] [] []]; vm_compute; intros; congruence.
Qed.

Lemma answerChars_tidy (s : string) :
  forall afterSpace,
    tidyFrom afterSpace s = true ->
    every isLower s = true ->
    every (fun c => negb (isPunct c)) s = true ->
    every isAnswerChar s = true.
Proof.
  induction s as [|c r IH]; intros a Ht Hl Hp; [reflexivity|].
  cbn [tidyFrom every] in *.
  apply andb_true_iff in Hl. destruct Hl as [Hl Hl'].
  apply andb_true_iff in Hp. destruct Hp as [Hp Hp'].
  destruct (isSpace c) eqn:Hs.
  - apply andb_true_iff in Ht. destruct Ht as [Ht Ht'].
    apply andb_true_iff in Ht. destruct Ht as [_ Hc].
    apply Ascii.eqb_eq in Hc. subst c.
    rewrite (IH true Ht' Hl' Hp'). reflexivity.
  - rewrite (answerChar_of_word c Hl Hp Hs), (IH false Ht Hl' Hp').
    reflexivity.
Qed.

(** X8: a normalized answer consists of
    lower-case ASCII letters, digits, underscores and single spaces
    only, and every space stands between two other characters. *)
Theorem normalizeAnswer_alphabet (answer : string) :
  every isAnswerChar (normalizeAnswer answer) = true
  /\ tidy (normalizeAnswer answer) = true.
Proof.
  destruct (normalizeAnswer_shape answer) as (Ht & Hl & Hp).
  split; [|exact Ht].
  unfold tidy in Ht. destruct (normalizeAnswer answer) as [|c r] eqn:E;
    [reflexivity|].
  now apply (answerChars_tidy _ true).
Qed.

(** * Experience levels and points *)

Section Levels.

Import XpSystem.

Local Open Scope Z_scope.

Ltac thresholds :=
  unfold getXPForLevel;
  repeat (match goal with
          | |- context [Z.leb ?x ?y] => destruct (Z.leb_spec x y)
          end; cbv beta iota; try lia).

Lemma getXPForLevel_lt (a b : Z) :
  0 <= a -> a < b -> getXPForLevel a < getXPForLevel b.
Proof. intros Ha Hab. thresholds. Qed.

Lemma getXPForLevel_le (a b : Z) :
  a <= b -> getXPForLevel a <= getXPForLevel b.
Proof. intros Hab. thresholds. Qed.

Lemma levelLoop_spec (xp : Z) (rounds : nat) :
  forall level,
    1 <= level -> level + Z.of_nat rounds = 101 ->
    (2 <= level -> getXPForLevel (level - 1) <= xp) ->
    let L := levelLoop xp level rounds in
    1 <= L <= 100
    /\ (L = 1 <-> xp < 200)
    /\ (2 <= L -> getXPForLevel L <= xp)
    /\ (L < 100 -> xp < getXPForLevel (L + 1)).
Proof.
  induction rounds as [|rounds IH]; intros level H1 Hsum Hinv; cbn [levelLoop].
  - assert (level = 101) by lia. subst level.
    specialize (Hinv ltac:(lia)). change (getXPForLevel (101 - 1)) with 146000 in Hinv.
    cbv zeta. change (getXPForLevel 100) with 146000. lia.
  - destruct (Z.ltb_spec xp (getXPForLevel level)) as [Hlt|Hge].
    + cbv zeta. destruct (Z.eq_dec level 1) as [->|Hne].
      * change (Z.max 1 (1 - 1)) with 1. change (getXPForLevel 1) with 100 in Hlt.
        change (getXPForLevel (1 + 1)) with 200. lia.
      * replace (Z.max 1 (level - 1)) with (level - 1) by lia.
        replace (level - 1 + 1) with level by lia.
        specialize (Hinv ltac:(lia)).
        destruct (Z.eq_dec level 2) as [->|Hne2].
        -- change (getXPForLevel 2) with 200 in *. lia.
        -- assert (getXPForLevel 2 <= getXPForLevel (level - 1))
             by (apply getXPForLevel_le; lia).
           change (getXPForLevel 2) with 200 in *. lia.
    + apply IH; try lia.
      intros _. replace (level + 1 - 1) with level by lia. exact Hge.
Qed.

Lemma getLevelFromXP_spec (xp : Z) :
  let L := getLevelFromXP xp in
  1 <= L <= 100
  /\ (L = 1 <-> xp < 200)
  /\ (2 <= L -> getXPForLevel L <= xp)
  /\ (L < 100 -> xp < getXPForLevel (L + 1)).
Proof.
  unfold getLevelFromXP. destruct (Z.ltb_spec xp 0) as [Hneg|Hpos].
  - cbv zeta. change (getXPForLevel (1 + 1)) with 200. lia.
  - apply levelLoop_spec; lia.
Qed.

Lemma getLevelFromXP_le (xp xp' : Z) :
  xp <= xp' -> getLevelFromXP xp <= getLevelFromXP xp'.
Proof.
  intros Hle.
  destruct (getLevelFromXP_spec xp) as (Hr & H1 & Hlow & _).
  destruct (getLevelFromXP_spec xp') as (Hr' & H1' & _ & Hup').
  destruct (Z.le_gt_cases (getLevelFromXP xp) (getLevelFromXP xp'))
    as [|Hgt]; [assumption|exfalso].
  specialize (Hlow ltac:(lia)). specialize (Hup' ltac:(lia)).
  assert (getXPForLevel (getLevelFromXP xp' + 1)
          <= getXPForLevel (getLevelFromXP xp))
    by (apply getXPForLevel_le; lia).
  lia.
Qed.

End Levels.

(** X9: the XP thresholds grow strictly with the level: from level 0
    on, a higher level always needs more XP. *)
Theorem getXPForLevel_increasing (a b : Z) :
  (0 <= a)%Z -> (a < b)%Z ->
  (XpSystem.getXPForLevel a < XpSystem.getXPForLevel b)%Z.
Proof. apply getXPForLevel_lt. Qed.

Lemma getXPForLevel_increasing_witness :
  (XpSystem.getXPForLevel 10 < XpSystem.getXPForLevel 11)%Z.
Proof. apply (getXPForLevel_increasing 10 11); lia. Defined.

(** X10: the level of an XP total lies between 1 and 100 and is
    bracketed by the thresholds: from level 2 on the total has reached
    the threshold of its level, and below level 100 it has not reached
    the next one.  Level 1 lasts until 200 XP, the threshold of level
    2. *)
Theorem getLevelFromXP_bracket (xp : Z) :
  let L := XpSystem.getLevelFromXP xp in
  (1 <= L <= 100)%Z
  /\ (L = 1%Z <-> (xp < 200)%Z)
  /\ ((2 <= L)%Z -> (XpSystem.getXPForLevel L <= xp)%Z)
  /\ ((L < 100)%Z -> (xp < XpSystem.getXPForLevel (L + 1))%Z).
Proof. apply getLevelFromXP_spec. Qed.

(** X11: more XP never gives a lower level. *)
Theorem getLevelFromXP_monotone (xp xp' : Z) :
  (xp <= xp')%Z ->
  (XpSystem.getLevelFromXP xp <= XpSystem.getLevelFromXP xp')%Z.
Proof. apply getLevelFromXP_le. Qed.

Lemma getLevelFromXP_monotone_witness :
  (XpSystem.getLevelFromXP 950 <= XpSystem.getLevelFromXP 1000)%Z.
Proof. apply (getLevelFromXP_monotone 950 1000); lia. Defined.

(** X12: for an XP total that is not
    negative, the progress shown is the XP gained since the threshold
    of the level (since 0 at level 1); it is never negative, the XP
    needed for the next level is positive, and below level 100 the
    progress stays under it. *)
Theorem calculateLevelProgress_bounds (xp : Z) :
  (0 <= xp)%Z ->
  let r := XpSystem.calculateLevelProgress xp in
  XpSystem.level r = XpSystem.getLevelFromXP xp
  /\ (0 <= XpSystem.progress r)%Z
  /\ (0 < XpSystem.needed r)%Z
  /\ ((XpSystem.level r < 100)%Z ->
      (XpSystem.progress r < XpSystem.needed r)%Z)
  /\ (XpSystem.level r = 1%Z -> XpSystem.progress r = xp)
  /\ ((2 <= XpSystem.level r)%Z ->
      (XpSystem.getXPForLevel (XpSystem.level r) + XpSystem.progress r
       = xp)%Z).
Proof.
  intros Hxp. unfold XpSystem.calculateLevelProgress.
  cbn [XpSystem.level XpSystem.progress XpSystem.needed].
  destruct (getLevelFromXP_spec xp) as (Hr & H1 & Hlow & Hup).
  set (L := XpSystem.getLevelFromXP xp) in *.
  assert (Hnext : (XpSystem.getXPForLevel L
                   < XpSystem.getXPForLevel (L + 1))%Z)
    by (apply getXPForLevel_lt; lia).
  destruct (Z.eqb_spec L 1) as [HL|HL].
  - rewrite HL in *. change (XpSystem.getXPForLevel (1 + 1)) with 200%Z in *.
    repeat split; lia.
  - specialize (Hlow ltac:(lia)). repeat split; lia.
Qed.

Lemma calculateLevelProgress_bounds_witness :
  let r := XpSystem.calculateLevelProgress 1250 in
  XpSystem.level r = XpSystem.getLevelFromXP 1250
  /\ (0 <= XpSystem.progress r)%Z
  /\ (0 < XpSystem.needed r)%Z
  /\ ((XpSystem.level r < 100)%Z ->
      (XpSystem.progress r < XpSystem.needed r)%Z)
  /\ (XpSystem.level r = 1%Z -> XpSystem.progress r = 1250%Z)
  /\ ((2 <= XpSystem.level r)%Z ->
      (XpSystem.getXPForLevel (XpSystem.level r) + XpSystem.progress r
       = 1250)%Z).
Proof. apply (calculateLevelProgress_bounds 1250). lia. Defined.

(** X13: for every level from 1 to 100 the
    tier found by [getTierForLevel] contains the level, and the rank
    title is the name of that tier followed by the position of the
    level within the tier as a Roman numeral. *)
Theorem rank_title_matches_tier (level : Z) :
  (1 <= level <= 100)%Z ->
  let tier := XpSystem.getTierForLevel level in
  (XpSystem.minLevel tier <= level <= XpSystem.maxLevel tier)%Z
  /\ XpSystem.getRankTitle level
     = XpSystem.name tier ++ " "
       ++ roman (Z.to_nat (level - XpSystem.minLevel tier + 1)).
Proof.
  intros Hrange. cbv zeta.
  pose (P := fun level : Z =>
    (level =? 0)%Z
    || (let tier := XpSystem.getTierForLevel level in
        (XpSystem.minLevel tier <=? level)%Z
        && (level <=? XpSystem.maxLevel tier)%Z
        && String.eqb (XpSystem.getRankTitle level)
             (XpSystem.name tier ++ " "
              ++ roman (Z.to_nat (level - XpSystem.minLevel tier + 1))))).
  assert (HP : P level = true).
  { apply percent_range; [vm_compute; reflexivity | lia]. }
  unfold P in HP. apply orb_true_iff in HP. destruct HP as [H0|HP].
  - apply Z.eqb_eq in H0. lia.
  - cbv zeta in HP. apply andb_true_iff in HP. destruct HP as [HP Ht].
    apply andb_true_iff in HP. destruct HP as [Hlo Hhi].
    apply Z.leb_le in Hlo. apply Z.leb_le in Hhi. apply String.eqb_eq in Ht.
    split; [lia | exact Ht].
Qed.

Lemma rank_title_matches_tier_witness :
  let tier := XpSystem.getTierForLevel 34 in
  (XpSystem.minLevel tier <= 34 <= XpSystem.maxLevel tier)%Z
  /\ XpSystem.getRankTitle 34
     = XpSystem.name tier ++ " "
       ++ roman (Z.to_nat (34 - XpSystem.minLevel tier + 1)).
Proof. apply (rank_title_matches_tier 34). lia. Defined.

Section Points.

Import Profile.

Local Open Scope Z_scope.

Lemma calculatePoints_values (difficulty : string) :
  In (Leaderboard.calculatePoints difficulty) [0; 10; 20; 30; 50].
Proof.
  unfold Leaderboard.calculatePoints, Leaderboard.POINTS_VALUES.
  cbn [property].
  repeat match goal with
         | |- context [String.eqb ?a ?b] => destruct (String.eqb a b)
         end; cbn; tauto.
Qed.

Lemma updatePoints_profile (verified : bool) (p : profile) (tol : Z)
      (stored : bool) (d : string) (c : bool) :
  exists p',
    userProfile (updatePointsAndLeaderboard verified (Some p) tol stored d c)
    = Some p'.
Proof.
  unfold updatePointsAndLeaderboard.
  repeat match goal with
         | |- context [if ?b then _ else _] => destruct b
         end; cbn [userProfile]; eexists; reflexivity.
Qed.

(** The in-memory effect of one answer on the streak fields. *)
Lemma updatePoints_streak (p : profile) (tol : Z) (stored : bool)
      (d : string) (c : bool) :
  exists p',
    userProfile (updatePointsAndLeaderboard true (Some p) tol stored d c)
    = Some p'
    /\ currentStreak p'
       = Some (if c then orZero (currentStreak p) + 1 else 0)
    /\ bestStreak p'
       = (if c then Some (Z.max (orZero (bestStreak p))
                                (orZero (currentStreak p) + 1))
          else bestStreak p).
Proof.
  unfold updatePointsAndLeaderboard. cbn [negb].
  destruct c; cbn [negb].
  - repeat match goal with
           | |- context [if ?b then _ else _] => destruct b
           end; cbn [userProfile]; eexists; repeat split.
  - eexists; repeat split.
Qed.

Lemma repeat_snoc (k : nat) : (repeat true k ++ [true])%list = repeat true (S k).
Proof. symmetry. apply repeat_cons. Qed.

Lemma endsCorrect_zero (l : list bool) : endsCorrect l 0.
Proof. exists l. cbn. now rewrite app_nil_r. Qed.

Lemma endsCorrect_snoc (l : list bool) (k : nat) :
  endsCorrect l k -> endsCorrect (l ++ [true]) (S k).
Proof.
  intros [before ->]. exists before.
  now rewrite <- app_assoc, repeat_snoc.
Qed.

Lemma endsCorrect_snoc_inv (l : list bool) (k : nat) (b : bool) :
  endsCorrect (l ++ [b]) (S k) -> b = true /\ endsCorrect l k.
Proof.
  intros [before H]. rewrite <- repeat_snoc, app_assoc in H.
  apply app_inj_tail in H. destruct H as [-> ->]. split; [reflexivity|].
  now exists before.
Qed.

Lemma endsCorrect_hasStreak (l : list bool) (k : nat) :
  endsCorrect l k -> hasStreak l k.
Proof. intros [before ->]. exists before, []. now rewrite app_nil_r. Qed.

Lemma hasStreak_snoc (l : list bool) (k : nat) (b : bool) :
  hasStreak l k -> hasStreak (l ++ [b]) k.
Proof.
  intros (before & after & ->). exists before, (after ++ [b])%list.
  now rewrite <- !app_assoc.
Qed.

Lemma hasStreak_snoc_inv (l : list bool) (k : nat) (b : bool) :
  hasStreak (l ++ [b]) k -> hasStreak l k \/ endsCorrect (l ++ [b]) k.
Proof.
  intros (before & after & H).
  induction after as [|x after' _] using rev_ind.
  - right. exists before. now rewrite app_nil_r in H.
  - left. rewrite !app_assoc in H. apply app_inj_tail in H.
    destruct H as [-> _]. exists before, after'. now rewrite app_assoc.
Qed.

Lemma endsCorrect_le (l : list bool) (k cur : nat) :
  ~ endsCorrect l (S cur) -> endsCorrect l k -> (k <= cur)%nat.
Proof.
  intros Hno [before ->].
  destruct (Nat.le_gt_cases k cur) as [|Hgt]; [assumption|exfalso].
  apply Hno. exists (before ++ repeat true (k - S cur)%nat)%list.
  rewrite <- app_assoc, <- repeat_app. do 2 f_equal. lia.
Qed.

Lemma streaksOf_step (l : list bool) (p p' : profile) (tol : Z)
      (stored : bool) (d : string) (c : bool) :
  streaksOf l p ->
  userProfile (updatePointsAndLeaderboard true (Some p) tol stored d c)
  = Some p' ->
  streaksOf (l ++ [c]) p'.
Proof.
  intros (cur & best & Hcur & Hbest & Hend & Hmax & Hhas & Hlong) Hp'.
  destruct (updatePoints_streak p tol stored d c) as (q & Hq & Hc & Hb).
  rewrite Hq in Hp'. injection Hp' as <-.
  rewrite Hcur, Hbest in *. cbn [orZero] in *.
  destruct c.
  - exists (S cur), (Nat.max best (S cur)). repeat split.
    + rewrite Hc. f_equal. lia.
    + rewrite Hb. f_equal. lia.
    + now apply endsCorrect_snoc.
    + intros H. apply endsCorrect_snoc_inv in H. now destruct H.
    + destruct (Nat.le_gt_cases (S cur) best) as [Hle|Hgt].
      * rewrite Nat.max_l by assumption. now apply hasStreak_snoc.
      * rewrite Nat.max_r by lia.
        now apply endsCorrect_hasStreak, endsCorrect_snoc.
    + intros k Hk. apply hasStreak_snoc_inv in Hk. destruct Hk as [Hk|Hk].
      * specialize (Hlong k Hk). lia.
      * destruct k as [|k]; [lia|].
        apply endsCorrect_snoc_inv in Hk. destruct Hk as [_ Hk].
        pose proof (endsCorrect_le l k cur Hmax Hk). lia.
  - exists 0%nat, best. repeat split.
    + exact Hc.
    + rewrite Hb. reflexivity.
    + apply endsCorrect_zero.
    + intros H. apply endsCorrect_snoc_inv in H. now destruct H.
    + now apply hasStreak_snoc.
    + intros k Hk. apply hasStreak_snoc_inv in Hk. destruct Hk as [Hk|Hk].
      * now apply Hlong.
      * destruct k as [|k]; [lia|].
        apply endsCorrect_snoc_inv in Hk. now destruct Hk.
Qed.

Ltac totals :=
  split; [reflexivity|];
  cbn [userProfile totalPoints questionsAnswered username orZero];
  try change (0 =? 0) with true; cbv beta iota;
  repeat split; intros; (lia || congruence).

(** The in-memory effect of one answer on the totals. *)
Lemma updatePoints_totals (verified : bool) (p : profile) (tol : Z)
      (stored : bool) (d : string) (c : bool) :
  let earned :=
    if verified && c && (80 <=? tol) && stored
    then Leaderboard.calculatePoints d else 0 in
  exists p',
    userProfile (updatePointsAndLeaderboard verified (Some p) tol stored d c)
    = Some p'
    /\ orZero (totalPoints p') = orZero (totalPoints p) + earned
    /\ orZero (questionsAnswered p')
       = orZero (questionsAnswered p) + (if earned =? 0 then 0 else 1)
    /\ (earned = 0 ->
        totalPoints p' = totalPoints p
        /\ questionsAnswered p' = questionsAnswered p)
    /\ (earned <> 0 ->
        totalPoints p' = Some (orZero (totalPoints p) + earned)
        /\ questionsAnswered p' = Some (orZero (questionsAnswered p) + 1))
    /\ username p' = username p.
Proof.
  unfold updatePointsAndLeaderboard. cbv zeta.
  destruct verified; cbn [negb andb]; [|exists p; totals].
  destruct c; cbn [negb andb]; [|eexists; totals].
  rewrite Z.leb_antisym.
  destruct (tol <? 80); cbn [negb andb]; [eexists; totals|].
  destruct (Z.eqb_spec (Leaderboard.calculatePoints d) 0) as [E|E].
  { destruct stored; rewrite ?E; eexists; totals. }
  destruct stored; cbn [negb]; [|eexists; totals].
  eexists. split; [reflexivity|].
  cbn [userProfile totalPoints questionsAnswered username orZero].
  destruct (Z.eqb_spec (Leaderboard.calculatePoints d) 0) as [E'|_];
    [contradiction|].
  repeat split; intros; (lia || congruence).
Qed.

End Points.

(** X14: an answer changes the XP total of a profile only
    when the user is verified, the answer is correct, the tolerance is
    at least 80 and the new total could be stored; the total then grows
    by the points of the question (10, 20, 30 or 50 by the first letter
    of its id, 0 for any other id), and the count of answered questions
    by one unless the question carries no points.  The total never
    goes down. *)
Theorem xp_earned (verified : bool) (p : Profile.profile) (tol : Z)
        (stored : bool) (difficulty : string) (isCorrect : bool) :
  let earned :=
    if verified && isCorrect && (80 <=? tol)%Z && stored
    then Leaderboard.calculatePoints difficulty else 0%Z in
  exists p',
    Profile.userProfile
      (Profile.updatePointsAndLeaderboard verified (Some p) tol stored
         difficulty isCorrect) = Some p'
    /\ (Profile.orZero (Profile.totalPoints p')
        = Profile.orZero (Profile.totalPoints p) + earned)%Z
    /\ (Profile.orZero (Profile.questionsAnswered p')
        = Profile.orZero (Profile.questionsAnswered p)
          + (if (earned =? 0)%Z then 0 else 1))%Z
    /\ In earned [0; 10; 20; 30; 50]%Z
    /\ (Profile.orZero (Profile.totalPoints p)
        <= Profile.orZero (Profile.totalPoints p'))%Z.
Proof.
  cbv zeta.
  destruct (updatePoints_totals verified p tol stored difficulty isCorrect)
    as (p' & Hp' & Ht & Hq & _).
  exists p'. split; [exact Hp'|]. split; [exact Ht|]. split; [exact Hq|].
  assert (Hin : In (if verified && isCorrect && (80 <=? tol)%Z && stored
                    then Leaderboard.calculatePoints difficulty else 0%Z)
                   [0; 10; 20; 30; 50]%Z).
  { destruct (verified && isCorrect && (80 <=? tol)%Z && stored).
    - apply calculatePoints_values.
    - now left. }
  split; [exact Hin|].
  rewrite Ht. cbn in Hin. lia.
Qed.

Lemma streaks_fold (tol : Z) (stored : bool) (h : list History.entry) :
  forall l p,
    streaksOf l p ->
    exists p',
      fold_left (Profile.afterAnswer tol stored) h (Some p) = Some p'
      /\ streaksOf (l ++ map wasCorrect h) p'.
Proof.
  induction h as [|e h IH]; intros l p Hp; cbn [fold_left map].
  - exists p. now rewrite app_nil_r.
  - unfold Profile.afterAnswer at 2.
    destruct (updatePoints_profile true p tol stored
                (charAt0 (History.id e))
                (String.eqb (History.status e) "correct")) as (q & Hq).
    rewrite Hq.
    destruct (IH (l ++ [wasCorrect e])%list q) as (p' & Hp' & Hs).
    { eapply streaksOf_step; [exact Hp | exact Hq]. }
    exists p'. split; [exact Hp'|]. now rewrite <- app_assoc in Hs.
Qed.

(** X15: starting from a fresh profile, after the
    answers of a history have been counted one by one, the current
    streak of the profile is the number of correct answers the history
    ends with, and the best streak is the length of the longest row of
    successive correct answers in it; a skipped question breaks a row
    like a wrong answer. *)
Theorem streaks_counted (tol : Z) (stored : bool)
        (h : list History.entry) :
  exists p,
    fold_left (Profile.afterAnswer tol stored) h (Some Profile.emptyProfile)
    = Some p
    /\ streaksOf (map wasCorrect h) p.
Proof.
  apply (streaks_fold tol stored h [] Profile.emptyProfile).
  exists 0, 0. repeat split.
  - exists []. reflexivity.
  - intros [before H]. destruct before; discriminate H.
  - exists [], []. reflexivity.
  - intros k (before & after & H). destruct before; [|discriminate H].
    destruct k; [lia | discriminate H].
Qed.

Lemma retroactive_fold (tol : Z) (h : list History.entry) :
  (80 <= tol)%Z ->
  forall p t c,
    Profile.totalPoints p = Some t ->
    exists p',
      fold_left (Profile.afterAnswer tol true) h (Some p) = Some p'
      /\ Profile.totalPoints p'
         = Some (fst (fold_left
                        (fun (acc : Z * Z) (entry : History.entry) =>
                           let (totalPoints, correctAnswers) := acc in
                           if String.eqb (History.status entry) "correct"
                           then
                             let points :=
                               Leaderboard.calculatePoints
                                 (charAt0 (History.id entry)) in
                             (totalPoints + points, correctAnswers + 1)%Z
                           else (totalPoints, correctAnswers))
                        h (t, c)))
      /\ (Profile.questionsAnswered p = Some c ->
          Forall (fun entry =>
                    wasCorrect entry = true ->
                    Leaderboard.calculatePoints (charAt0 (History.id entry))
                    <> 0%Z) h ->
          Profile.questionsAnswered p'
          = Some (snd (fold_left
                         (fun (acc : Z * Z) (entry : History.entry) =>
                            let (totalPoints, correctAnswers) := acc in
                            if String.eqb (History.status entry) "correct"
                            then
                              let points :=
                                Leaderboard.calculatePoints
                                  (charAt0 (History.id entry)) in
                              (totalPoints + points, correctAnswers + 1)%Z
                            else (totalPoints, correctAnswers))
                         h (t, c)))).
Proof.
  intros Htol. induction h as [|e h IH]; intros p t c Ht; cbn [fold_left].
  - exists p. cbn [fst snd]. repeat split; auto.
  - unfold Profile.afterAnswer at 2.
    destruct (updatePoints_totals true p tol true (charAt0 (History.id e))
                (String.eqb (History.status e) "correct"))
      as (q & Hq & Htot & _ & Hzero & Hnz & _).
    cbv zeta in Htot, Hzero, Hnz. rewrite Hq.
    assert (H80 : (80 <=? tol)%Z = true) by now apply Z.leb_le.
    rewrite H80 in *. cbn [andb] in *. rewrite andb_true_r in *.
    rewrite Ht in *. cbn [Profile.orZero] in *.
    destruct (String.eqb (History.status e) "correct") eqn:Hc.
    + cbv zeta.
      destruct (Z.eq_dec (Leaderboard.calculatePoints
                            (charAt0 (History.id e))) 0) as [E|E].
      * destruct (Hzero E) as [Hq1 Hq2].
        destruct (IH q (t + Leaderboard.calculatePoints
                              (charAt0 (History.id e)))%Z (c + 1)%Z)
          as (p' & Hp' & Htp & Hcnt).
        { rewrite Hq1, E. f_equal. lia. }
        exists p'. split; [exact Hp'|]. split; [exact Htp|].
        intros _ Hall. inversion Hall as [|? ? Hscore _]; subst.
        exfalso. apply Hscore; [exact Hc | exact E].
      * destruct (Hnz E) as [Hq1 Hq2].
        destruct (IH q (t + Leaderboard.calculatePoints
                              (charAt0 (History.id e)))%Z (c + 1)%Z)
          as (p' & Hp' & Htp & Hcnt).
        { exact Hq1. }
        exists p'. split; [exact Hp'|]. split; [exact Htp|].
        intros Hqa Hall. inversion Hall as [|? ? _ Hrest]; subst.
        apply Hcnt; [|exact Hrest].
        rewrite Hq2, Hqa. reflexivity.
    + destruct (Hzero eq_refl) as [Hq1 Hq2].
      destruct (IH q t c) as (p' & Hp' & Htp & Hcnt).
      { exact Hq1. }
      exists p'. split; [exact Hp'|]. split; [exact Htp|].
      intros Hqa Hall. inversion Hall as [|? ? _ Hrest]; subst.
      apply Hcnt; [|exact Hrest]. now rewrite Hq2.
Qed.

(** X16: at a tolerance of 80 or more and
    with every total stored, counting the answers of a history one by
    one from a fresh profile gives the XP total that
    [calculateRetroactivePoints] computes from the same history; the
    numbers of answered questions agree as well when every correct
    answer is to a question that carries points. *)
Theorem retroactive_points_agree (tol : Z) (h : list History.entry) :
  (80 <= tol)%Z ->
  exists p,
    fold_left (Profile.afterAnswer tol true) h (Some Profile.emptyProfile)
    = Some p
    /\ Profile.totalPoints p
       = Some (fst (Leaderboard.calculateRetroactivePoints h))
    /\ (Forall (fun entry =>
                  wasCorrect entry = true ->
                  Leaderboard.calculatePoints (charAt0 (History.id entry))
                  <> 0%Z) h ->
        Profile.questionsAnswered p
        = Some (snd (Leaderboard.calculateRetroactivePoints h))).
Proof.
  intros Htol.
  destruct (retroactive_fold tol h Htol Profile.emptyProfile 0%Z 0%Z eq_refl)
    as (p & Hp & Ht & Hc).
  exists p. split; [exact Hp|]. split; [exact Ht|].
  intros Hall. apply Hc; [reflexivity | exact Hall].
Qed.

Lemma retroactive_points_agree_witness :
  let h :=
    [ {| History.id := "P12"; History.question := "q1";
         History.answer := "a1"; History.status := "correct";
         History.timestamp := 1; History.questionSet := "nat_hist_bee" |};
      {| History.id := "F3"; History.question := "q2";
         History.answer := "a2"; History.status := "skipped";
         History.timestamp := 2; History.questionSet := "nat_hist_bee" |};
      {| History.id := "S7"; History.question := "q3";
         History.answer := "a3"; History.status := "correct";
         History.timestamp := 3; History.questionSet := "nat_hist_bee" |} ]
  in
  exists p,
    fold_left (Profile.afterAnswer 80 true) h (Some Profile.emptyProfile)
    = Some p
    /\ Profile.totalPoints p
       = Some (fst (Leaderboard.calculateRetroactivePoints h))
    /\ (Forall (fun entry =>
                  wasCorrect entry = true ->
                  Leaderboard.calculatePoints (charAt0 (History.id entry))
                  <> 0%Z) h ->
        Profile.questionsAnswered p
        = Some (snd (Leaderboard.calculateRetroactivePoints h))).
Proof. intros h. apply (retroactive_points_agree 80 h). lia. Defined.

(** * The cursor and the export of the history *)

Lemma lits_match (w : string) :
  forall prev s,
    matchHere false (lits w) prev s
    = if prefix w s then Some (length w) else None.
Proof.
  induction w as [|c w IH]; intros prev s.
  - destruct s; reflexivity.
  - destruct s as [|d r]; [reflexivity|].
    cbn [lits matchHere one chEq prefix length].
    destruct (Ascii.eqb_spec c d) as [->|Hne].
    + rewrite IH. destruct (ascii_dec d d) as [_|F]; [|contradiction].
      now destruct (prefix w r).
    + destruct (ascii_dec c d) as [E|_]; [contradiction|reflexivity].
Qed.

Lemma prefix_index0 (w s : string) :
  prefix w s = true -> includes s w = true.
Proof.
  intros H. unfold includes.
  destruct s as [|d r]; cbn [index].
  - destruct w; [reflexivity | discriminate H].
  - destruct w as [|c w]; [reflexivity|]. now rewrite H.
Qed.

Lemma includes_tail (w : string) (d : ascii) (r : string) :
  includes (String d r) w = false -> includes r w = false.
Proof.
  unfold includes. destruct w as [|c w]; [discriminate|].
  cbn [index]. destruct (prefix (String c w) (String d r)); [discriminate|].
  now destruct (index 0 (String c w) r).
Qed.

Lemma prefix_overlap (s : string) :
  forall w v,
    length s <= length w ->
    prefix w (s ++ v) = true -> prefix (skip (length s) w) v = true.
Proof.
  induction s as [|c s IH]; intros w v Hlen H; [exact H|].
  destruct w as [|c' w]; [cbn in Hlen; lia|].
  cbn [append prefix] in H. destruct (ascii_dec c' c); [|discriminate H].
  cbn [length skip]. apply IH; [cbn [length] in Hlen; lia | exact H].
Qed.

Lemma prefix_within (w : string) :
  forall s v,
    length w <= length s -> prefix w (s ++ v) = true -> prefix w s = true.
Proof.
  induction w as [|c w IH]; intros s v Hlen H; [now destruct s|].
  destruct s as [|d s]; [cbn in Hlen; lia|].
  cbn [append prefix] in *. destruct (ascii_dec c d); [|discriminate H].
  apply (IH s v); [cbn [length] in Hlen; lia | exact H].
Qed.

Lemma borderFree_no_overlap (w s : string) :
  borderFree w = true -> s <> "" -> includes s w = false ->
  prefix w (s ++ w) = false.
Proof.
  intros Hb Hs Hno. destruct (prefix w (s ++ w)) eqn:H; [exfalso|reflexivity].
  destruct (Nat.le_gt_cases (length w) (length s)) as [Hle|Hgt].
  - apply prefix_within in H; [|exact Hle].
    apply prefix_index0 in H. congruence.
  - apply prefix_overlap in H; [|lia].
    unfold borderFree in Hb. rewrite forallb_forall in Hb.
    specialize (Hb (length s)). rewrite H in Hb.
    enough (false = true) by discriminate. apply Hb, in_seq.
    destruct s; [contradiction|]. cbn [length] in *. lia.
Qed.

Lemma cursor_removed (s : string) :
  forall prev,
    includes s cursor = false ->
    replaceAllFrom false (lits cursor) "" 0 prev (s ++ cursor) = s
    /\ replaceAllFrom false (lits cursor) "" 0 prev s = s.
Proof.
  induction s as [|d r IH]; intros prev Hno.
  - split; reflexivity.
  - pose proof (includes_tail _ _ _ Hno) as Hr.
    destruct (IH (Some d) Hr) as [IH1 IH2].
    assert (H1 : prefix cursor (String d r ++ cursor) = false).
    { apply borderFree_no_overlap; [reflexivity | discriminate | exact Hno]. }
    assert (H2 : prefix cursor (String d r) = false).
    { destruct (prefix cursor (String d r)) eqn:E; [|reflexivity].
      apply prefix_index0 in E. congruence. }
    split.
    + change (String d r ++ cursor) with (String d (r ++ cursor)) in *.
      cbn [replaceAllFrom]. rewrite lits_match, H1. now rewrite IH1.
    + cbn [replaceAllFrom]. rewrite lits_match, H2. now rewrite IH2.
Qed.

(** X17: on a text in which the cursor markup
    does not occur, [removeCursor] changes nothing, and it takes away
    exactly the cursor that a step of the reveal appended to it. *)
Theorem removeCursor_appended (displayText : string) :
  includes displayText cursor = false ->
  removeCursor (displayText ++ cursor) = displayText
  /\ removeCursor displayText = displayText.
Proof. apply cursor_removed. Qed.

Lemma removeCursor_appended_witness :
  removeCursor ("The <b>battle</b> of <<i>Hastings" ++ cursor)
  = "The <b>battle</b> of <<i>Hastings"
  /\ removeCursor "The <b>battle</b> of <<i>Hastings"
     = "The <b>battle</b> of <<i>Hastings".
Proof.
  apply (removeCursor_appended "The <b>battle</b> of <<i>Hastings").
  vm_compute. reflexivity.
Defined.

(** ** CSV cells *)

Lemma substring_0_0 (s : string) : substring 0 0 s = "".
Proof. now destruct s. Qed.

Lemma reQuote_doubleQuotes (s : string) :
  forall prev,
    replaceAllFrom false Csv.reQuote Csv.twoQuotes 0 prev s = doubleQuotes s.
Proof.
  induction s as [|c r IH]; intros prev; [reflexivity|].
  cbn [replaceAllFrom doubleQuotes Csv.reQuote quote lits matchHere one chEq].
  rewrite (Ascii.eqb_sym (ascii_of_nat 34) c).
  destruct (Ascii.eqb c (ascii_of_nat 34)) eqn:E.
  - apply Ascii.eqb_eq in E. subst c. cbn [option_map]. now rewrite IH.
  - now rewrite IH.
Qed.

Lemma many_doubleQuotes (r : string) :
  forall prev prev',
    many (isNot ">") (one (chEq false ">") (fun _ _ => Some 0)) prev
         (doubleQuotes r)
    = option_map (fun n => length (doubleQuotes (substring 0 n r)))
        (many (isNot ">") (one (chEq false ">") (fun _ _ => Some 0)) prev' r).
Proof.
  induction r as [|d r IH]; intros prev prev'; [reflexivity|].
  cbn [doubleQuotes]. destruct (Ascii.eqb d (ascii_of_nat 34)) eqn:Eq.
  - apply Ascii.eqb_eq in Eq. subst d.
    cbn [many]. change (isNot ">" (ascii_of_nat 34)) with true. cbv iota.
    rewrite (IH (Some (ascii_of_nat 34)) (Some (ascii_of_nat 34))).
    destruct (many _ _ (Some (ascii_of_nat 34)) r) as [n|];
      cbn [option_map]; [|reflexivity].
    cbn [substring doubleQuotes].
    change (Ascii.eqb (ascii_of_nat 34) (ascii_of_nat 34)) with true.
    reflexivity.
  - cbn [many]. destruct (isNot ">" d) eqn:Hd.
    + rewrite (IH (Some d) (Some d)).
      destruct (many _ _ (Some d) r) as [n|]; cbn [option_map].
      * cbn [substring doubleQuotes]. now rewrite Eq.
      * cbn [one chEq]. unfold isNot in Hd. apply negb_true_iff in Hd.
        rewrite (Ascii.eqb_sym ">" d), Hd. reflexivity.
    + cbn [one chEq]. unfold isNot in Hd. apply negb_false_iff in Hd.
      rewrite (Ascii.eqb_sym ">" d), Hd. cbn [option_map].
      cbn [substring doubleQuotes]. rewrite Eq, substring_0_0. reflexivity.
Qed.

Lemma reTag_doubleQuotes (s : string) (prev prev' : option ascii) :
  matchHere false reTag prev (doubleQuotes s)
  = option_map (fun n => length (doubleQuotes (substring 0 n s)))
      (matchHere false reTag prev' s).
Proof.
  destruct s as [|d r]; [reflexivity|].
  cbn [doubleQuotes]. destruct (Ascii.eqb d (ascii_of_nat 34)) eqn:Eq.
  - apply Ascii.eqb_eq in Eq. subst d. reflexivity.
  - cbn [reTag matchHere one chEq].
    destruct (Ascii.eqb "<" d); [|reflexivity].
    rewrite (many_doubleQuotes r (Some d) (Some d)).
    destruct (many _ _ (Some d) r) as [n|]; cbn [option_map]; [|reflexivity].
    cbn [substring doubleQuotes]. now rewrite Eq.
Qed.

Lemma strip_doubleQuotes (s : string) :
  forall k prev prev',
    replaceAllFrom false reTag ""
      (length (doubleQuotes (substring 0 k s))) prev (doubleQuotes s)
    = doubleQuotes (replaceAllFrom false reTag "" k prev' s).
Proof.
  induction s as [|d r IH]; intros k prev prev'.
  - destruct k; reflexivity.
  - destruct k as [|k].
    + rewrite substring_0_0.
      change (length (doubleQuotes "")) with 0.
      pose proof (IH 0 (Some d) (Some d)) as IH0.
      rewrite substring_0_0 in IH0.
      change (length (doubleQuotes "")) with 0 in IH0.
      destruct (Ascii.eqb d (ascii_of_nat 34)) eqn:Eq.
      * assert (d = ascii_of_nat 34) by now apply Ascii.eqb_eq.
        subst d. cbn [doubleQuotes].
        change (Ascii.eqb (ascii_of_nat 34) (ascii_of_nat 34)) with true.
        cbv iota. cbn [replaceAllFrom].
        change (matchHere false reTag prev
                  (String (ascii_of_nat 34)
                     (String (ascii_of_nat 34) (doubleQuotes r))))
          with (@None nat).
        change (matchHere false reTag (Some (ascii_of_nat 34))
                  (String (ascii_of_nat 34) (doubleQuotes r)))
          with (@None nat).
        change (matchHere false reTag prev' (String (ascii_of_nat 34) r))
          with (@None nat).
        cbv iota. cbn [doubleQuotes].
        change (Ascii.eqb (ascii_of_nat 34) (ascii_of_nat 34)) with true.
        cbv iota. now rewrite IH0.
      * assert (Hd : doubleQuotes (String d r) = String d (doubleQuotes r))
          by (cbn [doubleQuotes]; now rewrite Eq).
        rewrite Hd. cbn [replaceAllFrom]. rewrite <- Hd.
        rewrite (reTag_doubleQuotes (String d r) prev prev').
        destruct (matchHere false reTag prev' (String d r)) as [[|n]|];
          cbn [option_map].
        -- rewrite substring_0_0.
           change (length (doubleQuotes "")) with 0. cbv iota.
           rewrite IH0. cbn [append doubleQuotes]. now rewrite Eq.
        -- cbn [substring]. cbn [doubleQuotes]. rewrite Eq. cbn [length].
           cbn [append]. apply (IH n (Some d) (Some d)).
        -- rewrite IH0. cbn [doubleQuotes]. now rewrite Eq.
    + cbn [substring]. cbn [doubleQuotes].
      destruct (Ascii.eqb d (ascii_of_nat 34)) eqn:Eq;
        cbn [length replaceAllFrom]; apply IH.
Qed.

(** X18: the two exports of the history write the
    same text for a question or an answer: removing the tags and
    doubling the quotes give the same result in either order. *)
Theorem export_cells_agree (text : string) :
  Csv.pageCell text = Csv.cell text.
Proof.
  unfold Csv.pageCell, Csv.cell, replaceAll. f_equal. f_equal.
  rewrite !reQuote_doubleQuotes.
  pose proof (strip_doubleQuotes text 0 None None) as H.
  rewrite substring_0_0 in H.
  exact H.
Qed.

Lemma readField_doubleQuotes (t rest : string) :
  prefix quote rest = false ->
  readField (doubleQuotes t ++ quote ++ rest) = Some (t, rest).
Proof.
  intros Hrest. induction t as [|c t IH].
  - cbn [doubleQuotes append quote readField].
    change (Ascii.eqb (ascii_of_nat 34) (ascii_of_nat 34)) with true.
    cbv iota. destruct rest as [|d rest']; [reflexivity|].
    cbn [quote prefix] in Hrest.
    destruct (Ascii.eqb_spec d (ascii_of_nat 34)) as [->|Hne];
      [|reflexivity].
    destruct (ascii_dec (ascii_of_nat 34) (ascii_of_nat 34));
      [|contradiction].
    destruct rest'; discriminate Hrest.
  - cbn [doubleQuotes]. destruct (Ascii.eqb c (ascii_of_nat 34)) eqn:Eq.
    + cbn [append readField]. rewrite !Eq. cbv iota.
      now rewrite IH.
    + cbn [append readField]. rewrite Eq. cbv iota. now rewrite IH.
Qed.

(** X19: a reader of quoted CSV fields that
    meets a cell written by [exportHistory] gets back the text without
    its tags, whatever quotes, commas or line breaks the text holds,
    and goes on right after the cell (what follows a cell does not
    start with a quote). *)
Theorem export_cell_read_back (text rest : string) :
  prefix quote rest = false ->
  readQuoted (Csv.cell text ++ rest)
  = Some (replaceAll false reTag "" text, rest).
Proof.
  intros Hrest. unfold Csv.cell, replaceAll.
  rewrite reQuote_doubleQuotes.
  cbn [quote append readQuoted].
  change (Ascii.eqb (ascii_of_nat 34) (ascii_of_nat 34)) with true. cbv iota.
  rewrite append_assoc.
  apply (readField_doubleQuotes _ rest Hrest).
Qed.

Lemma export_cell_read_back_witness :
  readQuoted
    (Csv.cell ("He said " ++ quote ++ "<i>Veni</i>, vidi" ++ quote)
       ++ ",next")
  = Some ("He said " ++ quote ++ "Veni, vidi" ++ quote, ",next").
Proof.
  apply (export_cell_read_back
           ("He said " ++ quote ++ "<i>Veni</i>, vidi" ++ quote) ",next").
  reflexivity.
Defined.

(** * Filters and statistics *)

Lemma arrayIncludes_In (l : list string) (x : string) :
  Filters.arrayIncludes l x = true <-> In x l.
Proof. unfold Filters.arrayIncludes. apply existsb_eqb_In. Qed.

(** X20: the questions that pass the filters are
    questions of the chosen category, so their number never exceeds
    the total shown beside it; a question without metadata always
    passes; and with no filter set every question of the category
    passes. *)
Theorem filtered_questions
        (questions : string -> option (list Questions.Question))
        (questionMetadata : string -> option Questions.Meta)
        (activeFilters : Filters.ActiveFilters) (category : string) :
  let all :=
    match questions category with Some l => l | None => [] end in
  let filtered :=
    Filters.getFilteredQuestions questions questionMetadata activeFilters
      category in
  incl filtered all
  /\ List.length filtered <= List.length all
  /\ (forall q, In q all -> questionMetadata (Questions.id q) = None ->
                In q filtered)
  /\ (Filters.hasFilters activeFilters = false -> filtered = all).
Proof.
  cbv zeta. unfold Filters.getFilteredQuestions.
  destruct (questions category) as [l|].
  2: { repeat split; auto using incl_refl. }
  split; [apply incl_filter|]. split; [apply filter_length_le|].
  split.
  - intros q Hin Hmeta. apply filter_In. split; [exact Hin|].
    now rewrite Hmeta.
  - unfold Filters.hasFilters. intros H.
    apply orb_false_iff in H. destruct H as [H Ht].
    apply orb_false_iff in H. destruct H as [Ha Hr].
    rewrite Ha, Hr, Ht. cbn [andb].
    apply forallb_filter_id. apply forallb_forall. intros q _.
    now destruct (questionMetadata (Questions.id q)).
Qed.

(** X21: clearing the region filter, the time
    period filter or all filters never removes a question from the
    selection. *)
Theorem clearing_filters_widens
        (questions : string -> option (list Questions.Question))
        (questionMetadata : string -> option Questions.Meta)
        (activeFilters : Filters.ActiveFilters) (category : string) :
  let filtered f :=
    Filters.getFilteredQuestions questions questionMetadata f category in
  incl (filtered activeFilters)
       (filtered (Filters.clearRegionFilter activeFilters))
  /\ incl (filtered activeFilters)
          (filtered (Filters.clearTimePeriodFilter activeFilters))
  /\ incl (filtered activeFilters) (filtered Filters.clearAllFilters).
Proof.
  cbv zeta. unfold Filters.getFilteredQuestions.
  destruct (questions category) as [l|]; [|repeat split; apply incl_refl].
  repeat split; intros q Hq; apply filter_In in Hq; destruct Hq as [Hin Hq];
    apply filter_In; (split; [exact Hin|]);
    destruct (questionMetadata (Questions.id q)) as [meta|];
    try reflexivity;
    cbn [Filters.clearRegionFilter Filters.clearTimePeriodFilter
         Filters.clearAllFilters Filters.region Filters.timePeriod
         Filters.answerTypes String.eqb Ascii.eqb Bool.eqb negb andb
         List.length Nat.ltb Nat.leb] in *;
    repeat match type of Hq with
           | (if ?b then _ else _) = true =>
               destruct b; [discriminate Hq|]
           end;
    reflexivity.
Qed.

Lemma answerTypes_step (f : Filters.ActiveFilters) (c : Filters.Change) :
  NoDup (Filters.answerTypes f) /\ ~ In "all" (Filters.answerTypes f) ->
  NoDup (Filters.answerTypes (Filters.apply f c))
  /\ ~ In "all" (Filters.answerTypes (Filters.apply f c)).
Proof.
  intros [Hnd Hall].
  assert (Hclear : NoDup (@nil string) /\ ~ In "all" (@nil string))
    by (split; [constructor | intros []]).
  destruct c as [v|v|v| | |t|t| |qs]; cbn [Filters.apply].
  - now split.
  - now split.
  - unfold Filters.onAnswerTypeFilterChange.
    destruct (String.eqb_spec v "all") as [->|Hv]; [exact Hclear|].
    destruct (Filters.arrayIncludes (Filters.answerTypes f) v) eqn:Hin;
      cbn [negb Filters.answerTypes]; [now split|].
    split.
    + apply NoDup_app; [exact Hnd | repeat constructor; intros [] |].
      intros x Hx [<-|[]].
      apply arrayIncludes_In in Hx. congruence.
    + rewrite in_app_iff. intros [H|[H|[]]]; [now apply Hall | congruence].
  - now split.
  - now split.
  - cbn [Filters.removeQuestionType Filters.answerTypes]. split.
    + now apply NoDup_filter.
    + intros H. apply filter_In in H. now destruct H.
  - unfold Filters.removeFilter.
    destruct (String.eqb t "region"); [now split|].
    destruct (String.eqb t "timePeriod"); now split.
  - exact Hclear.
  - unfold Filters.updateRegionFilterState.
    destruct (prefix "us_" qs); exact Hclear.
Qed.

(** X22: whatever the user does to the filters,
    no answer type is selected twice, and the entry that stands for
    every type is never among the selected types. *)
Theorem answer_types_distinct (changes : list Filters.Change) :
  let f := fold_left Filters.apply changes Filters.clearAllFilters in
  NoDup (Filters.answerTypes f) /\ ~ In "all" (Filters.answerTypes f).
Proof.
  cbv zeta.
  assert (H0 : NoDup (Filters.answerTypes Filters.clearAllFilters)
               /\ ~ In "all" (Filters.answerTypes Filters.clearAllFilters))
    by (split; [constructor | intros []]).
  revert H0. generalize Filters.clearAllFilters.
  induction changes as [|c changes IH]; intros f Hf; [exact Hf|].
  cbn [fold_left]. apply IH. now apply answerTypes_step.
Qed.

Lemma tally_fold (l : list History.entry) :
  forall done stats cur best,
    Dashboard.correct stats + Dashboard.incorrect stats
    + Dashboard.skipped stats = List.length done ->
    Dashboard.correctFromEnd (rev done) <= cur ->
    cur <= best -> best <= Dashboard.correct stats ->
    let '(stats', cur', best') :=
      fold_left Dashboard.tally l (stats, cur, best) in
    Dashboard.total stats' = Dashboard.total stats
    /\ Dashboard.currentStreak stats' = Dashboard.currentStreak stats
    /\ Dashboard.correct stats' + Dashboard.incorrect stats'
       + Dashboard.skipped stats' = List.length (done ++ l)
    /\ Dashboard.correctFromEnd (rev (done ++ l)) <= cur'
    /\ cur' <= best' /\ best' <= Dashboard.correct stats'.
Proof.
  induction l as [|e l IH]; intros done stats cur best Hsum Hend Hcur Hbest.
  - cbn [fold_left]. rewrite app_nil_r. repeat split; assumption.
  - cbn [fold_left].
    replace (done ++ e :: l)%list with ((done ++ [e]) ++ l)%list
      by now rewrite <- app_assoc.
    assert (Hrev : Dashboard.correctFromEnd (rev (done ++ [e]))
                   = if String.eqb (History.status e) "correct"
                     then S (Dashboard.correctFromEnd (rev done)) else 0)
      by now rewrite rev_unit.
    assert (Hlen : List.length (done ++ [e]) = S (List.length done))
      by (rewrite length_app; cbn; lia).
    unfold Dashboard.tally at 2.
    destruct (String.eqb (History.status e) "correct");
      [|destruct (String.eqb (History.status e) "incorrect")].
    + match goal with
      | |- context [fold_left _ l (?s, ?c, ?b)] =>
          specialize (IH (done ++ [e])%list s c b)
      end.
      cbn [Dashboard.correct Dashboard.incorrect Dashboard.skipped
           Dashboard.total Dashboard.currentStreak] in IH.
      specialize (IH ltac:(lia) ltac:(lia) ltac:(lia) ltac:(lia)).
      destruct (fold_left _ l _) as [[stats' cur'] best']. exact IH.
    + match goal with
      | |- context [fold_left _ l (?s, ?c, ?b)] =>
          specialize (IH (done ++ [e])%list s c b)
      end.
      cbn [Dashboard.correct Dashboard.incorrect Dashboard.skipped
           Dashboard.total Dashboard.currentStreak] in IH.
      specialize (IH ltac:(lia) ltac:(lia) ltac:(lia) ltac:(lia)).
      destruct (fold_left _ l _) as [[stats' cur'] best']. exact IH.
    + match goal with
      | |- context [fold_left _ l (?s, ?c, ?b)] =>
          specialize (IH (done ++ [e])%list s c b)
      end.
      cbn [Dashboard.correct Dashboard.incorrect Dashboard.skipped
           Dashboard.total Dashboard.currentStreak] in IH.
      specialize (IH ltac:(lia) ltac:(lia) ltac:(lia) ltac:(lia)).
      destruct (fold_left _ l _) as [[stats' cur'] best']. exact IH.
Qed.

(** X23: in the statistics of the dashboard the
    numbers of correct, incorrect and skipped answers add up to the
    total, which is the number of entries of the chosen question set;
    the current streak never exceeds the best streak, and the best
    streak never exceeds the number of correct answers. *)
Theorem stats_consistent (dashboardQuestionSet : string)
        (questionHistory : list History.entry) :
  let stats :=
    Dashboard.calculateStats dashboardQuestionSet questionHistory in
  Dashboard.total stats
  = List.length (Dashboard.getFilteredHistoryForDashboard
                   dashboardQuestionSet questionHistory)
  /\ Dashboard.correct stats + Dashboard.incorrect stats
     + Dashboard.skipped stats = Dashboard.total stats
  /\ Dashboard.currentStreak stats <= Dashboard.bestStreak stats
  /\ Dashboard.bestStreak stats <= Dashboard.correct stats.
Proof.
  cbv zeta. unfold Dashboard.calculateStats. cbv zeta.
  set (h := Dashboard.getFilteredHistoryForDashboard _ _).
  match goal with
  | |- context [fold_left _ h (?s, 0, 0)] =>
      pose proof (tally_fold h [] s 0 0) as H
  end.
  cbn [Dashboard.correct Dashboard.incorrect Dashboard.skipped
       Dashboard.total Dashboard.currentStreak List.length rev
       Dashboard.correctFromEnd app] in H.
  specialize (H eq_refl (Nat.le_refl 0) (Nat.le_refl 0) (Nat.le_refl 0)).
  destruct (fold_left _ h _) as [[stats' cur'] best'].
  destruct H as (Ht & Hc & Hsum & Hend & Hcur & Hbest).
  cbn [Dashboard.correct Dashboard.incorrect Dashboard.skipped
       Dashboard.total Dashboard.currentStreak Dashboard.bestStreak].
  rewrite Hc. lia.
Qed.

(** * The practice session *)

Ltac fields :=
  cbn [
       Game.currentQuestion Game.set_currentQuestion
       Game.streamingInterval Game.set_streamingInterval Game.isPaused
       Game.set_isPaused Game.currentCharIndex
       Game.set_currentCharIndex Game.currentSection
       Game.set_currentSection Game.answerInputShown
       Game.set_answerInputShown Game.questionsPracticed
       Game.set_questionsPracticed Game.questionHistory
       Game.set_questionHistory Game.sessionHistory
       Game.set_sessionHistory Game.questionText Game.set_questionText
       Game.answerInputSections Game.set_answerInputSections
       Game.pauseHidden Game.set_pauseHidden Game.pauseLabel
       Game.set_pauseLabel Game.startHidden Game.set_startHidden
       Game.nextHidden Game.set_nextHidden Game.buzzerShown
       Game.set_buzzerShown Game.hintHidden Game.set_hintHidden
       Game.alerts Game.set_alerts Game.intervals Game.set_intervals
       Game.nextHandle Game.set_nextHandle
       Game.text Game.displayText Game.lastCharTime Game.resumed].

Ltac fields_in H :=
  cbn [
       Game.currentQuestion Game.set_currentQuestion
       Game.streamingInterval Game.set_streamingInterval Game.isPaused
       Game.set_isPaused Game.currentCharIndex
       Game.set_currentCharIndex Game.currentSection
       Game.set_currentSection Game.answerInputShown
       Game.set_answerInputShown Game.questionsPracticed
       Game.set_questionsPracticed Game.questionHistory
       Game.set_questionHistory Game.sessionHistory
       Game.set_sessionHistory Game.questionText Game.set_questionText
       Game.answerInputSections Game.set_answerInputSections
       Game.pauseHidden Game.set_pauseHidden Game.pauseLabel
       Game.set_pauseLabel Game.startHidden Game.set_startHidden
       Game.nextHidden Game.set_nextHidden Game.buzzerShown
       Game.set_buzzerShown Game.hintHidden Game.set_hintHidden
       Game.alerts Game.set_alerts Game.intervals Game.set_intervals
       Game.nextHandle Game.set_nextHandle
       Game.text Game.displayText Game.lastCharTime Game.resumed] in H.

Section Session.

Variable serialized : string -> string.
Variable isMobile : bool.

Lemma clearInterval_streaming (st : Game.State) :
  Game.consistent st ->
  Game.intervals (Game.clearInterval (Game.streamingInterval st) st) = [].
Proof.
  intros ([H|(h & c & H & Hs)] & _).
  - unfold Game.clearInterval. destruct (Game.streamingInterval st); fields;
      now rewrite H.
  - rewrite Hs. unfold Game.clearInterval. fields. rewrite H.
    cbn [filter fst]. now rewrite Nat.eqb_refl.
Qed.

(** The handlers as assignments to fields. *)

Lemma clearInterval_eq (handle : option nat) (st : Game.State) :
  Game.clearInterval handle st
  = Game.set_intervals
      (match handle with
       | Some h =>
           filter (fun timer => negb (Nat.eqb (fst timer) h))
                  (Game.intervals st)
       | None => Game.intervals st
       end) st.
Proof. destruct handle; [reflexivity | now destruct st]. Qed.

Lemma updateBuzzerVisibility_eq (st : Game.State) :
  Game.updateBuzzerVisibility isMobile st
  = Game.set_hintHidden
      (negb (negb isMobile
             && (Game.hasQuestion st && negb (Game.answerInputShown st)
                 && String.eqb (Game.currentSection st) "question")))
      (Game.set_buzzerShown
         (isMobile
          && (Game.hasQuestion st && negb (Game.answerInputShown st)
              && String.eqb (Game.currentSection st) "question"))
         st).
Proof.
  unfold Game.updateBuzzerVisibility, Game.hasQuestion.
  destruct isMobile;
    destruct (_ && negb (Game.answerInputShown st) && _); reflexivity.
Qed.

Ltac ops :=
  rewrite ?updateBuzzerVisibility_eq, ?clearInterval_eq;
  unfold Game.removeCursor, Game.removeInputSection, Game.addToHistory,
    Game.setInterval, Game.store;
  fields.

(** Fields the invariant does not look at. *)
Lemma consistent_frame (st st' : Game.State) :
  Game.intervals st' = Game.intervals st ->
  Game.streamingInterval st' = Game.streamingInterval st ->
  Game.answerInputSections st' = Game.answerInputSections st ->
  Game.answerInputShown st' = Game.answerInputShown st ->
  Game.buzzerShown st' = Game.buzzerShown st ->
  Game.currentQuestion st' = Game.currentQuestion st ->
  Game.currentCharIndex st' = Game.currentCharIndex st ->
  Game.consistent st -> Game.consistent st'.
Proof.
  unfold Game.consistent. intros -> -> -> -> -> -> ->. exact (fun H => H).
Qed.

Ltac frame := eapply consistent_frame; [..|eassumption]; ops; reflexivity.

(** A state without timers. *)
Lemma consistent_idle (st st' : Game.State) :
  Game.consistent st ->
  Game.intervals st' = [] ->
  Game.answerInputSections st' <= 1 ->
  (Game.answerInputSections st' = 1 -> Game.answerInputShown st' = true) ->
  (Game.answerInputShown st' = true -> Game.buzzerShown st' = false) ->
  Game.currentQuestion st' = Game.currentQuestion st
  \/ Game.currentQuestion st' = None ->
  Game.currentCharIndex st' = Game.currentCharIndex st ->
  Game.consistent st'.
Proof.
  unfold Game.consistent.
  intros (_ & Hs & _ & _ & Hq) -> Hle Hone Hbuzz Hcq ->.
  split; [now left|]. split; [lia|]. split; [exact Hone|].
  split; [intros H; split; [reflexivity | now apply Hbuzz]|].
  destruct Hcq as [-> | ->]; [|reflexivity].
  destruct (Game.currentQuestion st) as [q|]; [|reflexivity].
  destruct Hq as (Hi & Ht & _). repeat split; try assumption.
  intros h c [].
Qed.

(** A state with the timer of a reveal. *)
Lemma consistent_running (st' : Game.State) (q : Questions.Question)
      (h : nat) (c : Game.Closure) :
  Game.intervals st' = [(h, c)] ->
  Game.streamingInterval st' = Some h ->
  Game.answerInputSections st' = 0 ->
  Game.answerInputShown st' = false ->
  Game.currentQuestion st' = Some q ->
  Game.text c = Questions.question q ->
  Game.currentCharIndex st' <= length (Questions.question q) ->
  ~ insideTag (Questions.question q) (Game.currentCharIndex st') ->
  Game.consistent st'.
Proof.
  unfold Game.consistent. intros -> -> -> -> -> Ht Hi Ho.
  split; [right; now exists h, c|]. split; [lia|].
  split; [discriminate|]. split; [discriminate|].
  repeat split; try assumption.
  intros h' c' [E|[]]. now injection E as _ <-.
Qed.

Lemma consistent_sections (st : Game.State) :
  Game.consistent st ->
  Game.answerInputSections st <= 1
  /\ Nat.pred (Game.answerInputSections st) = 0
  /\ (Game.answerInputShown st = false -> Game.answerInputSections st = 0).
Proof.
  intros (_ & Hs & Hone & _). repeat split; try lia.
  intros Hf. destruct (Nat.eq_dec (Game.answerInputSections st) 1) as [E|];
    [|lia].
  rewrite (Hone E) in Hf. discriminate Hf.
Qed.

Lemma consistent_buzzer (st : Game.State) :
  Game.consistent st ->
  Game.answerInputShown st = true -> Game.buzzerShown st = false.
Proof. intros (_ & _ & _ & H & _) Hs. now apply H. Qed.

Lemma updateBuzzerVisibility_consistent (st : Game.State) :
  Game.consistent st ->
  Game.consistent (Game.updateBuzzerVisibility isMobile st).
Proof.
  intros H. pose proof H as (Ht & Hs & Hone & Hshown & Hq).
  unfold Game.consistent. ops.
  split; [exact Ht|]. split; [exact Hs|]. split; [exact Hone|].
  split; [|exact Hq].
  intros E. split; [now apply Hshown|].
  rewrite E. cbn [negb andb]. now rewrite !andb_false_r.
Qed.

(** [showAnswerInput] when the answer input is not shown yet. *)
Lemma showAnswerInput_fields (st : Game.State) :
  Game.consistent st ->
  Game.answerInputShown st = false ->
  let st' := Game.showAnswerInput serialized isMobile st in
  Game.intervals st' = []
  /\ Game.answerInputShown st' = true
  /\ Game.buzzerShown st' = false
  /\ Game.answerInputSections st' = 1
  /\ Game.isPaused st' = true
  /\ Game.currentQuestion st' = Game.currentQuestion st
  /\ Game.currentCharIndex st' = Game.currentCharIndex st
  /\ Game.streamingInterval st' = Game.streamingInterval st
  /\ Game.questionHistory st' = Game.questionHistory st
  /\ Game.pauseHidden st' = Game.pauseHidden st
  /\ Game.currentSection st' = Game.currentSection st
  /\ Game.questionText st'
     = (let shown := removeCursor (serialized (Game.questionText st)) in
        match Game.currentQuestion st with
        | Some q =>
            if Nat.ltb (Game.currentCharIndex st)
                       (length (Questions.question q))
            then serialized shown ++ Game.buzzMarker
            else shown
        | None => shown
        end).
Proof.
  intros H Hshown.
  destruct (consistent_sections st H) as (_ & _ & Hzero).
  specialize (Hzero Hshown).
  pose proof (clearInterval_streaming st H) as Hclear.
  rewrite clearInterval_eq in Hclear. fields_in Hclear.
  cbv zeta. unfold Game.showAnswerInput. rewrite Hshown. cbv zeta.
  rewrite clearInterval_eq. unfold Game.removeCursor. fields.
  destruct (Game.currentQuestion st) as [q|] eqn:Eq;
    [destruct (Nat.ltb _ _)|]; ops;
    rewrite ?andb_false_r, Hclear, Hzero, ?Eq; repeat split.
Qed.

Lemma showAnswerInput_consistent (st : Game.State) :
  Game.consistent st ->
  Game.consistent (Game.showAnswerInput serialized isMobile st).
Proof.
  intros H.
  destruct (Game.answerInputShown st) eqn:Hshown.
  - unfold Game.showAnswerInput. now rewrite Hshown.
  - destruct (showAnswerInput_fields st H Hshown)
      as (H1 & H2 & H3 & H4 & H5 & H6 & H7 & _).
    apply (consistent_idle st); auto. lia.
Qed.

Lemma insideTag_zero (text : string) : ~ insideTag text 0.
Proof. intros (q & e & _ & _ & H). lia. Qed.

(** [displayQuestion] when a question is drawn. *)
Lemma displayQuestion_fields (st : Game.State) (d : Game.Draw) (now : Z)
      (q : Questions.Question) :
  Game.consistent st ->
  Game.getRandomQuestion d = Some q ->
  let st' := Game.displayQuestion serialized isMobile d now st in
  Game.intervals st'
  = [(Game.nextHandle st,
      {| Game.text := Questions.question q; Game.displayText := "";
         Game.lastCharTime := now; Game.resumed := false |})]
  /\ Game.streamingInterval st' = Some (Game.nextHandle st)
  /\ Game.answerInputSections st' = 0
  /\ Game.answerInputShown st' = false
  /\ Game.currentQuestion st' = Some q
  /\ Game.currentCharIndex st' = 0
  /\ Game.isPaused st' = false
  /\ Game.currentSection st' = "question"
  /\ Game.questionsPracticed st' = S (Game.questionsPracticed st)
  /\ Game.questionText st' = removeCursor (serialized "")
  /\ Game.pauseHidden st' = false
  /\ Game.questionHistory st' = Game.questionHistory st
  /\ Game.nextHandle st' = S (Game.nextHandle st).
Proof.
  intros H Hq.
  destruct (consistent_sections st H) as (_ & Hpred & _).
  pose proof (clearInterval_streaming st H) as Hclear.
  rewrite clearInterval_eq in Hclear. fields_in Hclear.
  cbv zeta. unfold Game.displayQuestion. ops. rewrite Hq.
  unfold Game.streamText. ops. rewrite Hclear, Hpred.
  repeat split.
Qed.

Lemma consistent_question (st : Game.State) (q : Questions.Question) :
  Game.consistent st ->
  Game.currentQuestion st = Some q ->
  Game.currentCharIndex st <= length (Questions.question q)
  /\ ~ insideTag (Questions.question q) (Game.currentCharIndex st).
Proof.
  intros (_ & _ & _ & _ & H) Hq. rewrite Hq in H. now destruct H as (? & ? & _).
Qed.

Lemma displayQuestion_consistent (st : Game.State) (d : Game.Draw)
      (now : Z) :
  Game.consistent st ->
  Game.consistent (Game.displayQuestion serialized isMobile d now st).
Proof.
  intros H. destruct (Game.getRandomQuestion d) as [q|] eqn:Hq.
  - destruct (displayQuestion_fields st d now q H Hq)
      as (H1 & H2 & H3 & H4 & H5 & H6 & _).
    eapply consistent_running; try eassumption; try reflexivity.
    + rewrite H6. lia.
    + rewrite H6. apply insideTag_zero.
  - destruct (consistent_sections st H) as (_ & Hpred & _).
    pose proof (clearInterval_streaming st H) as Hclear.
    rewrite clearInterval_eq in Hclear. fields_in Hclear.
    pose proof (consistent_buzzer st H) as Hbuzz.
    unfold Game.displayQuestion. ops. rewrite Hq.
    apply (consistent_idle st); ops; rewrite ?Hpred; auto.
    discriminate.
Qed.

(** The timer that a call belongs to. *)
Lemma closureOf_consistent (st : Game.State) (h : nat) (c : Game.Closure) :
  Game.consistent st ->
  Game.closureOf h (Game.intervals st) = Some c ->
  Game.intervals st = [(h, c)]
  /\ Game.streamingInterval st = Some h
  /\ Game.answerInputShown st = false
  /\ Game.answerInputSections st = 0
  /\ exists q,
       Game.currentQuestion st = Some q
       /\ Game.text c = Questions.question q
       /\ Game.currentCharIndex st <= length (Questions.question q)
       /\ ~ insideTag (Questions.question q) (Game.currentCharIndex st).
Proof.
  intros H Hc. pose proof H as (Ht & Hs & Hone & Hshown & Hq).
  destruct Ht as [E|(h' & c' & E & Hh)];
    [rewrite E in Hc; discriminate Hc|].
  rewrite E in Hc. cbn [Game.closureOf] in Hc.
  destruct (Nat.eqb_spec h' h) as [->|]; [|discriminate Hc].
  injection Hc as ->.
  assert (Hf : Game.answerInputShown st = false).
  { destruct (Game.answerInputShown st); [|reflexivity].
    destruct (Hshown eq_refl) as [E' _]. rewrite E' in E. discriminate E. }
  split; [exact E|]. split; [exact Hh|]. split; [exact Hf|].
  split; [now apply (consistent_sections st H)|].
  destruct (Game.currentQuestion st) as [q|];
    [|rewrite Hq in E; discriminate E].
  exists q. destruct Hq as (Hi & Ho & Htext). repeat split; try assumption.
  apply (Htext h). rewrite E. now left.
Qed.

(** A call that comes too early, or while the reveal is paused. *)
Lemma addNextChar_idle (st : Game.State) (h : nat) (c : Game.Closure)
      (now : Z) (speed : option Z) :
  Game.isPaused st = true \/ Game.tooEarly now speed (Game.lastCharTime c) = true ->
  Game.addNextChar serialized isMobile h c now speed st = st.
Proof.
  unfold Game.addNextChar. intros [-> | ->]; [reflexivity|].
  now destruct (Game.isPaused st).
Qed.

(** A call that reveals the next unit of the text. *)
Lemma addNextChar_emits (st : Game.State) (h : nat) (c : Game.Closure)
      (now : Z) (speed : option Z) :
  Game.intervals st = [(h, c)] ->
  Game.isPaused st = false ->
  Game.tooEarly now speed (Game.lastCharTime c) = false ->
  Game.currentCharIndex st < length (Game.text c) ->
  let st' := Game.addNextChar serialized isMobile h c now speed st in
  let unit := Stream.emit (Game.text c) (Game.currentCharIndex st) in
  Game.intervals st'
  = [(h, {| Game.text := Game.text c;
            Game.displayText := Game.displayText c ++ fst unit;
            Game.lastCharTime := now;
            Game.resumed := Game.resumed c |})]
  /\ Game.currentCharIndex st' = snd unit
  /\ Game.questionText st' = (Game.displayText c ++ fst unit) ++ cursor
  /\ Game.streamingInterval st' = Game.streamingInterval st
  /\ Game.answerInputSections st' = Game.answerInputSections st
  /\ Game.answerInputShown st' = Game.answerInputShown st
  /\ Game.currentQuestion st' = Game.currentQuestion st
  /\ Game.isPaused st' = false
  /\ Game.buzzerShown st' = Game.buzzerShown st
  /\ Game.pauseHidden st' = Game.pauseHidden st
  /\ Game.questionHistory st' = Game.questionHistory st
  /\ Game.currentSection st' = Game.currentSection st.
Proof.
  intros Hi Hp He Hlt. cbv zeta. unfold Game.addNextChar.
  rewrite Hp, He. cbv zeta. ops.
  destruct (Nat.leb_spec (length (Game.text c)) (Game.currentCharIndex st));
    [lia|].
  destruct (emit (Game.text c) (Game.currentCharIndex st)) as [chunk next].
  ops. rewrite Hi. cbn [map fst]. rewrite Nat.eqb_refl.
  cbn [map fst]. rewrite Nat.eqb_refl. repeat split. exact Hp.
Qed.

(** A call at the end of the text. *)
Lemma addNextChar_ends (st : Game.State) (h : nat) (c : Game.Closure)
      (now : Z) (speed : option Z) :
  Game.consistent st ->
  Game.intervals st = [(h, c)] ->
  Game.streamingInterval st = Some h ->
  Game.isPaused st = false ->
  Game.tooEarly now speed (Game.lastCharTime c) = false ->
  length (Game.text c) <= Game.currentCharIndex st ->
  let st' := Game.addNextChar serialized isMobile h c now speed st in
  let st1 :=
    Game.updateBuzzerVisibility isMobile
      (Game.set_questionText (Game.displayText c)
         (Game.set_intervals [] st)) in
  st' = if Game.resumed c
        then Game.updateBuzzerVisibility isMobile
               (Game.set_pauseHidden true
                  (Game.set_questionText (Game.displayText c)
                     (Game.set_intervals [] st)))
        else if Game.answerInputShown st then st1
             else Game.showAnswerInput serialized isMobile st1.
Proof.
  intros H Hi Hs Hp He Hle. cbv zeta.
  assert (HX : forall c1,
             Game.clearInterval (Some h) (Game.set_intervals [(h, c1)] st)
             = Game.set_intervals [] st).
  { intros c1. unfold Game.clearInterval. fields. cbn [filter fst].
    rewrite Nat.eqb_refl. cbn [negb]. now destruct st. }
  unfold Game.addNextChar.
  rewrite Hp, He. cbv zeta. unfold Game.store. fields.
  rewrite Hi, Hs. cbn [map fst]. rewrite Nat.eqb_refl.
  destruct (Nat.leb_spec (length (Game.text c)) (Game.currentCharIndex st));
    [|lia].
  rewrite HX.
  destruct (Game.resumed c); [reflexivity|].
  rewrite updateBuzzerVisibility_eq at 1. fields. reflexivity.
Qed.

Lemma consistent_stopped (st : Game.State) (v : string) :
  Game.consistent st ->
  Game.consistent (Game.set_questionText v (Game.set_intervals [] st)).
Proof.
  intros H. pose proof (consistent_buzzer st H) as Hb.
  pose proof H as (_ & Hs & Hone & _).
  apply (consistent_idle st); ops; auto.
Qed.

Lemma tick_consistent (st : Game.State) (h : nat) (now : Z)
      (speed : option Z) :
  Game.consistent st ->
  Game.consistent
    (Game.step serialized isMobile st (Game.Tick h now speed)).
Proof.
  intros H. cbn [Game.step].
  destruct (Game.closureOf h (Game.intervals st)) as [c|] eqn:Hc;
    [|exact H].
  destruct (closureOf_consistent st h c H Hc)
    as (Hi & Hs & Hshown & Hzero & q & Hq & Ht & Hle & Ho).
  destruct (Game.isPaused st) eqn:Hp;
    [now rewrite addNextChar_idle by now left|].
  destruct (Game.tooEarly now speed (Game.lastCharTime c)) eqn:He;
    [now rewrite addNextChar_idle by now right|].
  destruct (Nat.le_gt_cases (length (Game.text c))
                            (Game.currentCharIndex st)) as [Hend|Hlt].
  - rewrite (addNextChar_ends st h c now speed H Hi Hs Hp He Hend).
    rewrite Hshown.
    destruct (Game.resumed c).
    + apply updateBuzzerVisibility_consistent.
      eapply consistent_frame;
        [..|apply (consistent_stopped st (Game.displayText c) H)];
        reflexivity.
    + apply showAnswerInput_consistent, updateBuzzerVisibility_consistent.
      now apply consistent_stopped.
  - destruct (addNextChar_emits st h c now speed Hi Hp He Hlt)
      as (H1 & H2 & H3 & H4 & H5 & H6 & H7 & _).
    rewrite Ht in *.
    destruct (emit_skip (Questions.question q) (Game.currentCharIndex st) Hlt)
      as [Hnext _].
    eapply (consistent_running _ q); try eassumption; try congruence.
    + reflexivity.
    + rewrite H2. lia.
    + rewrite H2. now apply emit_outside.
Qed.

(** [resumeQuestion] with a current question. *)
Lemma resumeQuestion_fields (st : Game.State) (now : Z)
      (q : Questions.Question) :
  Game.consistent st ->
  Game.currentQuestion st = Some q ->
  let st' := Game.resumeQuestion serialized isMobile now st in
  Game.intervals st'
  = [(Game.nextHandle st,
      {| Game.text := Questions.question q;
         Game.displayText :=
           serialized (removeCursor (serialized (Game.questionText st)));
         Game.lastCharTime := now; Game.resumed := true |})]
  /\ Game.streamingInterval st' = Some (Game.nextHandle st)
  /\ Game.answerInputSections st' = 0
  /\ Game.answerInputShown st' = false
  /\ Game.currentQuestion st' = Some q
  /\ Game.currentCharIndex st' = Game.currentCharIndex st
  /\ Game.isPaused st' = false
  /\ Game.questionText st' = removeCursor (serialized (Game.questionText st))
  /\ Game.pauseHidden st' = Game.pauseHidden st
  /\ Game.questionHistory st' = Game.questionHistory st.
Proof.
  intros H Hq.
  destruct (consistent_sections st H) as (_ & Hpred & _).
  assert (Hclear :
            match Game.streamingInterval st with
            | Some handle =>
                Game.intervals (Game.clearInterval (Some handle) st)
            | None => Game.intervals st
            end = []).
  { pose proof (clearInterval_streaming st H) as Hc.
    destruct (Game.streamingInterval st) eqn:E0; [exact Hc|].
    destruct H as ([E|(h & c & _ & F)] & _); [exact E | congruence]. }
  cbv zeta. unfold Game.resumeQuestion. cbv zeta.
  rewrite updateBuzzerVisibility_eq.
  unfold Game.removeInputSection. fields.
  destruct (Game.streamingInterval st) as [h|];
    rewrite ?clearInterval_eq in *; fields_in Hclear; fields; rewrite Hq;
    unfold Game.removeCursor, Game.setInterval; fields;
    rewrite Hclear, Hpred; repeat split; exact Hq.
Qed.

Lemma resumeQuestion_consistent (st : Game.State) (now : Z) :
  Game.consistent st ->
  Game.consistent (Game.resumeQuestion serialized isMobile now st).
Proof.
  intros H. destruct (Game.currentQuestion st) as [q|] eqn:Hq.
  - destruct (resumeQuestion_fields st now q H Hq)
      as (H1 & H2 & H3 & H4 & H5 & H6 & _).
    destruct (consistent_question st q H Hq) as [Hle Ho].
    eapply (consistent_running _ q); try eassumption; try reflexivity;
      now rewrite H6.
  - destruct (consistent_sections st H) as (_ & Hpred & _).
    pose proof (clearInterval_streaming st H) as Hclear.
    assert (Hnone : Game.streamingInterval st = None -> Game.intervals st = []).
    { intros E. destruct H as ([E'|(h & c & _ & F)] & _);
        [exact E' | congruence]. }
    unfold Game.resumeQuestion. cbv zeta.
    rewrite updateBuzzerVisibility_eq.
    unfold Game.removeInputSection. fields.
    rewrite clearInterval_eq in Hclear. fields_in Hclear.
    destruct (Game.streamingInterval st) as [h|]; ops; rewrite Hq;
      apply (consistent_idle st); ops; rewrite ?Hpred; auto;
      try discriminate.
Qed.

Lemma handlePauseResume_consistent (st : Game.State) (now : Z) :
  Game.consistent st ->
  Game.consistent (Game.handlePauseResume serialized isMobile now st).
Proof.
  intros H. unfold Game.handlePauseResume.
  destruct (Game.currentQuestion st) as [q|] eqn:Hq; [|exact H].
  cbv zeta. fields. destruct (Game.isPaused st); cbn [negb].
  - apply resumeQuestion_consistent. frame.
  - pose proof (clearInterval_streaming st H) as Hclear.
    rewrite clearInterval_eq in Hclear. fields_in Hclear.
    pose proof (consistent_buzzer st H) as Hb.
    pose proof H as (_ & Hs & Hone & _).
    apply (consistent_idle st); ops; auto.
Qed.

(** [checkAnswer] on an answer that is not blank. *)
Lemma checkAnswer_fields (st : Game.State) (value : string)
      (answerTolerance now : Z) (questionSet : string)
      (q : Questions.Question) :
  Game.consistent st ->
  Game.answerInputSections st <> 0 ->
  trim value <> "" ->
  Game.currentQuestion st = Some q ->
  let st' :=
    Game.checkAnswer serialized isMobile value answerTolerance now
      questionSet st in
  let entry :=
    {| History.id := Questions.id q;
       History.question := Questions.question q;
       History.answer := Questions.answer q;
       History.status :=
         if isCorrect (trim value) (Questions.answer q) answerTolerance
         then "correct" else "incorrect";
       History.timestamp := now;
       History.questionSet := questionSet |} in
  Game.questionHistory st' = (Game.questionHistory st ++ [entry])%list
  /\ Game.sessionHistory st' = (Game.sessionHistory st ++ [entry])%list
  /\ Game.questionText st' = Questions.question q
  /\ Game.intervals st' = []
  /\ Game.answerInputSections st' = 0
  /\ Game.answerInputShown st' = false
  /\ Game.currentSection st' = "answer"
  /\ Game.pauseHidden st' = true
  /\ Game.buzzerShown st' = false
  /\ Game.currentQuestion st' = Some q
  /\ Game.currentCharIndex st' = Game.currentCharIndex st
  /\ Game.questionsPracticed st' = Game.questionsPracticed st.
Proof.
  intros H Hsec Hvalue Hq.
  destruct (consistent_sections st H) as (_ & Hpred & _).
  pose proof (clearInterval_streaming st H) as Hclear.
  rewrite clearInterval_eq in Hclear. fields_in Hclear.
  cbv zeta. unfold Game.checkAnswer.
  destruct (Nat.eqb_spec (Game.answerInputSections st) 0) as [E|_];
    [contradiction|].
  destruct (String.eqb_spec (trim value) "") as [E|_]; [contradiction|].
  rewrite Hq. cbv zeta. ops. rewrite Hclear, Hpred.
  cbn [String.eqb Ascii.eqb Bool.eqb]. rewrite !andb_false_r.
  repeat split; exact Hq.
Qed.

Lemma checkAnswer_consistent (st : Game.State) (value : string)
      (answerTolerance now : Z) (questionSet : string) :
  Game.consistent st ->
  Game.consistent
    (Game.checkAnswer serialized isMobile value answerTolerance now
       questionSet st).
Proof.
  intros H.
  destruct (Nat.eq_dec (Game.answerInputSections st) 0) as [E|Hsec].
  { unfold Game.checkAnswer. now rewrite E. }
  destruct (string_dec (trim value) "") as [E|Hvalue].
  { unfold Game.checkAnswer. rewrite E.
    destruct (Nat.eqb _ 0); [exact H | frame]. }
  destruct (Game.currentQuestion st) as [q|] eqn:Hq.
  - destruct (checkAnswer_fields st value answerTolerance now questionSet q
                H Hsec Hvalue Hq)
      as (_ & _ & _ & H4 & H5 & H6 & _ & _ & H9 & H10 & H11 & _).
    apply (consistent_idle st); auto; try lia; try congruence.
    left. congruence.
  - unfold Game.checkAnswer. rewrite Hq.
    destruct (Nat.eqb _ 0); [exact H|].
    destruct (String.eqb _ ""); [frame | exact H].
Qed.

Lemma revealAnswer_consistent (st : Game.State) (now : Z)
      (questionSet : string) :
  Game.consistent st ->
  Game.consistent
    (Game.revealAnswer serialized isMobile now questionSet st).
Proof.
  intros H.
  destruct (consistent_sections st H) as (_ & Hpred & _).
  pose proof (clearInterval_streaming st H) as Hclear.
  rewrite clearInterval_eq in Hclear. fields_in Hclear.
  pose proof (consistent_buzzer st H) as Hb.
  unfold Game.revealAnswer, Game.showAnswer. cbv zeta. ops.
  destruct (Game.currentQuestion st) as [q|] eqn:Hq; ops; rewrite ?Hq; ops;
    apply (consistent_idle st); ops; rewrite ?Hpred; auto;
    try discriminate.
  intros E. rewrite E. cbn [negb andb]. now rewrite !andb_false_r.
Qed.

Lemma handleStart_consistent (st : Game.State) (d : Game.Draw) (now : Z) :
  Game.consistent st ->
  Game.consistent (Game.handleStart serialized isMobile d now st).
Proof.
  intros H. unfold Game.handleStart. cbv zeta.
  apply displayQuestion_consistent. frame.
Qed.

Lemma keydown_consistent (st : Game.State) (code key tagName : string)
      (d : Game.Draw) (now : Z) :
  Game.consistent st ->
  Game.consistent
    (Game.keydown serialized isMobile code key tagName d now st).
Proof.
  intros H. unfold Game.keydown. cbv zeta.
  assert (H1 : Game.consistent (Game.onSpace serialized isMobile code tagName st)).
  { unfold Game.onSpace. destruct (_ && _ && _ && _); [|exact H].
    now apply showAnswerInput_consistent. }
  assert (H2 : Game.consistent
                 (Game.onStartKey serialized isMobile key tagName d now
                    (Game.onSpace serialized isMobile code tagName st))).
  { unfold Game.onStartKey. destruct (Game.inField tagName); [exact H1|].
    destruct (String.eqb _ "s"); [|exact H1].
    destruct (Game.hasQuestion _).
    - now apply displayQuestion_consistent.
    - now apply handleStart_consistent. }
  unfold Game.onPauseNextKey. destruct (Game.inField tagName); [exact H2|].
  destruct (_ || _); [exact H2|].
  destruct (String.eqb _ "p"); [now apply handlePauseResume_consistent|].
  destruct (String.eqb _ "n"); [|exact H2].
  now apply displayQuestion_consistent.
Qed.

Lemma step_consistent (st : Game.State) (e : Game.Event) :
  Game.consistent st ->
  Game.consistent (Game.step serialized isMobile st e).
Proof.
  intros H. destruct e.
  - now apply handleStart_consistent.
  - now apply displayQuestion_consistent.
  - now apply handlePauseResume_consistent.
  - now apply showAnswerInput_consistent.
  - now apply checkAnswer_consistent.
  - now apply revealAnswer_consistent.
  - now apply keydown_consistent.
  - now apply tick_consistent.
  - now apply updateBuzzerVisibility_consistent.
Qed.

Lemma session_consistent (events : list Game.Event) :
  forall st,
    Game.consistent st ->
    Game.consistent (Game.session serialized isMobile st events).
Proof.
  induction events as [|e events IH]; intros st H; [exact H|].
  cbn [Game.session fold_left]. apply IH. now apply step_consistent.
Qed.

Lemma loaded_consistent (st : Game.State) :
  Game.loaded st -> Game.consistent st.
Proof.
  intros (Hq & _ & _ & _ & _ & Hshown & _ & _ & _ & Hsec & Hi & _).
  unfold Game.consistent. rewrite Hq, Hshown, Hsec, Hi.
  repeat split; try discriminate; auto.
Qed.

(** Calls of a timer that is gone. *)
Lemma ticks_idle (h : nat) (es : list (Z * option Z)) (st : Game.State) :
  Game.intervals st = [] ->
  Game.session serialized isMobile st (Game.ticks h es) = st.
Proof.
  intros Hi. induction es as [|e es IH]; [reflexivity|].
  cbn [Game.ticks map Game.session fold_left Game.step].
  rewrite Hi. cbn [Game.closureOf]. exact IH.
Qed.

(** The end of a reveal: what the last call leaves. *)
Lemma reveal_ends (st : Game.State) (q : Questions.Question) (h : nat)
      (c : Game.Closure) (now : Z) (speed : option Z) :
  Game.consistent st ->
  Game.intervals st = [(h, c)] ->
  Game.streamingInterval st = Some h ->
  Game.currentQuestion st = Some q ->
  Game.isPaused st = false ->
  Game.tooEarly now speed (Game.lastCharTime c) = false ->
  Game.currentCharIndex st = length (Questions.question q) ->
  Game.text c = Questions.question q ->
  let st' := Game.addNextChar serialized isMobile h c now speed st in
  Game.intervals st' = []
  /\ Game.currentCharIndex st' = length (Questions.question q)
  /\ Game.currentQuestion st' = Some q
  /\ Game.questionHistory st' = Game.questionHistory st
  /\ (if Game.resumed c then
        Game.answerInputShown st' = false
        /\ Game.answerInputSections st' = 0
        /\ Game.isPaused st' = false
        /\ Game.pauseHidden st' = true
        /\ Game.buzzerShown st'
           = (isMobile && String.eqb (Game.currentSection st) "question")
        /\ Game.questionText st' = Game.displayText c
      else
        Game.answerInputShown st' = true
        /\ Game.answerInputSections st' = 1
        /\ Game.isPaused st' = true
        /\ Game.pauseHidden st' = Game.pauseHidden st
        /\ Game.buzzerShown st' = false
        /\ Game.questionText st'
           = removeCursor (serialized (Game.displayText c))).
Proof.
  intros H Hi Hs Hq Hp He Hidx Ht. cbv zeta.
  assert (Hc : Game.closureOf h (Game.intervals st) = Some c)
    by (rewrite Hi; cbn [Game.closureOf]; now rewrite Nat.eqb_refl).
  destruct (closureOf_consistent st h c H Hc)
    as (_ & _ & Hshown & Hzero & _).
  rewrite (addNextChar_ends st h c now speed H Hi Hs Hp He)
    by (rewrite Ht, Hidx; apply Nat.le_refl).
  rewrite Hshown.
  destruct (Game.resumed c).
  - ops. unfold Game.hasQuestion. fields.
    rewrite Hq, Hshown, Hzero, Hp, Hidx. repeat split.
  - pose proof (updateBuzzerVisibility_consistent _
                  (consistent_stopped st (Game.displayText c) H)) as H1.
    match type of H1 with
    | Game.consistent ?x =>
        assert (Hx : Game.answerInputShown x = false) by (ops; exact Hshown);
        destruct (showAnswerInput_fields x H1 Hx)
          as (F1 & F2 & F3 & F4 & F5 & F6 & F7 & F8 & F9 & F10 & F11 & F12)
    end.
    rewrite F1, F2, F3, F4, F5, F6, F7, F9, F10, F12. ops.
    rewrite Hq, Hidx, Nat.ltb_irrefl. repeat split.
Qed.

(** A reveal that is not paused, under enough calls of its timer. *)
Lemma reveal_run (q : Questions.Question) (h : nat) (shown : string)
      (r : bool) (es : list (Z * option Z)) :
  forall st c,
    Game.consistent st ->
    Game.intervals st = [(h, c)] ->
    Game.streamingInterval st = Some h ->
    Game.currentQuestion st = Some q ->
    Game.isPaused st = false ->
    Game.text c = Questions.question q ->
    Game.resumed c = r ->
    Game.displayText c
      ++ skip (Game.currentCharIndex st) (Questions.question q) = shown ->
    length (Questions.question q) - Game.currentCharIndex st
    < Game.firings (Game.lastCharTime c) es ->
    let st' := Game.session serialized isMobile st (Game.ticks h es) in
    Game.intervals st' = []
    /\ Game.currentCharIndex st' = length (Questions.question q)
    /\ Game.currentQuestion st' = Some q
    /\ Game.questionHistory st' = Game.questionHistory st
    /\ (if r then
          Game.answerInputShown st' = false
          /\ Game.answerInputSections st' = 0
          /\ Game.isPaused st' = false
          /\ Game.pauseHidden st' = true
          /\ Game.buzzerShown st'
             = (isMobile && String.eqb (Game.currentSection st) "question")
          /\ Game.questionText st' = shown
        else
          Game.answerInputShown st' = true
          /\ Game.answerInputSections st' = 1
          /\ Game.isPaused st' = true
          /\ Game.pauseHidden st' = Game.pauseHidden st
          /\ Game.buzzerShown st' = false
          /\ Game.questionText st' = removeCursor (serialized shown)).
Proof.
  induction es as [|[now speed] es IH];
    intros st c H Hi Hs Hq Hp Ht Hr Hshown Hfire;
    [cbn [Game.firings] in Hfire; lia|].
  cbn [Game.firings] in Hfire. cbv zeta.
  cbn [Game.ticks map Game.session fold_left Game.step fst snd].
  rewrite Hi. cbn [Game.closureOf]. rewrite Nat.eqb_refl.
  destruct (Game.tooEarly now speed (Game.lastCharTime c)) eqn:He.
  { rewrite addNextChar_idle by now right.
    now apply (IH st c). }
  destruct (consistent_question st q H Hq) as [Hle _].
  pose proof (tick_consistent st h now speed H) as Hnext.
  cbn [Game.step] in Hnext. rewrite Hi in Hnext.
  cbn [Game.closureOf] in Hnext. rewrite Nat.eqb_refl in Hnext.
  destruct (Nat.eq_dec (Game.currentCharIndex st)
                       (length (Questions.question q))) as [Hend|Hmid].
  - destruct (reveal_ends st q h c now speed H Hi Hs Hq Hp He Hend Ht)
      as (F1 & F2 & F3 & F4 & F5).
    rewrite Hend, skip_all, append_nil_r in Hshown by apply Nat.le_refl.
    fold (Game.ticks h es).
    change (fold_left (Game.step serialized isMobile) (Game.ticks h es) ?x)
      with (Game.session serialized isMobile x (Game.ticks h es)).
    rewrite ticks_idle by exact F1.
    rewrite Hr, Hshown in F5. repeat split; assumption.
  - assert (Hlt : Game.currentCharIndex st < length (Game.text c))
      by (rewrite Ht; lia).
    destruct (addNextChar_emits st h c now speed Hi Hp He Hlt)
      as (E1 & E2 & E3 & E4 & E5 & E6 & E7 & E8 & E9 & E10 & E11 & E12).
    rewrite Ht in Hlt, E1, E2.
    destruct (emit_skip (Questions.question q) (Game.currentCharIndex st)
                Hlt) as [Hadv Hsplit].
    match type of E1 with
    | _ = [(_, ?c2)] =>
        specialize (IH _ c2 Hnext E1 (eq_trans E4 Hs) (eq_trans E7 Hq) E8
                      eq_refl Hr)
    end.
    cbn [Game.displayText Game.lastCharTime] in IH.
    rewrite E2, E10, E11, E12 in IH.
    apply IH.
    + rewrite append_assoc, <- Hsplit. exact Hshown.
    + lia.
Qed.

End Session.

(** ** Properties of every session *)

(** X24: at any moment of a session at most one repeating
    timer is set, and it is the one whose handle is kept in
    [state.streamingInterval]: two reveals never run side by side. *)
Theorem one_timer (serialized : string -> string) (isMobile : bool)
        (page : Game.State) (events : list Game.Event) :
  Game.loaded page ->
  let st := Game.session serialized isMobile page events in
  List.length (Game.intervals st) <= 1
  /\ (forall handle c,
         In (handle, c) (Game.intervals st) ->
         Game.streamingInterval st = Some handle).
Proof.
  intros Hpage. cbv zeta.
  pose proof (session_consistent serialized isMobile events page
                (loaded_consistent page Hpage))
    as ([E|(h & c & E & Hs)] & _); rewrite E.
  - split; [cbn; lia | intros ? ? []].
  - split; [cbn; lia|]. intros h' c' [F|[]]. now injection F as <- _.
Qed.

Lemma one_timer_witness :
  let d :=
    {| Game.questions :=
         fun _ => Some [ {| Questions.id := "P1";
                            Questions.question := "Who won <b>Hastings</b>?";
                            Questions.answer := "<strong>William</strong>" |} ];
       Game.questionMetadata := fun _ => None;
       Game.activeFilters := Filters.clearAllFilters;
       Game.category := "preliminary";
       Game.randomIndex := 0 |} in
  let st :=
    Game.session (fun html => html) true (Game.page "")
      [Game.ClickStart d 0; Game.Tick 1 10 (Some 100%Z); Game.ClickPause 15;
       Game.ClickPause 20; Game.Tick 2 40 (Some 100%Z);
       Game.ClickNext d 50] in
  List.length (Game.intervals st) <= 1
  /\ (forall handle c,
         In (handle, c) (Game.intervals st) ->
         Game.streamingInterval st = Some handle).
Proof.
  intros d. apply (one_timer (fun html => html) true (Game.page "")).
  unfold Game.loaded. cbn. repeat split. lia.
Defined.

(** X25: at any moment of a session the page
    holds at most one answer input, and only while
    [state.answerInputShown] is set; and while that flag is set no
    timer of a reveal is running and the buzzer of the mobile layout is
    hidden. *)
Theorem answer_input_exclusive (serialized : string -> string)
        (isMobile : bool) (page : Game.State) (events : list Game.Event) :
  Game.loaded page ->
  let st := Game.session serialized isMobile page events in
  Game.answerInputSections st <= 1
  /\ (Game.answerInputSections st = 1 -> Game.answerInputShown st = true)
  /\ (Game.answerInputShown st = true ->
      Game.intervals st = [] /\ Game.buzzerShown st = false).
Proof.
  intros Hpage. cbv zeta.
  pose proof (session_consistent serialized isMobile events page
                (loaded_consistent page Hpage))
    as (_ & Hs & Hone & Hshown & _).
  repeat split; try assumption; now apply Hshown.
Qed.

Lemma answer_input_exclusive_witness :
  let d :=
    {| Game.questions :=
         fun _ => Some [ {| Questions.id := "P1";
                            Questions.question := "Who won <b>Hastings</b>?";
                            Questions.answer := "<strong>William</strong>" |} ];
       Game.questionMetadata := fun _ => None;
       Game.activeFilters := Filters.clearAllFilters;
       Game.category := "preliminary";
       Game.randomIndex := 0 |} in
  let st :=
    Game.session (fun html => html) true (Game.page "")
      [Game.ClickStart d 0; Game.Tick 1 10 (Some 100%Z);
       Game.KeyDown "Space" " " "BODY" d 15; Game.ClickBuzzer] in
  Game.answerInputSections st <= 1
  /\ (Game.answerInputSections st = 1 -> Game.answerInputShown st = true)
  /\ (Game.answerInputShown st = true ->
      Game.intervals st = [] /\ Game.buzzerShown st = false).
Proof.
  intros d.
  apply (answer_input_exclusive (fun html => html) true (Game.page "")).
  unfold Game.loaded. cbn. repeat split. lia.
Defined.

(** X26: at any moment of a session, whatever was
    paused, resumed, buzzed or skipped before, the cursor lies within
    the text of the current question and never strictly inside one of
    its tags. *)
Theorem session_cursor (serialized : string -> string) (isMobile : bool)
        (page : Game.State) (events : list Game.Event)
        (q : Questions.Question) :
  Game.loaded page ->
  let st := Game.session serialized isMobile page events in
  Game.currentQuestion st = Some q ->
  Game.currentCharIndex st <= length (Questions.question q)
  /\ ~ insideTag (Questions.question q) (Game.currentCharIndex st).
Proof.
  intros Hpage. cbv zeta. intros Hq.
  apply (consistent_question _ q); [|exact Hq].
  apply session_consistent. now apply loaded_consistent.
Qed.

Lemma session_cursor_witness :
  let q :=
    {| Questions.id := "P1";
       Questions.question := "Who won <b>Hastings</b>?";
       Questions.answer := "<strong>William</strong>" |} in
  let d :=
    {| Game.questions := fun _ => Some [q];
       Game.questionMetadata := fun _ => None;
       Game.activeFilters := Filters.clearAllFilters;
       Game.category := "preliminary";
       Game.randomIndex := 0 |} in
  let st :=
    Game.session (fun html => html) false (Game.page "")
      [Game.ClickStart d 0; Game.Tick 1 10 (Some 100%Z); Game.ClickPause 15;
       Game.ClickPause 20; Game.Tick 2 40 (Some 100%Z)] in
  Game.currentCharIndex st <= length (Questions.question q)
  /\ ~ insideTag (Questions.question q) (Game.currentCharIndex st).
Proof.
  intros q d.
  apply (session_cursor (fun html => html) false (Game.page "")
           [Game.ClickStart d 0; Game.Tick 1 10 (Some 100%Z);
            Game.ClickPause 15; Game.ClickPause 20;
            Game.Tick 2 40 (Some 100%Z)] q).
  - unfold Game.loaded. cbn. repeat split. lia.
  - vm_compute. reflexivity.
Defined.

(** ** The course of a reveal *)

(** X27: when a question is shown and its
    reveal is left to run (enough calls of the timer get past the
    delay), the reveal stops at the end of the text, the timer is
    removed, and the answer input opens, with the reveal marked as
    paused; the question is on the page without a cursor and without a
    buzz marker. *)
Theorem reveal_opens_answer_input (serialized : string -> string)
        (isMobile : bool) (page : Game.State) (events : list Game.Event)
        (d : Game.Draw) (now : Z) (q : Questions.Question)
        (es : list (Z * option Z)) :
  Game.loaded page ->
  Game.getRandomQuestion d = Some q ->
  length (Questions.question q) < Game.firings now es ->
  let st0 := Game.session serialized isMobile page events in
  let st1 := Game.step serialized isMobile st0 (Game.ClickNext d now) in
  let st :=
    Game.session serialized isMobile st1
      (Game.ticks (Game.nextHandle st0) es) in
  Game.intervals st = []
  /\ Game.currentCharIndex st = length (Questions.question q)
  /\ Game.answerInputShown st = true
  /\ Game.answerInputSections st = 1
  /\ Game.isPaused st = true
  /\ Game.buzzerShown st = false
  /\ Game.questionText st = removeCursor (serialized (Questions.question q)).
Proof.
  intros Hpage Hq Hfire. cbv zeta. cbn [Game.step Game.handleNext].
  set (st0 := Game.session serialized isMobile page events).
  assert (H0 : Game.consistent st0)
    by now apply session_consistent, loaded_consistent.
  destruct (displayQuestion_fields serialized isMobile st0 d now q H0 Hq)
    as (F1 & F2 & F3 & F4 & F5 & F6 & F7 & _).
  pose proof (displayQuestion_consistent serialized isMobile st0 d now H0)
    as H1.
  destruct (reveal_run serialized isMobile q (Game.nextHandle st0)
              (Questions.question q) false es _ _ H1 F1 F2 F5 F7
              eq_refl eq_refl)
    as (R1 & R2 & R3 & R4 & R5 & R6 & R7 & R8 & R9 & R10).
  - rewrite F6. reflexivity.
  - rewrite F6. cbn [Game.lastCharTime]. lia.
  - repeat split; assumption.
Qed.

Lemma reveal_opens_answer_input_witness :
  let q :=
    {| Questions.id := "P1"; Questions.question := "<b>Who</b>?";
       Questions.answer := "<strong>William</strong>" |} in
  let d :=
    {| Game.questions := fun _ => Some [q];
       Game.questionMetadata := fun _ => None;
       Game.activeFilters := Filters.clearAllFilters;
       Game.category := "preliminary";
       Game.randomIndex := 0 |} in
  let es := map (fun k => (10 * Z.of_nat k, Some 100))%Z (seq 1 12) in
  let st0 := Game.session (fun html => html) true (Game.page "") [] in
  let st1 := Game.step (fun html => html) true st0 (Game.ClickNext d 0) in
  let st :=
    Game.session (fun html => html) true st1
      (Game.ticks (Game.nextHandle st0) es) in
  Game.intervals st = []
  /\ Game.currentCharIndex st = length (Questions.question q)
  /\ Game.answerInputShown st = true
  /\ Game.answerInputSections st = 1
  /\ Game.isPaused st = true
  /\ Game.buzzerShown st = false
  /\ Game.questionText st
     = removeCursor ((fun html => html) (Questions.question q)).
Proof.
  intros q d es.
  apply (reveal_opens_answer_input (fun html => html) true (Game.page "")
           [] d 0 q es).
  - unfold Game.loaded. cbn. repeat split. lia.
  - reflexivity.
  - vm_compute. lia.
Defined.

(** X28: a reveal that is resumed while the
    session is paused goes on from the cursor where it stopped; left to
    run, it ends with what was on the page when it was resumed followed
    by the rest of the question, removes its timer and hides the pause
    button, but it does not open the answer input. *)
Theorem resumed_reveal_completes (serialized : string -> string)
        (isMobile : bool) (page : Game.State) (events : list Game.Event)
        (now : Z) (q : Questions.Question) (es : list (Z * option Z)) :
  Game.loaded page ->
  let st0 := Game.session serialized isMobile page events in
  Game.currentQuestion st0 = Some q ->
  Game.isPaused st0 = true ->
  length (Questions.question q) - Game.currentCharIndex st0
  < Game.firings now es ->
  let st1 := Game.step serialized isMobile st0 (Game.ClickPause now) in
  let st :=
    Game.session serialized isMobile st1
      (Game.ticks (Game.nextHandle st0) es) in
  Game.currentCharIndex st1 = Game.currentCharIndex st0
  /\ Game.intervals st = []
  /\ Game.currentCharIndex st = length (Questions.question q)
  /\ Game.answerInputShown st = false
  /\ Game.answerInputSections st = 0
  /\ Game.pauseHidden st = true
  /\ Game.questionText st
     = serialized (removeCursor (serialized (Game.questionText st0)))
       ++ skip (Game.currentCharIndex st0) (Questions.question q).
Proof.
  intros Hpage. cbv zeta.
  set (st0 := Game.session serialized isMobile page events).
  intros Hq Hp Hfire.
  assert (H0 : Game.consistent st0)
    by now apply session_consistent, loaded_consistent.
  cbn [Game.step]. unfold Game.handlePauseResume. rewrite Hq. cbv zeta.
  cbn [Game.isPaused Game.set_isPaused]. rewrite Hp. cbn [negb].
  match goal with
  | |- context [Game.resumeQuestion _ _ _ ?x] => set (st0' := x)
  end.
  assert (H0' : Game.consistent st0')
    by (eapply consistent_frame; [..|exact H0]; reflexivity).
  assert (Hq' : Game.currentQuestion st0' = Some q) by exact Hq.
  destruct (resumeQuestion_fields serialized isMobile st0' now q H0' Hq')
    as (F1 & F2 & F3 & F4 & F5 & F6 & F7 & F8 & _).
  pose proof (resumeQuestion_consistent serialized isMobile st0' now H0')
    as H1.
  change (Game.nextHandle st0') with (Game.nextHandle st0) in *.
  change (Game.currentCharIndex st0') with (Game.currentCharIndex st0) in *.
  change (Game.questionText st0') with (Game.questionText st0) in *.
  destruct (reveal_run serialized isMobile q (Game.nextHandle st0)
              (serialized (removeCursor (serialized (Game.questionText st0)))
               ++ skip (Game.currentCharIndex st0) (Questions.question q))
              true es _ _ H1 F1 F2 F5 F7 eq_refl eq_refl)
    as (R1 & R2 & R3 & R4 & R5 & R6 & R7 & R8 & R9 & R10).
  - rewrite F6. reflexivity.
  - rewrite F6. cbn [Game.lastCharTime]. exact Hfire.
  - repeat split; assumption.
Qed.

Lemma resumed_reveal_completes_witness :
  let q :=
    {| Questions.id := "P1"; Questions.question := "<b>Who</b>?";
       Questions.answer := "<strong>William</strong>" |} in
  let d :=
    {| Game.questions := fun _ => Some [q];
       Game.questionMetadata := fun _ => None;
       Game.activeFilters := Filters.clearAllFilters;
       Game.category := "preliminary";
       Game.randomIndex := 0 |} in
  let es := map (fun k => (100 + 10 * Z.of_nat k, Some 100))%Z (seq 1 12) in
  let st0 :=
    Game.session (fun html => html) true (Game.page "")
      [Game.ClickStart d 0; Game.Tick 1 10 (Some 100%Z);
       Game.Tick 1 20 (Some 100%Z); Game.ClickPause 25] in
  let st1 := Game.step (fun html => html) true st0 (Game.ClickPause 100) in
  let st :=
    Game.session (fun html => html) true st1
      (Game.ticks (Game.nextHandle st0) es) in
  Game.currentCharIndex st1 = Game.currentCharIndex st0
  /\ Game.intervals st = []
  /\ Game.currentCharIndex st = length (Questions.question q)
  /\ Game.answerInputShown st = false
  /\ Game.answerInputSections st = 0
  /\ Game.pauseHidden st = true
  /\ Game.questionText st
     = (fun html => html)
         (removeCursor ((fun html => html) (Game.questionText st0)))
       ++ skip (Game.currentCharIndex st0) (Questions.question q).
Proof.
  intros q d es.
  apply (resumed_reveal_completes (fun html => html) true (Game.page "")
           [Game.ClickStart d 0; Game.Tick 1 10 (Some 100%Z);
            Game.Tick 1 20 (Some 100%Z); Game.ClickPause 25] 100 q es).
  - unfold Game.loaded. cbn. repeat split. lia.
  - vm_compute. reflexivity.
  - vm_compute. reflexivity.
  - vm_compute. lia.
Defined.

(** X29: pressing the space bar outside a text field
    while a question is being read stops the reveal where it is: the
    timer is removed, the session is paused, and one answer input
    opens; the buzz marker is put after the text shown exactly when the
    cursor has not reached the end of the question.  A second press and
    later calls of the timer change nothing. *)
Theorem buzz_stops_reveal (serialized : string -> string) (isMobile : bool)
        (page : Game.State) (events : list Game.Event) (tagName : string)
        (d : Game.Draw) (now : Z) (q : Questions.Question) :
  Game.loaded page ->
  let st0 := Game.session serialized isMobile page events in
  Game.currentQuestion st0 = Some q ->
  Game.answerInputShown st0 = false ->
  Game.inField tagName = false ->
  let st :=
    Game.step serialized isMobile st0
      (Game.KeyDown "Space" " " tagName d now) in
  Game.intervals st = []
  /\ Game.isPaused st = true
  /\ Game.answerInputShown st = true
  /\ Game.answerInputSections st = 1
  /\ Game.currentCharIndex st = Game.currentCharIndex st0
  /\ Game.questionText st
     = (let shown := removeCursor (serialized (Game.questionText st0)) in
        if Nat.ltb (Game.currentCharIndex st0)
                   (length (Questions.question q))
        then serialized shown ++ Game.buzzMarker
        else shown)
  /\ (forall d' now',
         Game.step serialized isMobile st
           (Game.KeyDown "Space" " " tagName d' now') = st)
  /\ (forall handle now' speed,
         Game.step serialized isMobile st (Game.Tick handle now' speed) = st).
Proof.
  intros Hpage. cbv zeta.
  set (st0 := Game.session serialized isMobile page events).
  intros Hq Hshown Hfield.
  assert (H0 : Game.consistent st0)
    by now apply session_consistent, loaded_consistent.
  destruct (showAnswerInput_fields serialized isMobile st0 H0 Hshown)
    as (F1 & F2 & F3 & F4 & F5 & F6 & F7 & F8 & F9 & F10 & F11 & F12).
  assert (Hkey : forall st d' now',
             Game.answerInputShown st = true ->
             Game.onPauseNextKey serialized isMobile " " tagName d' now'
               (Game.onStartKey serialized isMobile " " tagName d' now' st)
             = st).
  { intros st d' now' Hs.
    unfold Game.onStartKey, Game.onPauseNextKey. rewrite Hfield.
    change (String.eqb (toLowerCase " ") "s") with false. cbv iota.
    now rewrite Hs, orb_true_r. }
  assert (Hstep : Game.step serialized isMobile st0
                    (Game.KeyDown "Space" " " tagName d now)
                  = Game.showAnswerInput serialized isMobile st0).
  { cbn [Game.step]. unfold Game.keydown. cbv zeta.
    unfold Game.onSpace, Game.hasQuestion.
    rewrite Hq, Hshown, Hfield. cbn [String.eqb Ascii.eqb Bool.eqb andb negb].
    now apply Hkey. }
  rewrite Hstep, Hq in *. cbv zeta in F12.
  repeat split; try assumption.
  - intros d' now'. cbn [Game.step]. unfold Game.keydown. cbv zeta.
    unfold Game.onSpace. rewrite F2. cbn [negb]. rewrite !andb_false_r.
    cbn [andb]. now apply Hkey.
  - intros handle now' speed. cbn [Game.step]. now rewrite F1.
Qed.

Lemma buzz_stops_reveal_witness :
  let q :=
    {| Questions.id := "P1"; Questions.question := "<b>Who</b>?";
       Questions.answer := "<strong>William</strong>" |} in
  let d :=
    {| Game.questions := fun _ => Some [q];
       Game.questionMetadata := fun _ => None;
       Game.activeFilters := Filters.clearAllFilters;
       Game.category := "preliminary";
       Game.randomIndex := 0 |} in
  let st0 :=
    Game.session (fun html => html) true (Game.page "")
      [Game.ClickStart d 0; Game.Tick 1 10 (Some 100%Z);
       Game.Tick 1 20 (Some 100%Z)] in
  let st :=
    Game.step (fun html => html) true st0
      (Game.KeyDown "Space" " " "BODY" d 25) in
  Game.intervals st = []
  /\ Game.isPaused st = true
  /\ Game.answerInputShown st = true
  /\ Game.answerInputSections st = 1
  /\ Game.currentCharIndex st = Game.currentCharIndex st0
  /\ Game.questionText st
     = (let shown :=
          removeCursor ((fun html => html) (Game.questionText st0)) in
        if Nat.ltb (Game.currentCharIndex st0)
                   (length (Questions.question q))
        then (fun html => html) shown ++ Game.buzzMarker
        else shown)
  /\ (forall d' now',
         Game.step (fun html => html) true st
           (Game.KeyDown "Space" " " "BODY" d' now') = st)
  /\ (forall handle now' speed,
         Game.step (fun html => html) true st
           (Game.Tick handle now' speed) = st).
Proof.
  intros q d.
  apply (buzz_stops_reveal (fun html => html) true (Game.page "")
           [Game.ClickStart d 0; Game.Tick 1 10 (Some 100%Z);
            Game.Tick 1 20 (Some 100%Z)] "BODY" d 25 q).
  - unfold Game.loaded. cbn. repeat split. lia.
  - vm_compute. reflexivity.
  - vm_compute. reflexivity.
  - reflexivity.
Defined.



(** The question drawn for display is one of the questions of the
    chosen category that pass the filters, and no question is drawn
    when none passes. *)
Lemma drawn_question_passes_filters (d : Game.Draw) :
  let filtered :=
    Filters.getFilteredQuestions (Game.questions d) (Game.questionMetadata d)
      (Game.activeFilters d) (Game.category d) in
  (forall q, Game.getRandomQuestion d = Some q -> In q filtered)
  /\ (filtered = [] -> Game.getRandomQuestion d = None)
  /\ (Game.randomIndex d < List.length filtered ->
      Game.getRandomQuestion d <> None).
Proof.
  cbv zeta. unfold Game.getRandomQuestion. cbv zeta.
  set (filtered := Filters.getFilteredQuestions _ _ _ _).
  repeat split.
  - intros q. destruct (Nat.eqb _ 0); [discriminate|].
    apply nth_error_In.
  - intros ->. reflexivity.
  - intros Hlt. destruct (Nat.eqb_spec (List.length filtered) 0); [lia|].
    now apply nth_error_Some.
Qed.
